(** * Kochi Metro route optimizer: a shallow embedding of [dijkstra.py]

    The development follows the Python module top to bottom:
    - [PyFloat]: the float operations the module uses, as an interface, with
      the IEEE binary64 instance [float64] (what CPython runs);
    - [KochiMetroNetwork]: the station set, the [defaultdict(list)] adjacency
      structure and the reference network built by the constructor;
    - [MetroRouteOptimizer]: [dijkstra_multi_criteria], [get_path] and
      [find_optimal_routes], with the exceptions Python can raise written out
      and the network object threaded through (reading a [defaultdict]
      writes to it). *)

From Stdlib Require Import ZArith String QArith Qpower Lia Lqa.
From Stdlib Require Import Floats.PrimFloat Floats.SpecFloat Floats.FloatOps Floats.FloatAxioms.
From stdpp Require Import base option list gmap sets strings.

Local Open Scope string_scope.
Local Open Scope list_scope.
Local Open Scope Z_scope.

(** ** Python floats *)

(** The operations [dijkstra.py] applies to numbers.  [f_ratio n d] is the
    float nearest to the rational [n/d] ([d > 0]): a decimal literal
    ([2.5] is [f_ratio 25 10]), the conversion of an [int] operand
    ([f_ratio n 1]) and the true division of two [int]s.  [f_round x k] is
    [round(x, k)].  The two laws are [float('inf') == float('inf')] and that
    nothing below another number is [float('inf')]. *)
Class PyFloat := {
  num : Type;
  f_ratio : Z → Z → num;
  f_inf : num;
  f_add : num → num → num;
  f_mul : num → num → num;
  f_div : num → num → num;
  f_eqb : num → num → bool;
  f_ltb : num → num → bool;
  f_leb : num → num → bool;
  f_round : num → nat → num;
  f_inf_eqb : f_eqb f_inf f_inf = true;
  f_ltb_inf x y : f_ltb x y = true → f_eqb x f_inf = false
}.

Definition f_zero `{PyFloat} : num := f_ratio 0 1.

(** *** IEEE binary64 *)

Module Float64.

(** The float nearest to [n/d] (ties to even), signed by [s]. *)
Definition nearest (s : bool) (n d : positive) : spec_float :=
  let '(mz, ez, lz) := SFdiv_core_binary prec emax (Zpos n) 0 (Zpos d) 0 in
  binary_round_aux prec emax s mz ez lz.

Definition ratio (n d : Z) : float :=
  match d, n with
  | Zpos d', Zpos n' => SF2Prim (nearest false n' d')
  | Zpos d', Zneg n' => SF2Prim (nearest true n' d')
  | Zpos _, Z0 => PrimFloat.zero
  | _, _ => PrimFloat.nan
  end.

(** [m * 2^e * 10^k] rounded to an integer, ties to even. *)
Definition scaled_half_even (m : positive) (e : Z) (k : nat) : Z :=
  let n := Zpos m * 10 ^ Z.of_nat k in
  if 0 <=? e then n * 2 ^ e
  else
    let d := 2 ^ (- e) in
    let q := n / d in
    match 2 * (n mod d) ?= d with
    | Lt => q
    | Gt => q + 1
    | Eq => if Z.even q then q else q + 1
    end.

(** [round(x, k)] for [k >= 0]: the exact value of [x] is rounded to [k]
    decimals, ties to even, and the decimal is read back as the nearest
    float; zeros, infinities and nan round to themselves. *)
Definition round (x : float) (k : nat) : float :=
  match Prim2SF x with
  | S754_finite s m e =>
      match scaled_half_even m e k with
      | Zpos n => SF2Prim (nearest s n (Z.to_pos (10 ^ Z.of_nat k)))
      | _ => if s then PrimFloat.neg_zero else PrimFloat.zero
      end
  | _ => x
  end.

(** [x < y] leaves [x == float('inf')] out. *)
Lemma ltb_not_infinity x y :
  PrimFloat.ltb x y = true → PrimFloat.eqb x PrimFloat.infinity = false.
Proof.
  rewrite FloatAxioms.ltb_spec, FloatAxioms.eqb_spec.
  change (Prim2SF infinity) with (S754_infinity false).
  unfold SFltb, SFeqb.
  destruct (Prim2SF x) as [[]|[]| |[] m e]; cbn; try reflexivity;
    destruct (Prim2SF y) as [[]|[]| |[] m' e']; cbn; intros; try reflexivity; try discriminate.
Qed.

End Float64.

#[export] Instance float64 : PyFloat := {|
  num := float;
  f_ratio := Float64.ratio;
  f_inf := PrimFloat.infinity;
  f_add := PrimFloat.add;
  f_mul := PrimFloat.mul;
  f_div := PrimFloat.div;
  f_eqb := PrimFloat.eqb;
  f_ltb := PrimFloat.ltb;
  f_leb := PrimFloat.leb;
  f_round := Float64.round;
  f_inf_eqb := eq_refl;
  f_ltb_inf := Float64.ltb_not_infinity
|}.

(** *** Order laws

    [f_le a b] is [a <= b].  The laws of [MonotoneFloat] are those the
    composite score needs of the operations: on numbers that are not
    negative, addition, multiplication by a weight and division by the
    normalising constants are monotone, and an operation whose result is a
    number ([x <= x], which fails of nan only) had numbers as operands.
    IEEE binary64 with rounding to nearest obeys them
    ([float64_monotone], below). *)
Definition f_le `{PyFloat} (a b : num) : Prop := f_leb a b = true.

Class MonotoneFloat (F : PyFloat) : Prop := {
  mono_trans a b c : f_le a b → f_le b c → f_le a c;
  mono_zero : f_le f_zero f_zero;
  mono_lt a b : f_ltb a b = true → f_le a a;
  mono_add_defined a b : f_le (f_add a b) (f_add a b) → f_le a a ∧ f_le b b;
  mono_add a b c d :
    f_le f_zero a → f_le a b → f_le f_zero c → f_le c d →
    f_le (f_add a c) (f_add b d);
  mono_add_nonneg a b : f_le f_zero a → f_le f_zero b → f_le f_zero (f_add a b);
  mono_add_r a e : f_le f_zero a → f_le f_zero e → f_le a (f_add a e);
  mono_mul w a b :
    f_le f_zero w → f_le f_zero a → f_le a b →
    f_le (f_mul w a) (f_mul w a) → f_le (f_mul w b) (f_mul w b) →
    f_le (f_mul w a) (f_mul w b);
  mono_mul_nonneg w a :
    f_le f_zero w → f_le f_zero a → f_le (f_mul w a) (f_mul w a) →
    f_le f_zero (f_mul w a);
  mono_div k a b :
    k = 100 ∨ k = 60 → f_le f_zero a → f_le a b →
    f_le (f_div a (f_ratio k 1)) (f_div b (f_ratio k 1));
  mono_div_nonneg k a :
    k = 100 ∨ k = 60 → f_le f_zero a → f_le f_zero (f_div a (f_ratio k 1));
  mono_ratio n m : 0 ≤ n ≤ m → f_le (f_ratio n 25) (f_ratio m 25);
  mono_ratio_nonneg n : 0 ≤ n → f_le f_zero (f_ratio n 25)
}.

(** *** Rounding to nearest, in the rationals

    The vocabulary in which the operations of binary64, as [SpecFloat]
    defines them, are shown to obey the order laws: a number between two
    integers, the integer nearest to it, the exponent at which it is
    rounded and the float this gives. *)

Module Rounding.

(** [2 ^ e], for any integer [e]. *)
Definition pow2 (e : Z) : Q := (2 ^ e)%Q.

(** Where [y] lies from the integer [m] to the next, as the round and the
    sticky bit of a shift tell it: at [m], below the middle, at the middle
    or above it. *)
Definition inbetween (m : Z) (r s : bool) (y : Q) : Prop :=
  match r, s with
  | false, false => (y == inject_Z m)%Q
  | false, true => (inject_Z m < y ∧ y < inject_Z m + (1 # 2))%Q
  | true, false => (y == inject_Z m + (1 # 2))%Q
  | true, true => (inject_Z m + (1 # 2) < y ∧ y < inject_Z m + 1)%Q
  end.

(** The record of a shift tells where [y] lies. *)
Definition located (mrs : shr_record) (y : Q) : Prop :=
  0 ≤ shr_m mrs ∧ inbetween (shr_m mrs) (shr_r mrs) (shr_s mrs) y.

(** [n] is the integer nearest to [y], the even one of two as near. *)
Definition nearest_even (y : Q) (n : Z) : Prop :=
  (inject_Z n - (1 # 2) <= y ∧ y <= inject_Z n + (1 # 2))%Q ∧
  ((y == inject_Z n - (1 # 2))%Q → Z.even n = true) ∧
  ((y == inject_Z n + (1 # 2))%Q → Z.even n = true).

(** [E] is the exponent at which a number of the size of [x] is rounded. *)
Definition canonic (x : Q) (E : Z) : Prop :=
  -1074 ≤ E ∧ (x < pow2 (E + 53))%Q ∧ (-1074 < E → (pow2 (E + 52) <= x)%Q).

(** The float of mantissa [m] and exponent [e]: infinity when the exponent
    is beyond the format. *)
Definition mk (m e : Z) : spec_float :=
  match m with
  | Z0 => S754_zero false
  | Zpos p => if e <=? 971 then S754_finite false p e else S754_infinity false
  | Zneg _ => S754_nan
  end.

(** The float for the rounded mantissa [N] at the exponent [E]: a mantissa
    of 54 bits is halved. *)
Definition finish (N E : Z) : spec_float :=
  if N =? 2 ^ 53 then mk (2 ^ 52) (E + 1) else mk N E.

(** [f] is [x] rounded to nearest, ties to even. *)
Definition rounded (x : Q) (f : spec_float) : Prop :=
  ∃ E N, canonic x E ∧ nearest_even (x * pow2 (- E)) N ∧ 0 ≤ N ≤ 2 ^ 53 ∧
         f = finish N E.

(** The value of a float that is zero, positive or infinite: [None] is
    infinity. *)
Definition value (f : spec_float) : option Q :=
  match f with
  | S754_zero _ => Some 0%Q
  | S754_finite false m e => Some (inject_Z (Zpos m) * pow2 e)%Q
  | _ => None
  end.

(** A float of the format that [0.0 <=] holds of. *)
Definition nonneg (f : spec_float) : Prop :=
  valid_binary f = true ∧ SFleb (S754_zero false) f = true.

(** The order of the values. *)
Definition vle (v w : option Q) : Prop :=
  match v, w with
  | Some x, Some y => (x <= y)%Q
  | _, None => True
  | None, Some _ => False
  end.

(** [f] is the float for the value [v]: zero for 0, the rounding of [v]
    when it is positive, infinity for infinity. *)
Definition approx (v : option Q) (f : spec_float) : Prop :=
  match v with
  | None => f = S754_infinity false
  | Some x => ((x == 0)%Q ∧ ∃ s, f = S754_zero s) ∨ ((0 < x)%Q ∧ rounded x f)
  end.

(** The sum of two values. *)
Definition vadd (v w : option Q) : option Q :=
  match v, w with
  | Some x, Some y => Some (x + y)%Q
  | _, _ => None
  end.

(** A value multiplied by a positive number. *)
Definition vscale (x : Q) (v : option Q) : option Q :=
  match v with
  | Some y => Some (x * y)%Q
  | None => None
  end.

(** A place on a line for every float but nan: its class, then exponent
    and mantissa. *)
Definition key (f : spec_float) : option (Z * Z * Z) :=
  match f with
  | S754_nan => None
  | S754_infinity true => Some (-2, 0, 0)
  | S754_finite true m e => Some (-1, - e, - Zpos m)
  | S754_zero _ => Some (0, 0, 0)
  | S754_finite false m e => Some (1, e, Zpos m)
  | S754_infinity false => Some (2, 0, 0)
  end.

(** The order of the places. *)
Definition lexle (k k' : Z * Z * Z) : Prop :=
  k.1.1 < k'.1.1 ∨
  (k.1.1 = k'.1.1 ∧ (k.1.2 < k'.1.2 ∨ (k.1.2 = k'.1.2 ∧ k.2 ≤ k'.2))).

End Rounding.

(** ** KochiMetroNetwork *)

Section Network.
Context `{PyFloat}.

(** One entry of an adjacency list: the dict [add_connection] appends. *)
Record connection := Connection {
  destination : string;
  travel_time : num;
  distance : num;
  cost : num
}.

(** [self.graph] is a [defaultdict(list)], [self.stations] a set and
    [self.station_info] a dict of [{'line': .., 'zone': ..}]. *)
Record KochiMetroNetwork := Network {
  graph : gmap string (list connection);
  stations : gset string;
  station_info : gmap string (string * string)
}.

(** Reading [d[k]] on a [defaultdict(list)]: a missing key is inserted
    with the empty list, and that list is the value read. *)
Definition defaultdict_getitem (g : gmap string (list connection)) (k : string)
  : list connection * gmap string (list connection) :=
  match g !! k with
  | Some l => (l, g)
  | None => ([], <[k := []]> g)
  end.

Definition add_connection (self : KochiMetroNetwork) (station1 station2 : string)
    (travel_time distance cost : num) : KochiMetroNetwork :=
  let '(l, g) := defaultdict_getitem (graph self) station1 in
  {| graph := <[station1 := l ++ [Connection station2 travel_time distance cost]]> g;
     stations := stations self;
     station_info := station_info self |}.

Definition line1_stations : list string :=
  [ "Aluva"; "Pulinchodu"; "Companypady"; "Ambattukavu"; "Muttom";
    "Kalamassery"; "Cusat"; "Pathadipalam"; "Edapally"; "Changampuzha Park";
    "Palarivattom"; "J.L.N Stadium"; "Kaloor"; "Lissie"; "M.G Road";
    "Maharajas"; "Ernakulam South"; "Kadavanthra"; "Elamkulam";
    "Vyttila"; "Thaikoodam"; "Petta"; "Thripunithura" ].

Definition _get_zone (station : string) : string :=
  if bool_decide (station ∈ ["Aluva"; "Pulinchodu"; "Companypady"]) then "Zone 3"
  else if bool_decide (station ∈ ["Thripunithura"; "Petta"; "Thaikoodam"]) then "Zone 3"
  else if bool_decide (station ∈ ["M.G Road"; "Maharajas"; "Ernakulam South"; "Lissie"])
  then "Zone 1"
  else "Zone 2".

(** [table.get(segment, table.get(reverse_segment, base))]. *)
Definition segment_get (table : gmap (string * string) num) (base : num)
    (station1 station2 : string) : num :=
  default (default base (table !! (station2, station1))) (table !! (station1, station2)).

Definition _calculate_travel_time (station1 station2 : string) : num :=
  let base_time := f_ratio 25 10 in
  let special_segments : gmap (string * string) num :=
    list_to_map [ (("Aluva", "Pulinchodu"), f_ratio 30 10);
                  (("Edapally", "Changampuzha Park"), f_ratio 20 10);
                  (("M.G Road", "Maharajas"), f_ratio 15 10);
                  (("Vyttila", "Thaikoodam"), f_ratio 35 10) ] in
  segment_get special_segments base_time station1 station2.

Definition _calculate_distance (station1 station2 : string) : num :=
  let base_distance := f_ratio 12 10 in
  let special_distances : gmap (string * string) num :=
    list_to_map [ (("Aluva", "Pulinchodu"), f_ratio 18 10);
                  (("Vyttila", "Thaikoodam"), f_ratio 21 10);
                  (("M.G Road", "Maharajas"), f_ratio 8 10) ] in
  segment_get special_distances base_distance station1 station2.

Definition _calculate_cost (station1 station2 : string) : num := f_ratio 50 10.

(** The first loop of [_build_network]: register a station. *)
Definition register_station (self : KochiMetroNetwork) (station : string)
  : KochiMetroNetwork :=
  {| graph := graph self;
     stations := {[station]} ∪ stations self;
     station_info := <[station := ("Blue Line", _get_zone station)]> (station_info self) |}.

(** The body of the second loop, at index [i]: the two directed edges
    between [line1_stations[i]] and [line1_stations[i + 1]]. *)
Definition connect_consecutive (self : KochiMetroNetwork) (i : nat) : KochiMetroNetwork :=
  match line1_stations !! i, line1_stations !! S i with
  | Some station1, Some station2 =>
      let travel_time := _calculate_travel_time station1 station2 in
      let distance := _calculate_distance station1 station2 in
      let cost := _calculate_cost station1 station2 in
      let self := add_connection self station1 station2 travel_time distance cost in
      add_connection self station2 station1 travel_time distance cost
  | _, _ => self
  end.

Definition _build_network (self : KochiMetroNetwork) : KochiMetroNetwork :=
  let self := foldl register_station self line1_stations in
  foldl connect_consecutive self (seq 0 (length line1_stations - 1)).

(** [KochiMetroNetwork()]: the constructor. *)
Definition KochiMetroNetwork_init : KochiMetroNetwork :=
  _build_network {| graph := ∅; stations := ∅; station_info := ∅ |}.

(** [outgoingEdges]: the list a lookup of [station] reads. *)
Definition outgoing (g : gmap string (list connection)) (station : string)
  : list connection :=
  default [] (g !! station).

End Network.

(** ** Exceptions and non-termination *)

Inductive exn :=
  | ValueError (msg : string)
  | KeyError (key : string)
  | IndexError (msg : string)
  | OverflowError (msg : string).

(** What running a piece of Python gives: a value, a raised exception, or
    a loop that never ends. *)
Inductive outcome (A : Type) :=
  | Ok (a : A)
  | Raise (e : exn)
  | Diverge.
Arguments Ok {A} a.
Arguments Raise {A} e.
Arguments Diverge {A}.

#[export] Instance outcome_ret : MRet outcome := λ A a, Ok a.
#[export] Instance outcome_bind : MBind outcome := λ A B f m,
  match m with
  | Ok a => f a
  | Raise e => Raise e
  | Diverge => Diverge
  end.

(** [d[k]] on a plain dict. *)
Definition getitem {V} (d : gmap string V) (k : string) : outcome V :=
  match d !! k with
  | Some v => Ok v
  | None => Raise (KeyError k)
  end.

(** [for x in l: s = body(s, x)], stopping at the first exception. *)
Fixpoint for_each {S A} (body : S → A → outcome S) (s : S) (l : list A) : outcome S :=
  match l with
  | [] => Ok s
  | x :: l => s' ← body s x; for_each body s' l
  end.

(** ** MetroRouteOptimizer *)

Section Optimizer.
Context `{PyFloat}.

(** A value of the [stops] dict: an [int], or [float('inf')]. *)
Inductive stop_count := Count (n : Z) | Unreached.

(** [s + 1] *)
Definition stop_succ (s : stop_count) : stop_count :=
  match s with
  | Count n => Count (n + 1)
  | Unreached => Unreached
  end.

(** [s / 25] *)
Definition stop_div25 (s : stop_count) : num :=
  match s with
  | Count n => f_ratio n 25
  | Unreached => f_div f_inf (f_ratio 25 1)
  end.

(** [int(s)] *)
Definition stop_int (s : stop_count) : outcome Z :=
  match s with
  | Count n => Ok n
  | Unreached => Raise (OverflowError "cannot convert float infinity to integer")
  end.

(** The local variables of [dijkstra_multi_criteria]. *)
Record locals := Locals {
  distances : gmap string num;
  previous : gmap string (option string);
  costs : gmap string num;
  times : gmap string num;
  stops : gmap string stop_count;
  pq : list (num * string);
  visited : gset string
}.

(** *** heapq on [(distance, station)] tuples *)

(** Tuple comparison: the first components decide unless they are equal. *)
Definition entry_lt (a b : num * string) : bool :=
  if f_eqb a.1 b.1 then String.ltb a.2 b.2 else f_ltb a.1 b.1.

(** The least entry of [x :: l] (the first one among equals) and the
    other entries. *)
Fixpoint extract_min (x : num * string) (l : list (num * string))
  : (num * string) * list (num * string) :=
  match l with
  | [] => (x, [])
  | y :: l' =>
      if entry_lt y x
      then let '(m, r) := extract_min y l' in (m, x :: r)
      else let '(m, r) := extract_min x l' in (m, y :: r)
      end.

(** [heapq.heappush] and [heapq.heappop], by their contract: the heap is
    a bag of entries and a pop takes a least one out. *)
Definition heappush (heap : list (num * string)) (item : num * string)
  : list (num * string) := item :: heap.

Definition heappop (heap : list (num * string))
  : option ((num * string) * list (num * string)) :=
  match heap with
  | [] => None
  | x :: l => Some (extract_min x l)
  end.

(** *** dijkstra_multi_criteria *)

Section Weights.
Variables cost_weight time_weight stops_weight : num.

Definition composite (new_cost new_time : num) (new_stops : stop_count) : num :=
  let normalized_cost := f_div new_cost (f_ratio 100 1) in
  let normalized_time := f_div new_time (f_ratio 60 1) in
  let normalized_stops := stop_div25 new_stops in
  f_add (f_add (f_mul cost_weight normalized_cost)
               (f_mul time_weight normalized_time))
        (f_mul stops_weight normalized_stops).

(** The body of [for connection in self.network.graph[current_station]]. *)
Definition relax (current_station : string) (st : locals) (connection : connection)
  : outcome locals :=
  let neighbor := destination connection in
  if bool_decide (neighbor ∈ visited st) then Ok st
  else
    c ← getitem (costs st) current_station;
    let new_cost := f_add c (cost connection) in
    t ← getitem (times st) current_station;
    let new_time := f_add t (travel_time connection) in
    s ← getitem (stops st) current_station;
    let new_stops := stop_succ s in
    let composite_distance := composite new_cost new_time new_stops in
    d ← getitem (distances st) neighbor;
    if f_ltb composite_distance d then
      Ok {| distances := <[neighbor := composite_distance]> (distances st);
            costs := <[neighbor := new_cost]> (costs st);
            times := <[neighbor := new_time]> (times st);
            stops := <[neighbor := new_stops]> (stops st);
            previous := <[neighbor := Some current_station]> (previous st);
            pq := heappush (pq st) (composite_distance, neighbor);
            visited := visited st |}
    else Ok st.

(** The whole [for] loop. *)
Definition relax_all (current_station : string) (st : locals)
    (connections : list connection) : outcome locals :=
  for_each (relax current_station) st connections.

(** One turn of [while pq]: the loop goes on with the next state, or
    halts (the heap is empty, or the [for] loop raised). *)
Inductive turn :=
  | Next (g : gmap string (list connection)) (st : locals)
  | Halt (g : gmap string (list connection)) (o : outcome locals).

Definition while_body (g : gmap string (list connection)) (st : locals) : turn :=
  match heappop (pq st) with
  | None => Halt g (Ok st)
  | Some ((current_distance, current_station), heap) =>
      let st := {| distances := distances st; previous := previous st;
                   costs := costs st; times := times st; stops := stops st;
                   pq := heap; visited := visited st |} in
      if bool_decide (current_station ∈ visited st) then Next g st
      else
        let st := {| distances := distances st; previous := previous st;
                     costs := costs st; times := times st; stops := stops st;
                     pq := pq st; visited := {[current_station]} ∪ visited st |} in
        let '(connections, g) := defaultdict_getitem g current_station in
        match relax_all current_station st connections with
        | Ok st => Next g st
        | o => Halt g o
        end
  end.

(** [while pq: ...], at most [fuel] turns. *)
Fixpoint while_pq (fuel : nat) (g : gmap string (list connection)) (st : locals)
  : outcome locals * gmap string (list connection) :=
  match fuel with
  | O => (Diverge, g)
  | S fuel =>
      match while_body g st with
      | Next g st => while_pq fuel g st
      | Halt g o => (o, g)
      end
  end.

(** The dict [dijkstra_multi_criteria] returns. *)
Record results := Results {
  res_distances : gmap string num;
  res_costs : gmap string num;
  res_times : gmap string num;
  res_stops : gmap string stop_count;
  res_previous : gmap string (option string)
}.

(** The [return] of [dijkstra_multi_criteria]: the five dicts. *)
Definition results_of (st : locals) : results :=
  {| res_distances := distances st; res_costs := costs st;
     res_times := times st; res_stops := stops st;
     res_previous := previous st |}.

(** Turns that suffice for the [while] loop on [network]: one per heap
    entry (the origin's, and at most one per edge leaving a station),
    and the turn that finds the heap empty. *)
Definition while_fuel (network : KochiMetroNetwork) : nat :=
  S (S (sum_list ((λ s, length (outgoing (graph network) s))
                    <$> elements (stations network)))).

Definition initial (network : KochiMetroNetwork) (start_station : string) : locals :=
  {| distances := <[start_station := f_zero]> (gset_to_gmap f_inf (stations network));
     previous := gset_to_gmap None (stations network);
     costs := <[start_station := f_zero]> (gset_to_gmap f_inf (stations network));
     times := <[start_station := f_zero]> (gset_to_gmap f_inf (stations network));
     stops := <[start_station := Count 0]> (gset_to_gmap Unreached (stations network));
     pq := [(f_zero, start_station)];
     visited := ∅ |}.

Definition dijkstra_multi_criteria (network : KochiMetroNetwork) (start_station : string)
  : outcome results * KochiMetroNetwork :=
  if bool_decide (start_station ∉ stations network) then
    (Raise (ValueError (String.append "Station '"
              (String.append start_station "' not found in the network"))),
     network)
  else
    let '(o, g) := while_pq (while_fuel network) (graph network)
                            (initial network start_station) in
    (st ← o; mret (results_of st),
     {| graph := g; stations := stations network;
        station_info := station_info network |}).

End Weights.

(** *** get_path *)

(** [while current is not None: path.append(current); current = previous[current]],
    at most [fuel] turns. *)
Fixpoint walk (fuel : nat) (previous : gmap string (option string))
    (current : option string) (path : list string) : outcome (list string) :=
  match current with
  | None => Ok path
  | Some station =>
      match fuel with
      | O => Diverge
      | S fuel =>
          next ← getitem previous station;
          walk fuel previous next (path ++ [station])
      end
  end.

(** A walk that ends looks every key up at most once, so one turn per key
    of [previous], and one more for a key that is missing, suffice
    ([walk_enough]). *)
Definition get_path (start_station end_station : string)
    (previous : gmap string (option string)) : outcome (list string) :=
  path ← walk (S (size previous)) previous (Some end_station) [];
  let path := reverse path in
  match path with
  | [] => Raise (IndexError "list index out of range")
  | first :: _ =>
      if bool_decide (first ≠ start_station) then Ok [] else Ok path
  end.

(** The stations the walk of [get_path] looks up in [previous], in order. *)
Fixpoint lookups (fuel : nat) (previous : gmap string (option string))
    (current : option string) : list string :=
  match current, fuel with
  | Some station, S fuel =>
      station :: match previous !! station with
                 | Some next => lookups fuel previous next
                 | None => []
                 end
  | _, _ => []
  end.

(** *** find_optimal_routes *)

(** One entry of [routes]. *)
Record route := Route {
  path : list string;
  total_cost : num;
  total_time : num;
  total_stops : Z;
  composite_score : num
}.

(** The body of [for station in self.network.stations]. *)
Definition add_route (start_station : string) (res : results)
    (routes : gmap string route) (station : string) : outcome (gmap string route) :=
  if bool_decide (station ≠ start_station) then
    d ← getitem (res_distances res) station;
    if negb (f_eqb d f_inf) then
      path ← get_path start_station station (res_previous res);
      c ← getitem (res_costs res) station;
      t ← getitem (res_times res) station;
      s ← getitem (res_stops res) station;
      n ← stop_int s;
      d ← getitem (res_distances res) station;
      Ok (<[station := {| path := path;
                          total_cost := f_round c 2;
                          total_time := f_round t 2;
                          total_stops := n;
                          composite_score := f_round d 4 |}]> routes)
    else Ok routes
  else Ok routes.

Definition find_optimal_routes (network : KochiMetroNetwork) (start_station : string)
    (cost_weight time_weight stops_weight : num)
  : outcome (gmap string route) * KochiMetroNetwork :=
  let '(o, network) :=
    dijkstra_multi_criteria cost_weight time_weight stops_weight network start_station in
  (res ← o;
   for_each (add_route start_station res) ∅ (elements (stations network)),
   network).

End Optimizer.

(** ** Vocabulary of the specification *)

Section Vocabulary.
Context `{PyFloat}.

(** An edge from [u] to [v] is present in the adjacency structure. *)
Definition linked (g : gmap string (list connection)) (u v : string) : Prop :=
  ∃ c, c ∈ outgoing g u ∧ destination c = v.

(** [trail R o v l]: [l] lists stations from [o] to [v], every station
    related by [R] to the next. *)
Inductive trail (R : string → string → Prop) (o : string)
  : string → list string → Prop :=
  | trail_origin : trail R o o [o]
  | trail_step u v l : trail R o u l → R u v → trail R o v (l ++ [v]).

(** [u] is the predecessor link of [v]. *)
Definition parent (previous : gmap string (option string)) (u v : string) : Prop :=
  previous !! v = Some (Some u).

(** [r] is the entry [find_optimal_routes] builds for station [s] from the
    dicts [res]: the predecessor links from the origin to [s], as many
    stops as the path has links, and the rounded totals. *)
Definition route_for (network : KochiMetroNetwork) (start_station : string)
    (res : results) (s : string) (r : route) : Prop :=
  trail (parent (res_previous res)) start_station s (path r) ∧
  Z.of_nat (length (path r)) = total_stops r + 1 ∧
  res_stops res !! s = Some (Count (total_stops r)) ∧
  (∃ c, res_costs res !! s = Some c ∧ total_cost r = f_round c 2) ∧
  (∃ t, res_times res !! s = Some t ∧ total_time r = f_round t 2) ∧
  (∃ d, res_distances res !! s = Some d ∧ composite_score r = f_round d 4).

(** The test [find_optimal_routes] makes before it lists station [s]:
    [s] is not the origin and its score is not the infinite sentinel. *)
Definition listed (start_station : string) (res : results) (s : string) : Prop :=
  s ≠ start_station ∧
  ∃ d, res_distances res !! s = Some d ∧ f_eqb d f_inf = false.

(** Every edge of the network leads to a registered station. *)
Definition closed (network : KochiMetroNetwork) : Prop :=
  ∀ u c, c ∈ outgoing (graph network) u → destination c ∈ stations network.

Section Run.
Variables cost_weight time_weight stops_weight : num.
Variable network : KochiMetroNetwork.
Variable start_station : string.

(** [v] is the origin or has been relaxed. *)
Definition reached (st : locals) (v : string) : Prop :=
  v = start_station ∨ ∃ u, parent (previous st) u v.

(** What the last relaxation of [v], over an edge from [u], wrote. *)
Definition relaxed_from (st : locals) (u v : string) : Prop :=
  ∃ conn cu tu n,
    conn ∈ outgoing (graph network) u ∧ destination conn = v ∧
    costs st !! u = Some cu ∧ times st !! u = Some tu ∧
    stops st !! u = Some (Count n) ∧
    costs st !! v = Some (f_add cu (cost conn)) ∧
    times st !! v = Some (f_add tu (travel_time conn)) ∧
    stops st !! v = Some (Count (n + 1)) ∧
    distances st !! v =
      Some (composite cost_weight time_weight stops_weight
              (f_add cu (cost conn)) (f_add tu (travel_time conn)) (Count (n + 1))) ∧
    ∃ old, f_ltb (composite cost_weight time_weight stops_weight
                    (f_add cu (cost conn)) (f_add tu (travel_time conn))
                    (Count (n + 1))) old = true.

(** The loop invariant of [while pq]. *)
Record invariant (st : locals) : Prop := {
  inv_distances : dom (distances st) = stations network;
  inv_previous : dom (previous st) = stations network;
  inv_costs : dom (costs st) = stations network;
  inv_times : dom (times st) = stations network;
  inv_stops : dom (stops st) = stations network;
  inv_visited : visited st ⊆ stations network;
  inv_pq : ∀ e, e ∈ pq st → e.2 ∈ stations network ∧ reached st e.2;
  inv_first : start_station ∈ visited st ∨
              (visited st = ∅ ∧ ∀ e, e ∈ pq st → e.2 = start_station);
  inv_settled : ∀ v, v ∈ visited st → reached st v;
  inv_origin : previous st !! start_station = Some None ∧
               distances st !! start_station = Some f_zero ∧
               costs st !! start_station = Some f_zero ∧
               times st !! start_station = Some f_zero ∧
               stops st !! start_station = Some (Count 0);
  inv_unreached : ∀ v, v ≠ start_station → previous st !! v = Some None →
                  distances st !! v = Some f_inf ∧ stops st !! v = Some Unreached;
  inv_tree : ∀ v u, parent (previous st) u v →
             v ≠ start_station ∧ u ∈ visited st ∧ relaxed_from st u v;
  inv_count : ∀ v n, stops st !! v = Some (Count n) →
              0 ≤ n ≤ Z.of_nat (size (visited st)) ∧
              (v ∈ visited st → n < Z.of_nat (size (visited st)))
}.

(** Heap entries and edges still to be looked at: it drops at every
    turn of [while pq]. *)
Definition pending (st : locals) : nat :=
  (length (pq st) +
   sum_list ((λ s, length (outgoing (graph network) s))
               <$> elements (stations network ∖ visited st)))%nat.

End Run.

(** What a run may do to the adjacency structure [g] of [network]: every
    station reads the same list of edges, no key is lost, and a new key
    is a station. *)
Definition adjacency_kept (network : KochiMetroNetwork)
    (g : gmap string (list connection)) : Prop :=
  (∀ s, outgoing g s = outgoing (graph network) s) ∧
  graph network ⊆ g ∧
  dom g ⊆ dom (graph network) ∪ stations network.

(** Station [x] has the same entries in the dicts of [st] and of [st']. *)
Definition same_record (st st' : locals) (x : string) : Prop :=
  distances st' !! x = distances st !! x ∧
  previous st' !! x = previous st !! x ∧
  costs st' !! x = costs st !! x ∧
  times st' !! x = times st !! x ∧
  stops st' !! x = stops st !! x.

(** What one turn of [while pq] does to the settled set and to the heap:
    it drops a stale entry, or it settles a station that was not settled
    and pushes at most one entry per edge leaving it. *)
Definition turn_bound (network : KochiMetroNetwork) (st st' : locals) : Prop :=
  (visited st' = visited st ∧ S (length (pq st')) = length (pq st)) ∨
  (∃ cur, cur ∈ stations network ∧ (cur ∉ visited st) ∧
          visited st' = {[cur]} ∪ visited st ∧
          (S (length (pq st'))
           ≤ length (pq st) + length (outgoing (graph network) cur))%nat).

(** The loop, entered with [g] and [st], gets to [g'] and [st']. *)
Inductive later (cw tw sw : num)
  : gmap string (list connection) → locals →
    gmap string (list connection) → locals → Prop :=
  | later_now g st : later cw tw sw g st g st
  | later_turn g st g1 st1 g' st' :
      while_body cw tw sw g st = Next g1 st1 →
      later cw tw sw g1 st1 g' st' → later cw tw sw g st g' st'.

End Vocabulary.

(** ** Vocabulary of the further properties *)

Section Edges.
Context `{PyFloat}.

(** The edges under a list of stations: [es] has an edge of [g] from each
    station of [l] to the next. *)
Definition edges_along (g : gmap string (list connection)) (l : list string)
    (es : list connection) : Prop :=
  length l = S (length es) ∧
  ∀ i e, es !! i = Some e →
    ∃ u, l !! i = Some u ∧ e ∈ outgoing g u ∧ l !! S i = Some (destination e).

End Edges.

(** Stations [u] and [v] are next to each other on [line]. *)
Definition neighbours (line : list string) (u v : string) : Prop :=
  ∃ i, (line !! i = Some u ∧ line !! S i = Some v) ∨
       (line !! i = Some v ∧ line !! S i = Some u).

(** [l] goes along [line] from place [i], one station a step, forwards or
    backwards. *)
Definition along (line : list string) (i : nat) (l : list string) : Prop :=
  (∀ t x, l !! t = Some x → line !! (i + t)%nat = Some x) ∨
  (∀ t x, l !! t = Some x → (t ≤ i)%nat ∧ line !! (i - t)%nat = Some x).

(** ** The weight checks of the callers

    [app.py], [metro_gui.py] and the console loop of [dijkstra.py] test
    the three weights, which are binary64 floats, before they call
    [find_optimal_routes]. *)

(** [x != x], which holds of nan only. *)
Definition isnan (x : float) : bool := negb (PrimFloat.eqb x x).

(** [abs(cost_weight + time_weight + stops_weight - 1.0)] *)
Definition weights_sum_error (cost_weight time_weight stops_weight : float) : float :=
  PrimFloat.abs (cost_weight + time_weight + stops_weight - 1)%float.

(** The test of [index] in [app.py] and of [validate_inputs] in
    [metro_gui.py], [... > 0.001]: the weights are turned down. *)
Definition weights_rejected (cost_weight time_weight stops_weight : float) : bool :=
  PrimFloat.ltb (Float64.ratio 1 1000) (weights_sum_error cost_weight time_weight stops_weight).

(** The test of [get_user_input] in [dijkstra.py] and of [update_weight_sum]
    in [metro_gui.py], [... < 0.001]: the weights are taken. *)
Definition weights_accepted (cost_weight time_weight stops_weight : float) : bool :=
  PrimFloat.ltb (weights_sum_error cost_weight time_weight stops_weight) (Float64.ratio 1 1000).

(** The weights [a/100], as [float("0.37")] reads them. *)
Definition hundredths : list (Z * float) :=
  (λ a, (a, Float64.ratio a 100)) <$> seqZ 0 101.

(** Both tests, with the threshold [k], against the sum of the hundredths
    [x.1], [y.1] and [z.1]. *)
Definition weights_agree (k : float) (x y z : Z * float) : bool :=
  let e := weights_sum_error x.2 y.2 z.2 in
  Bool.eqb (PrimFloat.ltb k e) (negb (x.1 + y.1 + z.1 =? 100)) &&
  Bool.eqb (PrimFloat.ltb e k) (x.1 + y.1 + z.1 =? 100).

(** ** Networks and runs the theorems are tried on *)

(** The network of the constructor, in binary64. *)
Definition reference : @KochiMetroNetwork float64 := KochiMetroNetwork_init.

(** The value of an outcome that is a value. *)
Definition returned {A} (d : A) (o : outcome A) : A :=
  match o with Ok a => a | _ => d end.

Definition is_Ok {A} (o : outcome A) : bool :=
  match o with Ok _ => true | _ => false end.

(** The mapping and the network that [find_optimal_routes] leaves when
    called on the reference network from Aluva with the default weights. *)
Definition reference_routes : gmap string (@route float64) :=
  returned ∅
    (find_optimal_routes reference "Aluva" (f_ratio 3 10) (f_ratio 4 10) (f_ratio 3 10)).1.

Definition reference_after : @KochiMetroNetwork float64 :=
  (find_optimal_routes reference "Aluva" (f_ratio 3 10) (f_ratio 4 10) (f_ratio 3 10)).2.

(** The entry of [s], or an empty one. *)
Definition reference_route (s : string) : @route float64 :=
  default (Route [] f_zero f_zero 0 f_zero) (reference_routes !! s).

(** The scores of [d] do not decrease along [l]. *)
Fixpoint nondecreasing `{PyFloat} (d : gmap string num) (l : list string) : bool :=
  match l with
  | u :: (v :: _) as rest =>
      match d !! u, d !! v with
      | Some a, Some b => f_leb a b
      | _, _ => false
      end && nondecreasing d rest
  | _ => true
  end.

(** A disconnected network: the reference network and a station that no
    edge reaches; and what [find_optimal_routes] leaves when called on it
    from Aluva. *)
Definition with_depot : @KochiMetroNetwork float64 :=
  register_station reference "Depot".

Definition depot_routes : gmap string (@route float64) :=
  returned ∅
    (find_optimal_routes with_depot "Aluva" (f_ratio 3 10) (f_ratio 4 10) (f_ratio 3 10)).1.

Definition depot_after : @KochiMetroNetwork float64 :=
  (find_optimal_routes with_depot "Aluva" (f_ratio 3 10) (f_ratio 4 10) (f_ratio 3 10)).2.

(** An edge to a name that is no station, added to the reference network. *)
Definition dangling : @KochiMetroNetwork float64 :=
  add_connection reference "Aluva" "Nowhere" (f_ratio 1 1) (f_ratio 1 1) (f_ratio 1 1).

(** A disconnected network with such an edge: the depot that no edge
    reaches, and the edge from Aluva to a name that is no station. *)
Definition dangling_depot : @KochiMetroNetwork float64 :=
  add_connection with_depot "Aluva" "Nowhere" (f_ratio 1 1) (f_ratio 1 1) (f_ratio 1 1).

(** A terminal station: registered, with an edge to it and none from it. *)
Definition one_way : @KochiMetroNetwork float64 :=
  add_connection (register_station reference "Terminal") "Thripunithura" "Terminal"
    (f_ratio 25 10) (f_ratio 12 10) (f_ratio 50 10).

(** The dicts [dijkstra_multi_criteria] returns on the reference run. *)
Definition reference_results : @results float64 :=
  returned (Results ∅ ∅ ∅ ∅ ∅)
    (dijkstra_multi_criteria (f_ratio 3 10) (f_ratio 4 10) (f_ratio 3 10)
       reference "Aluva").1.

(** ** The heap and the adjacency structure *)

Section Containers.
Context `{PyFloat}.

Lemma extract_min_perm x l m r :
  extract_min x l = (m, r) → m :: r ≡ₚ x :: l.
Proof.
  revert x m r. induction l as [|y l IH]; intros x m r; simpl.
  - intros [= <- <-]. done.
  - destruct (entry_lt y x).
    + destruct (extract_min y l) as [m' r'] eqn:E. intros [= <- <-].
      etrans; [apply Permutation_swap|]. by rewrite (IH _ _ _ E).
    + destruct (extract_min x l) as [m' r'] eqn:E. intros [= <- <-].
      etrans; [apply Permutation_swap|]. rewrite (IH _ _ _ E). apply Permutation_swap.
Qed.

Lemma heappop_perm heap e rest :
  heappop heap = Some (e, rest) → e :: rest ≡ₚ heap.
Proof.
  destruct heap as [|x l]; simpl; [done|].
  destruct (extract_min x l) as [m r] eqn:E. intros [= <- <-].
  by apply extract_min_perm.
Qed.

Lemma heappop_None heap : heappop heap = None → heap = [].
Proof. by destruct heap. Qed.

Lemma outgoing_getitem g k l g' :
  defaultdict_getitem g k = (l, g') →
  l = outgoing g k ∧ (∀ s, outgoing g' s = outgoing g s) ∧
  g ⊆ g' ∧ dom g' = {[k]} ∪ dom g.
Proof.
  unfold defaultdict_getitem, outgoing.
  destruct (g !! k) as [l0|] eqn:E; intros [= <- <-].
  - split_and!; [done..|].
    apply elem_of_dom_2 in E. set_solver.
  - split_and!.
    + done.
    + intros s. destruct (decide (k = s)) as [<-|Hne].
      * by rewrite lookup_insert_eq, E.
      * by rewrite lookup_insert_ne.
    + by apply insert_subseteq.
    + by rewrite dom_insert_L.
Qed.

End Containers.

(** ** The walk of get_path *)

Section Walk.
Variable previous : gmap string (option string).

Lemma walk_None fuel path : walk fuel previous None path = Ok path.
Proof. by destruct fuel. Qed.

(** A walk that ends takes as many turns as it looks stations up, and
    goes the same way with any fuel that covers them. *)
Lemma walk_fuel fuel : ∀ current path,
  walk fuel previous current path ≠ Diverge →
  (length (lookups fuel previous current) ≤ fuel)%nat ∧
  ∀ fuel', (length (lookups fuel previous current) ≤ fuel')%nat →
           walk fuel' previous current path = walk fuel previous current path ∧
           lookups fuel' previous current = lookups fuel previous current.
Proof.
  induction fuel as [|fuel IH]; intros [station|] path Hend; cbn in *; try done.
  - split; [lia|]. intros fuel' _. by rewrite walk_None; destruct fuel'.
  - unfold getitem in *. destruct (previous !! station) as [next|] eqn:E; cbn in *.
    + destruct (IH next (path ++ [station]) Hend) as [Hlen Hsame].
      split; [lia|]. intros [|fuel'] Hfuel; [lia|]. cbn. unfold getitem. rewrite E. cbn.
      destruct (Hsame fuel') as [-> ->]; [lia|done].
    + split; [lia|]. intros [|fuel'] Hfuel; [cbn in Hfuel; lia|]. cbn. unfold getitem.
      by rewrite E.
  - split; [lia|]. intros fuel' _. by rewrite walk_None; destruct fuel'.
Qed.

(** From a station it looked up, the walk goes on as a walk of its own. *)
Lemma walk_from fuel : ∀ current path station,
  walk fuel previous current path ≠ Diverge →
  station ∈ lookups fuel previous current →
  ∃ fuel' path',
    (fuel' ≤ fuel)%nat ∧
    walk fuel' previous (Some station) path' ≠ Diverge ∧
    (length (lookups fuel' previous (Some station))
     ≤ length (lookups fuel previous current))%nat.
Proof.
  induction fuel as [|fuel IH]; intros [first|] path station Hend; cbn in *;
    try (by intros ?%elem_of_nil).
  unfold getitem in *. intros [->|Hin]%elem_of_cons.
  - exists (S fuel), path. split; [done|]. split; [|done]. cbn. unfold getitem.
    by destruct (previous !! first).
  - destruct (previous !! first) as [next|] eqn:E; cbn in *; [|by apply elem_of_nil in Hin].
    destruct (IH next (path ++ [first]) station Hend Hin) as (fuel' & path' & ? & ? & ?).
    exists fuel', path'. split; [lia|]. split; [done|lia].
Qed.

(** A walk that ends looks no station up twice. *)
Lemma walk_NoDup fuel : ∀ current path,
  walk fuel previous current path ≠ Diverge →
  NoDup (lookups fuel previous current).
Proof.
  induction fuel as [|fuel IH]; intros [station|] path Hend; cbn in *;
    try apply NoDup_nil_2.
  unfold getitem in *.
  destruct (previous !! station) as [next|] eqn:E; cbn in *;
    [|apply NoDup_singleton].
  apply NoDup_cons. split; [|by eapply IH].
  intros Hin.
  destruct (walk_from fuel next (path ++ [station]) station Hend Hin)
    as (fuel' & path' & Hle & Hend' & Hlen).
  destruct (walk_fuel fuel' (Some station) path' Hend') as [Hfuel' Hsame].
  destruct (Hsame (S fuel)) as [_ Heq]; [lia|].
  rewrite <-Heq in Hlen. cbn in Hlen. rewrite E in Hlen. cbn in Hlen. lia.
Qed.

(** All the stations looked up are keys, but for the last one when the
    lookup fails. *)
Lemma lookups_keys fuel : ∀ current,
  ∃ l rest, lookups fuel previous current = l ++ rest ∧
            (length rest ≤ 1)%nat ∧ ∀ x, x ∈ l → x ∈ dom previous.
Proof.
  induction fuel as [|fuel IH]; intros [station|]; cbn;
    try (exists [], []; split_and!; [done|cbn; lia|by intros ? ?%elem_of_nil]).
  destruct (previous !! station) as [next|] eqn:E.
  - destruct (IH next) as (l & rest & -> & Hrest & Hl).
    exists (station :: l), rest. split_and!; [done..|].
    intros x [->|?]%elem_of_cons; [by eapply elem_of_dom_2|by apply Hl].
  - exists [], [station]. split_and!; [done|cbn; lia|by intros ? ?%elem_of_nil].
Qed.

(** One turn for every key, and one more, is fuel enough: a walk that
    ends with some fuel ends the same way with that much. *)
Lemma walk_within_keys fuel current path :
  walk fuel previous current path ≠ Diverge →
  walk (S (size previous)) previous current path = walk fuel previous current path.
Proof.
  intros Hend. destruct (walk_fuel fuel current path Hend) as [_ Hsame].
  apply Hsame.
  pose proof (walk_NoDup fuel current path Hend) as Hnodup.
  destruct (lookups_keys fuel current) as (l & rest & Heq & Hrest & Hl).
  rewrite Heq in *. apply NoDup_app in Hnodup as (Hnodup & _ & _).
  rewrite length_app.
  assert (length l ≤ size previous)%nat; [|lia].
  rewrite <-size_dom. change (size (dom previous)) with (length (elements (dom previous))).
  apply submseteq_length, NoDup_submseteq; [done|].
  intros x Hx. apply elem_of_elements. by apply Hl.
Qed.

End Walk.

(** The stations looked up follow the links, from the first one on. *)
Lemma lookups_links (previous : gmap string (option string)) fuel :
  ∀ current i u v,
    lookups fuel previous current !! i = Some u →
    lookups fuel previous current !! S i = Some v →
    previous !! u = Some (Some v).
Proof.
  induction fuel as [|fuel IH]; intros [station|] i u v; cbn; try done.
  destruct (previous !! station) as [next|] eqn:E; [|by destruct i].
  destruct i as [|i]; cbn.
  - intros [= <-] Hv. destruct fuel as [|fuel], next as [next|]; cbn in Hv; try done.
    by injection Hv as ->.
  - apply IH.
Qed.

(** A walk that runs out of fuel has looked up as many stations as it had
    fuel, all of them keys. *)
Lemma walk_Diverge (previous : gmap string (option string)) fuel :
  ∀ current path,
    walk fuel previous current path = Diverge →
    length (lookups fuel previous current) = fuel ∧
    (∀ x, x ∈ lookups fuel previous current → x ∈ dom previous) ∧
    (∀ x, lookups fuel previous current !! 0%nat = Some x → current = Some x).
Proof.
  induction fuel as [|fuel IH]; intros [station|] path; cbn; try done.
  { intros _. split; [done|]. split; [by intros x ?%elem_of_nil|done]. }
  unfold getitem. destruct (previous !! station) as [next|] eqn:E; cbn; [|done].
  intros Hrun. destruct (IH next _ Hrun) as (Hlen & Hkeys & _).
  split; [by rewrite Hlen|]. split; [|by intros x [= <-]].
  intros x [->|Hx]%elem_of_cons; [by eapply elem_of_dom_2|by apply Hkeys].
Qed.

(** A list of stations each related to the next: every stretch of it is a
    trail. *)
Lemma chain_trail (R : string → string → Prop) (l : list string) :
  (∀ i u v, l !! i = Some u → l !! S i = Some v → R u v) →
  ∀ n i u v, l !! i = Some u → l !! (i + n)%nat = Some v →
             trail R u v (take (S n) (drop i l)).
Proof.
  intros Hchain. induction n as [|n IH]; intros i u v Hu Hv.
  - rewrite Nat.add_0_r, Hu in Hv. injection Hv as <-.
    rewrite (take_S_r _ 0 u) by (by rewrite lookup_drop, Nat.add_0_r).
    rewrite take_0. apply trail_origin.
  - destruct (lookup_lt_is_Some_2 l (i + n)) as [w Hw].
    { apply lookup_lt_Some in Hv. lia. }
    rewrite (take_S_r _ (S n) v) by (by rewrite lookup_drop).
    apply trail_step with w; [by apply IH|].
    apply (Hchain (i + n)%nat); [done|]. by rewrite <-Nat.add_succ_r.
Qed.

(** More stations than the set they come from has: one comes twice. *)
Lemma twice (l : list string) (X : gset string) :
  (∀ x, x ∈ l → x ∈ X) → (size X < length l)%nat →
  ∃ i n x, (0 < n)%nat ∧ l !! i = Some x ∧ l !! (i + n)%nat = Some x.
Proof.
  intros Hsub Hlen.
  assert (¬ NoDup l) as Hdup.
  { intros Hnodup.
    assert (length l ≤ size X)%nat; [|lia].
    change (size X) with (length (elements X)).
    apply submseteq_length, NoDup_submseteq; [done|].
    intros x Hx. apply elem_of_elements. by apply Hsub. }
  clear Hsub Hlen. induction l as [|a l IH]; [exfalso; apply Hdup, NoDup_nil_2|].
  destruct (decide (a ∈ l)) as [Hin|Hout].
  - apply list_elem_of_lookup in Hin as [j Hj]. exists 0%nat, (S j), a.
    split; [lia|]. by split.
  - destruct IH as (i & n & x & Hn & Hi & Hi').
    { intros Hnodup. apply Hdup. by apply NoDup_cons. }
    exists (S i), n, x. split; [lia|]. by split.
Qed.

(** X1.  The loop of [get_path], run from any station with any dict: when
    it ends with some fuel, by returning or by a [KeyError], it has looked
    no station up twice, and it ends the same way with one turn for every
    key of [previous] and one more; when that much fuel does not end it,
    the links lead from where it began to a station from which they lead
    back to that station, and no fuel ends it. *)
Theorem walk_enough (previous : gmap string (option string)) fuel current path :
  (walk fuel previous current path ≠ Diverge →
   NoDup (lookups fuel previous current) ∧
   walk (S (size previous)) previous current path = walk fuel previous current path) ∧
  (walk (S (size previous)) previous current path = Diverge →
   walk fuel previous current path = Diverge ∧
   ∃ first station to round,
     current = Some first ∧
     trail (λ u v, previous !! u = Some (Some v)) first station to ∧
     trail (λ u v, previous !! u = Some (Some v)) station station round ∧
     (1 < length round)%nat).
Proof.
  split.
  - intros Hend. split; [by eapply walk_NoDup|by apply walk_within_keys].
  - intros Hrun. split.
    { destruct (walk fuel previous current path) as [l|e|] eqn:E; [| |done].
      - rewrite <-(walk_within_keys previous fuel current path) in E by (by rewrite E).
        by rewrite Hrun in E.
      - rewrite <-(walk_within_keys previous fuel current path) in E by (by rewrite E).
        by rewrite Hrun in E. }
    destruct (walk_Diverge previous _ _ _ Hrun) as (Hlen & Hkeys & Hhead).
    destruct (twice (lookups (S (size previous)) previous current) (dom previous) Hkeys)
      as (i & n & x & Hn & Hi & Hi').
    { rewrite Hlen, size_dom. lia. }
    destruct (lookup_lt_is_Some_2 (lookups (S (size previous)) previous current) 0)
      as [first Hfirst]; [rewrite Hlen; lia|].
    pose proof (lookups_links previous (S (size previous)) current) as Hlinks.
    exists first, x, (take (S i) (drop 0 (lookups (S (size previous)) previous current))),
      (take (S n) (drop i (lookups (S (size previous)) previous current))).
    split; [by apply Hhead|]. split; [|split].
    + by apply (chain_trail _ _ Hlinks i 0%nat).
    + by apply (chain_trail _ _ Hlinks n i).
    + rewrite length_take, length_drop, Hlen.
      apply lookup_lt_Some in Hi'. rewrite Hlen in Hi'. lia.
Qed.

(** Two links, walked with more fuel than needed and with the fuel of
    [get_path]. *)
Lemma walk_enough_two_links :
  let previous : gmap string (option string) :=
    <["Pulinchodu" := Some "Aluva"]> (<["Aluva" := None]> ∅) in
  walk 9 previous (Some "Pulinchodu") [] = Ok ["Pulinchodu"; "Aluva"] ∧
  NoDup (lookups 9 previous (Some "Pulinchodu")) ∧
  walk (S (size previous)) previous (Some "Pulinchodu") []
  = walk 9 previous (Some "Pulinchodu") [].
Proof.
  intros previous. split; [vm_compute; reflexivity|].
  apply (proj1 (walk_enough previous 9 (Some "Pulinchodu") [])).
  vm_compute. discriminate.
Defined.

(** ** The loop invariant *)

(** Reduce the projections of a record of locals, and the binds of [outcome]. *)
Ltac fields := cbn [distances previous costs times stops pq visited].
Ltac run := cbn [mbind outcome_bind mret outcome_ret negb].

Section Trails.
Context (R : string → string → Prop).

Lemma trail_head o v l : trail R o v l → head l = Some o.
Proof.
  induction 1 as [|u v l T IH L]; [done|].
  destruct l; [done|]. exact IH.
Qed.

Lemma trail_last o v l : trail R o v l → last l = Some v.
Proof. destruct 1; [done|]. apply last_snoc. Qed.

Lemma trail_nonempty o v l : trail R o v l → l ≠ [].
Proof. intros T%trail_head ->. done. Qed.

Lemma trail_consecutive o v l :
  trail R o v l →
  ∀ i u w, l !! i = Some u → l !! S i = Some w → R u w.
Proof.
  induction 1 as [|u v l T IH L]; intros i a b Ha Hb.
  - by destruct i.
  - destruct (decide (S i < length l)%nat) as [Hlt|Hge].
    + rewrite lookup_app_l in Ha by lia. rewrite lookup_app_l in Hb by lia. eauto.
    + pose proof (lookup_lt_Some _ _ _ Hb) as Hlen. rewrite length_app in Hlen. cbn in Hlen.
      assert (S i = length l) as Hi by lia.
      rewrite lookup_app_l in Ha by lia.
      rewrite Hi, lookup_app_r, Nat.sub_diag in Hb by lia. injection Hb as <-.
      apply trail_last in T. rewrite last_lookup, <-Hi in T. cbn in T.
      rewrite T in Ha. by injection Ha as <-.
Qed.

End Trails.

Section Invariants.
Context {F : PyFloat}.
Variables cost_weight time_weight stops_weight : num.
Variable network : KochiMetroNetwork.
Variable start_station : string.

Abbreviation Inv := (invariant cost_weight time_weight stops_weight network start_station).
Abbreviation Composite := (composite cost_weight time_weight stops_weight).
Abbreviation Relax := (relax cost_weight time_weight stops_weight).
Abbreviation RelaxAll := (relax_all cost_weight time_weight stops_weight).
Abbreviation Body := (while_body cost_weight time_weight stops_weight).
Abbreviation Loop := (while_pq cost_weight time_weight stops_weight).
Abbreviation Later := (later cost_weight time_weight stops_weight).
Abbreviation Dijkstra := (dijkstra_multi_criteria cost_weight time_weight stops_weight).

Lemma invariant_initial :
  start_station ∈ stations network → Inv (initial network start_station).
Proof.
  intros Hin. unfold initial. constructor; fields.
  - rewrite dom_insert_L, dom_gset_to_gmap. set_solver.
  - by rewrite dom_gset_to_gmap.
  - rewrite dom_insert_L, dom_gset_to_gmap. set_solver.
  - rewrite dom_insert_L, dom_gset_to_gmap. set_solver.
  - rewrite dom_insert_L, dom_gset_to_gmap. set_solver.
  - set_solver.
  - intros e ->%list_elem_of_singleton. split; [done|by left].
  - right. split; [done|]. by intros e ->%list_elem_of_singleton.
  - set_solver.
  - rewrite !lookup_insert_eq. split_and!; try done.
    by apply lookup_gset_to_gmap_Some.
  - intros v Hv [Hs _]%lookup_gset_to_gmap_Some.
    rewrite !lookup_insert_ne by done.
    split; by apply lookup_gset_to_gmap_Some.
  - unfold parent. intros v u [_ ?]%lookup_gset_to_gmap_Some. done.
  - intros v n. destruct (decide (start_station = v)) as [<-|Hne].
    + rewrite lookup_insert_eq. intros [= <-]. rewrite size_empty. set_solver by lia.
    + rewrite lookup_insert_ne by done. by intros [_ ?]%lookup_gset_to_gmap_Some.
Qed.

(** The two ways a relaxation ends well. *)
Lemma relax_Ok cur st conn st' :
  Relax cur st conn = Ok st' →
  st' = st ∨
  (destination conn ∉ visited st) ∧
  ∃ c t s d,
    costs st !! cur = Some c ∧ times st !! cur = Some t ∧ stops st !! cur = Some s ∧
    distances st !! destination conn = Some d ∧
    f_ltb (Composite (f_add c (cost conn)) (f_add t (travel_time conn)) (stop_succ s)) d = true ∧
    st' = {| distances := <[destination conn :=
                 Composite (f_add c (cost conn)) (f_add t (travel_time conn)) (stop_succ s)]>
                 (distances st);
             costs := <[destination conn := f_add c (cost conn)]> (costs st);
             times := <[destination conn := f_add t (travel_time conn)]> (times st);
             stops := <[destination conn := stop_succ s]> (stops st);
             previous := <[destination conn := Some cur]> (previous st);
             pq := heappush (pq st)
                     (Composite (f_add c (cost conn)) (f_add t (travel_time conn)) (stop_succ s),
                      destination conn);
             visited := visited st |}.
Proof.
  unfold relax, getitem. case_bool_decide as Hv; [intros [= <-]; by left|].
  destruct (costs st !! cur) as [c|]; simpl; [|done].
  destruct (times st !! cur) as [t|]; simpl; [|done].
  destruct (stops st !! cur) as [s|]; simpl; [|done].
  destruct (distances st !! destination conn) as [d|]; simpl; [|done].
  destruct (f_ltb _ d) eqn:Hlt; intros [= <-]; [|by left].
  right. split; [done|]. by exists c, t, s, d.
Qed.

Lemma reached_insert st st' v u :
  previous st' = <[v := Some u]> (previous st) →
  ∀ x, reached start_station st x → reached start_station st' x.
Proof.
  unfold reached, parent. intros Hp x [->|[w Hw]]; [by left|]. right. rewrite Hp.
  destruct (decide (v = x)) as [<-|Hne].
  - exists u. apply lookup_insert_eq.
  - exists w. by rewrite lookup_insert_ne.
Qed.

(** A settled station carries an [int] stop count. *)
Lemma settled_count st cur :
  Inv st → cur ∈ visited st →
  ∃ m, stops st !! cur = Some (Count m) ∧ 0 ≤ m < Z.of_nat (size (visited st)).
Proof.
  intros I Hcur.
  assert (∃ m, stops st !! cur = Some (Count m)) as [m Hm].
  { destruct (inv_settled _ _ _ _ _ _ I cur Hcur) as [->|[u Hu]].
    - exists 0. apply I.
    - destruct (inv_tree _ _ _ _ _ _ I _ _ Hu) as (_ & _ & R).
      destruct R as (conn & cu & tu & n & _ & _ & _ & _ & _ & _ & _ & Hs & _).
      by exists (n + 1). }
  exists m. split; [done|].
  destruct (inv_count _ _ _ _ _ _ I _ _ Hm) as [? Hlt]. specialize (Hlt Hcur). lia.
Qed.

Lemma invariant_relax cur st conn st' :
  Inv st → cur ∈ visited st → start_station ∈ visited st →
  conn ∈ outgoing (graph network) cur →
  Relax cur st conn = Ok st' → Inv st'.
Proof.
  intros I Hcur Hstart Hconn [->|(Hv & c & t & s & d & Hc & Ht & Hs & Hd & Hlt & ->)]%relax_Ok;
    [done|].
  set (v := destination conn) in *.
  destruct (settled_count _ _ I Hcur) as (m & Hm & Hmb).
  rewrite Hs in Hm. injection Hm as ->. cbn [stop_succ] in *.
  assert (v ≠ cur) as Hvc by (intros ->; done).
  assert (v ≠ start_station) as Hvs by (intros ->; done).
  assert (v ∈ stations network) as Hvin.
  { rewrite <-(inv_distances _ _ _ _ _ _ I). by apply elem_of_dom_2 in Hd. }
  assert (∀ x, reached start_station st x → reached start_station
    {| distances := <[v := Composite (f_add c (cost conn)) (f_add t (travel_time conn)) (Count (m + 1))]> (distances st);
       costs := <[v := f_add c (cost conn)]> (costs st);
       times := <[v := f_add t (travel_time conn)]> (times st);
       stops := <[v := Count (m + 1)]> (stops st);
       previous := <[v := Some cur]> (previous st);
       pq := heappush (pq st) (Composite (f_add c (cost conn)) (f_add t (travel_time conn)) (Count (m + 1)), v);
       visited := visited st |} x) as Hreach.
  { by apply (reached_insert _ _ v cur). }
  destruct I as [Id Ip Ic It Is Iv Ipq If Iset Io Iun Itr Icnt].
  constructor; fields.
  - rewrite dom_insert_L. set_solver.
  - rewrite dom_insert_L. set_solver.
  - rewrite dom_insert_L. set_solver.
  - rewrite dom_insert_L. set_solver.
  - rewrite dom_insert_L. set_solver.
  - done.
  - unfold heappush. intros e [->|He]%elem_of_cons.
    + split; [done|]. right. exists cur. unfold parent; fields. cbn. apply lookup_insert_eq.
    + destruct (Ipq e He). split; [done|]. by apply Hreach.
  - by left.
  - intros x Hx. apply Hreach. by apply Iset.
  - rewrite !lookup_insert_ne by done. done.
  - intros x Hx. destruct (decide (v = x)) as [<-|Hne].
    + by rewrite lookup_insert_eq.
    + rewrite !lookup_insert_ne by done. by apply Iun.
  - unfold parent in *. intros x u. destruct (decide (v = x)) as [<-|Hne].
    + rewrite lookup_insert_eq. intros [= <-]. split_and!; [done..|].
      exists conn, c, t, m. fields.
      rewrite !lookup_insert_eq, !lookup_insert_ne by done.
      split_and!; try done. by exists d.
    + rewrite lookup_insert_ne by done. intros Hx.
      destruct (Itr _ _ Hx) as (? & Hu & R). split_and!; [done..|].
      assert (v ≠ u) by (intros ->; done).
      destruct R as (conn' & cu & tu & n & ? & ? & ? & ? & ? & ? & ? & ? & ? & ?).
      exists conn', cu, tu, n. fields.
      rewrite !lookup_insert_ne by done. split_and!; done.
  - intros x n. destruct (decide (v = x)) as [<-|Hne].
    + rewrite lookup_insert_eq. intros [= <-]. split; [lia|done].
    + rewrite lookup_insert_ne by done. apply Icnt.
Qed.

(** A relaxation reads [costs], [times] and [stops] at the settled station
    and [distances] at the neighbour: only a neighbour that is no station
    makes it raise. *)
Lemma relax_outcome cur st conn :
  Inv st → cur ∈ visited st →
  (∃ st', Relax cur st conn = Ok st') ∨
  ((destination conn ∉ stations network) ∧
   Relax cur st conn = Raise (KeyError (destination conn))).
Proof.
  intros I Hcur. unfold relax, getitem.
  case_bool_decide as Hv; [left; eauto|].
  assert (cur ∈ stations network) as Hin by (by apply (inv_visited _ _ _ _ _ _ I)).
  assert (is_Some (costs st !! cur)) as [c ->].
  { apply elem_of_dom. by rewrite (inv_costs _ _ _ _ _ _ I). }
  assert (is_Some (times st !! cur)) as [t ->].
  { apply elem_of_dom. by rewrite (inv_times _ _ _ _ _ _ I). }
  assert (is_Some (stops st !! cur)) as [s ->].
  { apply elem_of_dom. by rewrite (inv_stops _ _ _ _ _ _ I). }
  cbn. destruct (distances st !! destination conn) as [d|] eqn:Hd; cbn.
  - left. destruct (f_ltb _ d); eauto.
  - right. split; [|done]. apply not_elem_of_dom in Hd.
    by rewrite (inv_distances _ _ _ _ _ _ I) in Hd.
Qed.

(** A relaxation leaves the settled stations as they are; it pushes at
    most one entry. *)
Lemma relax_settled cur st conn st' :
  Relax cur st conn = Ok st' →
  visited st' = visited st ∧
  (length (pq st') ≤ S (length (pq st)))%nat ∧
  ∀ x, x ∈ visited st → same_record st st' x.
Proof.
  intros [->|(Hv & c & t & s & d & _ & _ & _ & _ & _ & ->)]%relax_Ok.
  - split_and!; [done|lia|]. by intros.
  - fields. split_and!; [done|cbn; lia|].
    intros x Hx. assert (destination conn ≠ x) by (intros Heq; apply Hv; by rewrite Heq).
    unfold same_record; fields. by rewrite !lookup_insert_ne.
Qed.

Lemma relax_all_settled cur conns : ∀ st st',
  RelaxAll cur st conns = Ok st' →
  visited st' = visited st ∧
  (length (pq st') ≤ length (pq st) + length conns)%nat ∧
  ∀ x, x ∈ visited st → same_record st st' x.
Proof.
  unfold relax_all.
  induction conns as [|conn conns IH]; intros st st'; cbn.
  - intros [= <-]. split_and!; [done|lia|]. by intros.
  - destruct (Relax cur st conn) as [st1| |] eqn:E; cbn; [|done..]. intros Hrest.
    destruct (relax_settled _ _ _ _ E) as (Hv1 & Hl1 & Hf1).
    destruct (IH _ _ Hrest) as (Hv' & Hl' & Hf').
    split_and!; [congruence|lia|].
    intros x Hx. specialize (Hf1 x Hx). rewrite <-Hv1 in Hx. specialize (Hf' x Hx).
    unfold same_record in *. naive_solver congruence.
Qed.

Lemma invariant_relax_all cur conns : ∀ st st',
  Inv st → cur ∈ visited st → start_station ∈ visited st →
  (∀ c, c ∈ conns → c ∈ outgoing (graph network) cur) →
  RelaxAll cur st conns = Ok st' → Inv st'.
Proof.
  unfold relax_all.
  induction conns as [|conn conns IH]; intros st st' I Hcur Hstart Hsub; cbn.
  - by intros [= <-].
  - destruct (Relax cur st conn) as [st1| |] eqn:E; cbn; [|done..].
    pose proof (invariant_relax _ _ _ _ I Hcur Hstart (Hsub _ (list_elem_of_here _ _)) E) as I1.
    destruct (relax_settled _ _ _ _ E) as (Hv1 & _ & _).
    apply IH; rewrite ?Hv1; try done.
    intros c Hc. apply Hsub. by right.
Qed.

Lemma relax_all_outcome cur conns : ∀ st,
  Inv st → cur ∈ visited st → start_station ∈ visited st →
  (∀ c, c ∈ conns → c ∈ outgoing (graph network) cur) →
  (∃ st', RelaxAll cur st conns = Ok st') ∨
  (∃ c, c ∈ conns ∧ (destination c ∉ stations network) ∧
        RelaxAll cur st conns = Raise (KeyError (destination c))).
Proof.
  unfold relax_all.
  induction conns as [|conn conns IH]; intros st I Hcur Hstart Hsub; cbn; [left; eauto|].
  destruct (relax_outcome cur st conn I Hcur) as [[st1 E]|[Hout E]]; rewrite E; cbn.
  - pose proof (invariant_relax _ _ _ _ I Hcur Hstart (Hsub _ (list_elem_of_here _ _)) E) as I1.
    destruct (relax_settled _ _ _ _ E) as (Hv1 & _ & _).
    destruct (IH st1) as [?|(c & Hc & ? & ?)]; try done.
    + by rewrite Hv1.
    + by rewrite Hv1.
    + intros c Hc. apply Hsub. by right.
    + by left.
    + right. exists c. split_and!; [by right|done..].
  - right. exists conn. split_and!; [by left|done..].
Qed.

Lemma invariant_pop st d cur heap :
  Inv st → heappop (pq st) = Some ((d, cur), heap) →
  Inv {| distances := distances st; previous := previous st;
               costs := costs st; times := times st; stops := stops st;
               pq := heap; visited := visited st |}.
Proof.
  intros I Hpop%heappop_perm.
  assert (∀ e, e ∈ heap → e ∈ pq st) as Hsub.
  { intros e He. rewrite <-Hpop. by right. }
  destruct I as [Id Ip Ic It Is Iv Ipq If Iset Io Iun Itr Icnt].
  constructor; fields; try done.
  - intros e He. by apply Ipq, Hsub.
  - destruct If as [?|[? Hall]]; [by left|right]. split; [done|].
    intros e He. by apply Hall, Hsub.
Qed.

Lemma invariant_settle st d cur heap :
  Inv st → heappop (pq st) = Some ((d, cur), heap) → cur ∉ visited st →
  cur ∈ stations network ∧
  start_station ∈ ({[cur]} ∪ visited st : gset string) ∧
  Inv {| distances := distances st; previous := previous st;
               costs := costs st; times := times st; stops := stops st;
               pq := heap; visited := {[cur]} ∪ visited st |}.
Proof.
  intros I Hpop Hcur. pose proof (invariant_pop _ _ _ _ I Hpop) as I'.
  apply heappop_perm in Hpop.
  assert ((d, cur) ∈ pq st) as Hin by (rewrite <-Hpop; by left).
  destruct (inv_pq _ _ _ _ _ _ I _ Hin) as [Hst Hre]. cbn in Hst, Hre.
  assert (start_station ∈ ({[cur]} ∪ visited st : gset string)) as Hstart.
  { destruct (inv_first _ _ _ _ _ _ I) as [?|[_ Hall]]; [set_solver|].
    specialize (Hall _ Hin). cbn in Hall. set_solver. }
  split_and!; [done..|].
  destruct I' as [Id Ip Ic It Is Iv Ipq If Iset Io Iun Itr Icnt].
  constructor; fields; try done.
  - set_solver.
  - by left.
  - intros v [->%elem_of_singleton|Hv]%elem_of_union; [done|by apply Iset].
  - intros v u Hp. destruct (Itr _ _ Hp) as (? & ? & ?). split_and!; [done|set_solver|done].
  - intros v n Hs. destruct (Icnt _ _ Hs) as [Hle Hlt]. cbn [visited] in Hle, Hlt.
    rewrite size_union, size_singleton by set_solver.
    split; [lia|]. intros [->%elem_of_singleton|Hv]%elem_of_union; [lia|].
    specialize (Hlt Hv). lia.
Qed.

Lemma pending_settle st cur (heap pq' : list (num * string)) :
  cur ∈ stations network → cur ∉ visited st →
  S (length heap) = length (pq st) →
  (length pq' ≤ length heap + length (outgoing (graph network) cur))%nat →
  (pending network {| distances := distances st; previous := previous st;
                      costs := costs st; times := times st; stops := stops st;
                      pq := pq'; visited := {[cur]} ∪ visited st |}
   < pending network st)%nat.
Proof.
  intros Hin Hcur Hlen Hpush. unfold pending; fields.
  assert (stations network ∖ visited st
          = {[cur]} ∪ stations network ∖ ({[cur]} ∪ visited st)) as ->.
  { apply set_eq. intros x. destruct (decide (x = cur)); set_solver. }
  rewrite elements_union_singleton by set_solver.
  rewrite fmap_cons. cbn [sum_list]. unfold id. lia.
Qed.

Lemma adjacency_getitem g cur conns g' :
  adjacency_kept network g → cur ∈ stations network →
  defaultdict_getitem g cur = (conns, g') →
  conns = outgoing (graph network) cur ∧ adjacency_kept network g'.
Proof.
  intros (Hout & Hsub & Hdom) Hcur (-> & Hout' & Hsub' & Hdom')%outgoing_getitem.
  split; [done|]. split_and!.
  - intros s. by rewrite Hout'.
  - by etrans.
  - rewrite Hdom'. set_solver.
Qed.

(** A turn leaves the settled stations settled, with the entries they had. *)
Lemma turn_settled g st g' st' :
  Body g st = Next g' st' →
  visited st ⊆ visited st' ∧ ∀ x, x ∈ visited st → same_record st st' x.
Proof.
  unfold while_body.
  destruct (heappop (pq st)) as [[[d cur] heap]|] eqn:Hpop; [|done]. cbn.
  case_bool_decide as Hcur.
  - intros [= <- <-]. split; [done|]. by intros.
  - destruct (defaultdict_getitem g cur) as [conns g1] eqn:Hg.
    destruct (relax_all _ _ _ _ _ _) as [st1| |] eqn:Hr; [|done..].
    intros [= <- <-].
    destruct (relax_all_settled _ _ _ _ Hr) as (Hv & _ & Hf). cbn [visited pq] in Hv, Hf.
    split; [set_solver|]. intros x Hx. apply (Hf x). set_solver.
Qed.

Lemma turn_Next g st g' st' :
  Inv st → adjacency_kept network g →
  Body g st = Next g' st' →
  Inv st' ∧ adjacency_kept network g' ∧
  (pending network st' < pending network st)%nat ∧
  turn_bound network st st'.
Proof.
  intros I A. unfold while_body.
  destruct (heappop (pq st)) as [[[d cur] heap]|] eqn:Hpop; [|done]. cbn.
  pose proof (Permutation_length (heappop_perm _ _ _ Hpop)) as Hlen. cbn in Hlen.
  case_bool_decide as Hcur.
  - intros [= <- <-]. split_and!; [by eapply invariant_pop|done| |].
    + unfold pending; fields. lia.
    + left. by fields.
  - destruct (invariant_settle _ _ _ _ I Hpop Hcur) as (Hin & Hstart & I1).
    destruct (defaultdict_getitem g cur) as [conns g1] eqn:Hg.
    destruct (adjacency_getitem _ _ _ _ A Hin Hg) as [-> A1].
    destruct (relax_all _ _ _ _ _ _) as [st1| |] eqn:Hr; [|done..].
    intros [= <- <-].
    destruct (relax_all_settled _ _ _ _ Hr) as (Hv & Hl & _). cbn [visited pq] in Hv, Hl.
    assert (Inv st1) as I'.
    { eapply invariant_relax_all; [exact I1| | |by intros|exact Hr]; fields; set_solver. }
    split_and!; [done..| |].
    + eapply Nat.le_lt_trans; [|by apply (pending_settle st cur heap (pq st1))].
      unfold pending; fields. by rewrite Hv.
    + right. exists cur. split_and!; [done..|lia].
Qed.

Lemma turn_Halt g st g' o :
  Inv st → adjacency_kept network g →
  Body g st = Halt g' o →
  adjacency_kept network g' ∧
  ((o = Ok st ∧ pq st = [] ∧ g' = g) ∨
   (∃ u c, c ∈ outgoing (graph network) u ∧ (destination c ∉ stations network) ∧
           o = Raise (KeyError (destination c)))).
Proof.
  intros I A. unfold while_body.
  destruct (heappop (pq st)) as [[[d cur] heap]|] eqn:Hpop; cbn.
  - case_bool_decide as Hcur; [done|].
    destruct (invariant_settle _ _ _ _ I Hpop Hcur) as (Hin & Hstart & I1).
    destruct (defaultdict_getitem g cur) as [conns g1] eqn:Hg.
    destruct (adjacency_getitem _ _ _ _ A Hin Hg) as [-> A1].
    destruct (relax_all_outcome cur (outgoing (graph network) cur) _ I1)
      as [[st1 E]|(c & Hc & Hout & E)]; fields; try set_solver.
    + by rewrite E.
    + rewrite E. intros [= <- <-]. split; [done|]. right. by exists cur, c.
  - intros [= <- <-]. split; [done|]. left. split_and!; [done| |done].
    by apply heappop_None.
Qed.

(** The loop halts within [pending] turns, with the Inv, or on a
    neighbour that is no station. *)
Lemma while_pq_halts fuel : ∀ g st,
  Inv st → adjacency_kept network g → (pending network st < fuel)%nat →
  ∃ o g', Loop fuel g st = (o, g') ∧ adjacency_kept network g' ∧
    ((∃ st', o = Ok st' ∧ Inv st' ∧ pq st' = [] ∧ Later g st g' st') ∨
     (∃ u c, c ∈ outgoing (graph network) u ∧ (destination c ∉ stations network) ∧
             o = Raise (KeyError (destination c)))).
Proof.
  induction fuel as [|fuel IH]; intros g st I A Hfuel; [lia|]. cbn.
  destruct (Body g st) as [g1 st1|g1 o] eqn:E.
  - destruct (turn_Next _ _ _ _ I A E) as (I1 & A1 & Hdrop & _).
    destruct (IH g1 st1 I1 A1) as (o & g' & Hrun & A' & Hend); [lia|].
    exists o, g'. split_and!; [done..|].
    destruct Hend as [(st' & -> & I' & Hpq & L)|?]; [left|by right].
    exists st'. split_and!; [done..|]. by eapply later_turn.
  - destruct (turn_Halt _ _ _ _ I A E) as (A1 & [(-> & Hpq & ->)|?]).
    + exists (Ok st), g. split_and!; [done..|]. left. exists st.
      split_and!; [done..|]. apply later_now.
    + exists o, g1. split_and!; [done..|]. by right.
Qed.

(** More turns than needed change nothing. *)
Lemma while_pq_more fuel : ∀ fuel' g st,
  (fuel ≤ fuel')%nat → (Loop fuel g st).1 ≠ Diverge →
  Loop fuel' g st = Loop fuel g st.
Proof.
  induction fuel as [|fuel IH]; intros fuel' g st Hle; cbn; [done|].
  destruct fuel' as [|fuel']; [lia|]. cbn.
  destruct (Body g st) as [g1 st1|g1 o]; [|done].
  apply IH. lia.
Qed.

Lemma pending_initial :
  S (pending network (initial network start_station)) = while_fuel network.
Proof.
  unfold pending, while_fuel, initial; fields. by rewrite difference_empty_L.
Qed.

Lemma adjacency_kept_refl : adjacency_kept network (graph network).
Proof. split_and!; [done..|set_solver]. Qed.

(** [Dijkstra] from a registered origin: the dicts of a
    final state of the loop, or a [KeyError] for a neighbour that is no
    station. *)
Lemma dijkstra_halts :
  start_station ∈ stations network →
  ∃ o g', Dijkstra network start_station
          = (o, {| graph := g'; stations := stations network;
                   station_info := station_info network |}) ∧
    adjacency_kept network g' ∧
    ((∃ st, o = Ok (results_of st) ∧
            Inv st ∧ pq st = [] ∧
            Later (graph network) (initial network start_station) g' st) ∨
     (∃ u c, c ∈ outgoing (graph network) u ∧ (destination c ∉ stations network) ∧
             o = Raise (KeyError (destination c)))).
Proof.
  intros Hin. unfold dijkstra_multi_criteria.
  rewrite bool_decide_eq_false_2 by (by intros ?).
  destruct (while_pq_halts (while_fuel network) (graph network)
              (initial network start_station)) as (o & g' & -> & A & Hend).
  - by apply invariant_initial.
  - apply adjacency_kept_refl.
  - rewrite <-pending_initial. lia.
  - eexists _, g'. split_and!; [done..|].
    destruct Hend as [(st & -> & I & Hpq & L)|(u & c & ? & ? & ->)].
    + left. by exists st.
    + right. by exists u, c.
Qed.

(** Walking back from a reached station spells a trail, backwards. *)
Lemma walk_trail st (n : nat) : ∀ v acc fuel,
  Inv st → reached start_station st v →
  stops st !! v = Some (Count (Z.of_nat n)) → (n < fuel)%nat →
  ∃ l, trail (parent (previous st)) start_station v l ∧ length l = S n ∧
       walk fuel (previous st) (Some v) acc = Ok (acc ++ reverse l).
Proof.
  induction n as [|n IH]; intros v acc fuel I Hre Hs Hfuel;
    (destruct fuel as [|fuel]; [lia|]); cbn; unfold getitem.
  - assert (v = start_station) as ->.
    { destruct Hre as [?|[u Hu]]; [done|].
      destruct (inv_tree _ _ _ _ _ _ I _ _ Hu) as (_ & _ & R).
      destruct R as (conn & cu & tu & m & _ & _ & _ & _ & Hm & _ & _ & Hv & _).
      destruct (inv_count _ _ _ _ _ _ I _ _ Hm). rewrite Hs in Hv. injection Hv. lia. }
    destruct (inv_origin _ _ _ _ _ _ I) as (-> & _). cbn.
    exists [start_station]. split_and!; [apply trail_origin|done|by destruct fuel].
  - destruct Hre as [->|[u Hu]].
    { destruct (inv_origin _ _ _ _ _ _ I) as (_ & _ & _ & _ & H0).
      rewrite Hs in H0. injection H0. lia. }
    rewrite Hu. cbn.
    destruct (inv_tree _ _ _ _ _ _ I _ _ Hu) as (_ & Hvis & R).
    destruct R as (conn & cu & tu & m & Hconn & Hdest & _ & _ & Hm & _ & _ & Hv & _).
    rewrite Hs in Hv. injection Hv as Hv.
    destruct (IH u (acc ++ [v]) fuel I) as (l & T & Hlen & ->).
    + by apply (inv_settled _ _ _ _ _ _ I).
    + rewrite Hm. do 2 f_equal. lia.
    + lia.
    + exists (l ++ [v]). split_and!.
      * by eapply trail_step.
      * rewrite length_app. cbn. lia.
      * by rewrite reverse_snoc, <-app_assoc.
Qed.

Lemma get_path_trail st v n :
  Inv st → reached start_station st v → stops st !! v = Some (Count n) →
  ∃ l, get_path start_station v (previous st) = Ok l ∧
       trail (parent (previous st)) start_station v l ∧ Z.of_nat (length l) = n + 1.
Proof.
  intros I Hre Hs. destruct (inv_count _ _ _ _ _ _ I _ _ Hs) as [[H0 Hle] _].
  pose proof (subseteq_size _ _ (inv_visited _ _ _ _ _ _ I)) as Hsize.
  rewrite <-(inv_previous _ _ _ _ _ _ I), size_dom in Hsize.
  destruct (walk_trail st (Z.to_nat n) v [] (S (size (previous st))) I Hre)
    as (l & T & Hlen & Hwalk); [by rewrite Z2Nat.id|lia|].
  exists l. unfold get_path. rewrite Hwalk. unfold mbind, outcome_bind.
  cbn [app]. cbv zeta. rewrite reverse_involutive.
  pose proof (trail_head _ _ _ _ T) as Hhd.
  destruct l as [|x l]; [done|]. injection Hhd as ->.
  rewrite bool_decide_eq_false_2 by (by intros ?).
  split_and!; [done..|]. rewrite Hlen. lia.
Qed.

(** A station whose score is not the sentinel has been relaxed. *)
Lemma listed_reached st s d :
  Inv st → s ≠ start_station →
  distances st !! s = Some d → f_eqb d f_inf = false →
  reached start_station st s ∧ ∃ n, stops st !! s = Some (Count n).
Proof.
  intros I Hne Hd Hinf.
  assert (is_Some (previous st !! s)) as [[u|] Hp].
  { apply elem_of_dom. rewrite (inv_previous _ _ _ _ _ _ I), <-(inv_distances _ _ _ _ _ _ I).
    by apply elem_of_dom_2 in Hd. }
  - split; [right; by exists u|]. change (parent (previous st) u s) in Hp.
    destruct (inv_tree _ _ _ _ _ _ I _ _ Hp) as (_ & _ & R).
    destruct R as (conn & cu & tu & m & _ & _ & _ & _ & _ & _ & _ & Hv & _). eauto.
  - destruct (inv_unreached _ _ _ _ _ _ I _ Hne Hp) as [Hd' _].
    rewrite Hd in Hd'. injection Hd' as ->. by rewrite f_inf_eqb in Hinf.
Qed.

(** A relaxed station is listed: the score written was below another. *)
Lemma relaxed_listed st u s :
  Inv st → parent (previous st) u s → listed start_station (results_of st) s.
Proof.
  intros I Hp. destruct (inv_tree _ _ _ _ _ _ I _ _ Hp) as (Hne & _ & R).
  destruct R as (conn & cu & tu & n & _ & _ & _ & _ & _ & _ & _ & _ & Hd & old & Hlt).
  split; [done|]. eexists. split; [exact Hd|]. by eapply f_ltb_inf.
Qed.

Lemma add_route_spec st s routes :
  let res := results_of st in
  Inv st → s ∈ stations network →
  (¬ listed start_station res s ∧ add_route start_station res routes s = Ok routes) ∨
  (∃ r, listed start_station res s ∧ route_for network start_station res s r ∧
        add_route start_station res routes s = Ok (<[s := r]> routes)).
Proof.
  intros res I Hin. unfold add_route, listed, getitem.
  case_bool_decide as Hne; [|left; split; [by intros [? _]|done]].
  assert (is_Some (distances st !! s)) as [d Hd].
  { apply elem_of_dom. by rewrite (inv_distances _ _ _ _ _ _ I). }
  assert (is_Some (costs st !! s)) as [c Hc].
  { apply elem_of_dom. by rewrite (inv_costs _ _ _ _ _ _ I). }
  assert (is_Some (times st !! s)) as [t Ht].
  { apply elem_of_dom. by rewrite (inv_times _ _ _ _ _ _ I). }
  subst res. cbn [results_of res_distances res_costs res_times res_stops res_previous].
  rewrite Hd. run. destruct (f_eqb d f_inf) eqn:Hinf; run.
  { left. split; [|done]. intros (_ & d' & [= <-] & ?). congruence. }
  destruct (listed_reached st s d I Hne Hd Hinf) as (Hre & n & Hn).
  destruct (get_path_trail st s n I Hre Hn) as (l & -> & T & Hlen).
  run. rewrite Hc, Ht, Hn. cbn [stop_int]. run. right. eexists. split_and!; [done|by eauto| |done].
  unfold route_for. cbn. split_and!; by eauto.
Qed.

Lemma for_each_add_route st l : ∀ routes0,
  let res := results_of st in
  Inv st → (∀ s, s ∈ l → s ∈ stations network) →
  ∃ routes, for_each (add_route start_station res) routes0 l = Ok routes ∧
    (∀ s, is_Some (routes !! s) ↔
          is_Some (routes0 !! s) ∨ (s ∈ l ∧ listed start_station res s)) ∧
    (∀ s r, routes !! s = Some r →
            routes0 !! s = Some r ∨ route_for network start_station res s r).
Proof.
  induction l as [|x l IH]; intros routes0 res I Hsub; subst res; cbn [for_each].
  - exists routes0. split_and!; [done| |by left]. intros s. set_solver.
  - destruct (add_route_spec st x routes0 I) as [[Hno ->]|(r & Hyes & Hr & ->)];
      [apply Hsub; by left| |]; run.
    + destruct (IH routes0 I) as (routes & -> & Hdom & Hval); [set_solver|].
      exists routes. split_and!; [done| |done].
      intros s. rewrite Hdom. set_solver.
    + destruct (IH (<[x := r]> routes0) I) as (routes & -> & Hdom & Hval); [set_solver|].
      exists routes. split_and!; [done| |].
      * intros s. rewrite Hdom. destruct (decide (x = s)) as [<-|Hne].
        -- rewrite lookup_insert_eq. split; [intros _; right|by left]. set_solver.
        -- rewrite lookup_insert_ne by done. set_solver.
      * intros s r' [H1|?]%Hval; [|by right].
        destruct (decide (x = s)) as [<-|Hne].
        -- rewrite lookup_insert_eq in H1. injection H1 as <-. by right.
        -- rewrite lookup_insert_ne in H1 by done. by left.
Qed.

Lemma later_invariant g st g' st' :
  Later g st g' st' → Inv st → adjacency_kept network g →
  Inv st' ∧ adjacency_kept network g'.
Proof.
  induction 1 as [|g st g1 st1 g' st' E L IH]; intros I A; [done|].
  destruct (turn_Next _ _ _ _ I A E) as (I1 & A1 & _). by apply IH.
Qed.

Lemma later_settled g st g' st' :
  Later g st g' st' →
  visited st ⊆ visited st' ∧ ∀ x, x ∈ visited st → same_record st st' x.
Proof.
  induction 1 as [|g st g1 st1 g' st' E L [IHv IHf]].
  - split; [done|]. by intros.
  - destruct (turn_settled _ _ _ _ E) as [Hv Hf]. split; [set_solver|].
    intros x Hx. specialize (Hf x Hx). specialize (IHf x (Hv x Hx)).
    unfold same_record in *. naive_solver congruence.
Qed.

(** [find_optimal_routes] from a registered origin: the routes of the
    listed stations, or the [KeyError] of the loop. *)
Lemma find_optimal_routes_halts :
  start_station ∈ stations network →
  ∃ o g',
    find_optimal_routes network start_station cost_weight time_weight stops_weight
    = (o, {| graph := g'; stations := stations network;
             station_info := station_info network |}) ∧
    adjacency_kept network g' ∧
    ((∃ st routes,
        Dijkstra network start_station
        = (Ok (results_of st), {| graph := g'; stations := stations network;
                                  station_info := station_info network |}) ∧
        Inv st ∧
        Later (graph network) (initial network start_station) g' st ∧
        o = Ok routes ∧
        (∀ s, is_Some (routes !! s) ↔
              s ∈ stations network ∧ listed start_station (results_of st) s) ∧
        (∀ s r, routes !! s = Some r →
                route_for network start_station (results_of st) s r)) ∨
     (∃ u c, c ∈ outgoing (graph network) u ∧ (destination c ∉ stations network) ∧
             Dijkstra network start_station
             = (Raise (KeyError (destination c)),
                {| graph := g'; stations := stations network;
                   station_info := station_info network |}) ∧
             o = Raise (KeyError (destination c)))).
Proof.
  intros Hin. unfold find_optimal_routes.
  destruct (dijkstra_halts Hin) as (o & g' & E & A & Hend). rewrite E.
  destruct Hend as [(st & -> & I & _ & L)|(u & c & ? & ? & ->)]; run.
  - destruct (for_each_add_route st (elements (stations network)) ∅ I)
      as (routes & Hrun & Hdom & Hval); [set_solver|].
    cbn [stations]. rewrite Hrun.
    eexists _, g'. split_and!; [done..|]. left. exists st, routes.
    split_and!; [done..| |].
    + intros s. rewrite Hdom, lookup_empty, elem_of_elements.
      split; [intros [[? [=]]|?]; done|by right].
    + intros s r [Hs|?]%Hval; [by rewrite lookup_empty in Hs|done].
  - eexists _, g'. split_and!; [done..|]. right. by exists u, c.
Qed.

End Invariants.

(** ** What the calls return *)

Section Returned.
Context {F : PyFloat}.
Variables cost_weight time_weight stops_weight : num.
Variable network : KochiMetroNetwork.
Variable start_station : string.

(** An unregistered origin: the [ValueError], before anything else. *)
Lemma dijkstra_unknown :
  start_station ∉ stations network →
  dijkstra_multi_criteria cost_weight time_weight stops_weight network start_station
  = (Raise (ValueError (String.append "Station '"
              (String.append start_station "' not found in the network"))),
     network).
Proof.
  intros Hout. unfold dijkstra_multi_criteria. by rewrite bool_decide_eq_true_2.
Qed.

Lemma find_optimal_routes_unknown :
  start_station ∉ stations network →
  find_optimal_routes network start_station cost_weight time_weight stops_weight
  = (Raise (ValueError (String.append "Station '"
              (String.append start_station "' not found in the network"))),
     network).
Proof.
  intros Hout. unfold find_optimal_routes. by rewrite dijkstra_unknown.
Qed.

(** What a returned mapping tells. *)
Lemma find_optimal_routes_Ok routes net' :
  find_optimal_routes network start_station cost_weight time_weight stops_weight
  = (Ok routes, net') →
  start_station ∈ stations network ∧
  ∃ st,
    dijkstra_multi_criteria cost_weight time_weight stops_weight network start_station
    = (Ok (results_of st), net') ∧
    invariant cost_weight time_weight stops_weight network start_station st ∧
    later cost_weight time_weight stops_weight
      (graph network) (initial network start_station) (graph net') st ∧
    (∀ s, is_Some (routes !! s) ↔
          s ∈ stations network ∧ listed start_station (results_of st) s) ∧
    (∀ s r, routes !! s = Some r →
            route_for network start_station (results_of st) s r).
Proof.
  intros E. destruct (decide (start_station ∈ stations network)) as [Hin|Hout]; cycle 1.
  { by rewrite find_optimal_routes_unknown in E. }
  split; [done|].
  destruct (find_optimal_routes_halts cost_weight time_weight stops_weight
              network start_station Hin) as (o & g' & E' & A & Hend).
  rewrite E in E'. injection E' as <- ->.
  destruct Hend as [(st & routes' & D & I & L & [= <-] & Hdom & Hval)|(u & c & _ & _ & _ & ?)];
    [|done].
  exists st. by split_and!.
Qed.

(** A predecessor link lies on an edge of the network. *)
Lemma parent_linked st u v :
  invariant cost_weight time_weight stops_weight network start_station st →
  parent (previous st) u v → linked (graph network) u v.
Proof.
  intros I Hp. destruct (inv_tree _ _ _ _ _ _ I _ _ Hp) as (_ & _ & R).
  destruct R as (conn & cu & tu & n & Hconn & Hdest & _). by exists conn.
Qed.

End Returned.

(** C1.  Every path in the mapping [find_optimal_routes] returns begins with
    the origin, ends with the station it is listed under, and goes from
    each station to the next over an edge of the network. *)
Theorem find_optimal_routes_path_connected {F : PyFloat}
    (network : KochiMetroNetwork) (start_station : string)
    (cost_weight time_weight stops_weight : num)
    (routes : gmap string route) (net' : KochiMetroNetwork) (s : string) (r : route) :
  start_station ∈ stations network →
  find_optimal_routes network start_station cost_weight time_weight stops_weight
  = (Ok routes, net') →
  routes !! s = Some r →
  head (path r) = Some start_station ∧
  last (path r) = Some s ∧
  ∀ i u v, path r !! i = Some u → path r !! S i = Some v → linked (graph network) u v.
Proof.
  intros _ (_ & st & _ & I & _ & _ & Hval)%find_optimal_routes_Ok Hr.
  destruct (Hval s r Hr) as (T & _).
  split_and!.
  - by eapply trail_head.
  - by eapply trail_last.
  - intros i u v Hu Hv. eapply parent_linked; [done|].
    by eapply (trail_consecutive _ _ _ _ T).
Qed.

(** C8.  The stop count of a listed destination is the length of its path
    minus one. *)
Theorem find_optimal_routes_total_stops {F : PyFloat}
    (network : KochiMetroNetwork) (start_station : string)
    (cost_weight time_weight stops_weight : num)
    (routes : gmap string route) (net' : KochiMetroNetwork) (s : string) (r : route) :
  start_station ∈ stations network →
  find_optimal_routes network start_station cost_weight time_weight stops_weight
  = (Ok routes, net') →
  routes !! s = Some r →
  total_stops r = Z.of_nat (length (path r)) - 1.
Proof.
  intros _ (_ & st & _ & I & _ & _ & Hval)%find_optimal_routes_Ok Hr.
  destruct (Hval s r Hr) as (_ & Hlen & _). lia.
Qed.

Section Closed.
Context {F : PyFloat}.
Variables cost_weight time_weight stops_weight : num.
Variable network : KochiMetroNetwork.
Variable start_station : string.

(** On a closed network the loop meets no unregistered neighbour. *)
Lemma find_optimal_routes_closed :
  closed network → start_station ∈ stations network →
  ∃ routes net',
    find_optimal_routes network start_station cost_weight time_weight stops_weight
    = (Ok routes, net').
Proof.
  intros Hclosed Hin.
  destruct (find_optimal_routes_halts cost_weight time_weight stops_weight
              network start_station Hin) as (o & g' & E & A & Hend).
  destruct Hend as [(st & routes & _ & _ & _ & -> & _)|(u & c & Hc & Hout & _)].
  - eauto.
  - destruct Hout. by eapply Hclosed.
Qed.

(** The boolean test of [closed]. *)
Lemma closed_check :
  bool_decide (map_Forall (λ _ l, Forall (λ c, destination c ∈ stations network) l)
                 (graph network)) = true →
  closed network.
Proof.
  intros Hall%bool_decide_eq_true_1 u c. unfold outgoing.
  destruct (graph network !! u) as [l|] eqn:E; cbn; [|by intros ?%elem_of_nil].
  intros Hc. specialize (Hall u l E). cbn in Hall.
  by eapply Forall_forall in Hall.
Qed.

(** [get_path] answers the empty list or a list that begins with the
    origin. *)
Lemma get_path_origin end_station previous l :
  get_path start_station end_station previous = Ok l →
  l = [] ∨ head l = Some start_station.
Proof.
  unfold get_path.
  destruct (walk _ _ _ _) as [p| |]; run; [|done..]. cbv zeta.
  destruct (reverse p) as [|first rest]; [done|].
  case_bool_decide as Hfirst; intros [= <-]; [by left|right].
  cbn. f_equal. by destruct (decide (first = start_station)).
Qed.

(** The network after a call. *)
Lemma find_optimal_routes_frame o net' :
  find_optimal_routes network start_station cost_weight time_weight stops_weight
  = (o, net') →
  stations net' = stations network ∧
  station_info net' = station_info network ∧
  adjacency_kept network (graph net').
Proof.
  destruct (decide (start_station ∈ stations network)) as [Hin|Hout].
  - destruct (find_optimal_routes_halts cost_weight time_weight stops_weight
                network start_station Hin) as (o' & g' & -> & A & _).
    by intros [= <- <-].
  - rewrite find_optimal_routes_unknown by done. intros [= <- <-].
    split_and!; [done..|]. apply adjacency_kept_refl.
Qed.

End Closed.

(** C7.  [get_path] answers a list that begins with the origin or, when the
    walk over the predecessor links ends elsewhere, the empty list; and no
    entry of the mapping [find_optimal_routes] returns has an empty path or
    a path that begins elsewhere than at the origin. *)
Theorem find_optimal_routes_no_malformed_path {F : PyFloat}
    (network : KochiMetroNetwork) (start_station : string)
    (cost_weight time_weight stops_weight : num) :
  (∀ end_station previous l,
     get_path start_station end_station previous = Ok l →
     l = [] ∨ head l = Some start_station) ∧
  (∀ routes net' s r,
     find_optimal_routes network start_station cost_weight time_weight stops_weight
     = (Ok routes, net') →
     routes !! s = Some r →
     path r ≠ [] ∧ head (path r) = Some start_station).
Proof.
  split; [intros ???; apply get_path_origin|].
  intros routes net' s r (_ & st & _ & I & _ & _ & Hval)%find_optimal_routes_Ok Hr.
  destruct (Hval s r Hr) as (T & _).
  split; [by eapply trail_nonempty|by eapply trail_head].
Qed.

(** C6, as amended.  From a registered origin, the keys of a returned
    mapping are the stations other than the origin whose score in the
    [distances] dict is not the infinite sentinel, which are the stations
    the relaxation gave a predecessor; a station that was never relaxed
    keeps the sentinel and is left out; and on a network whose edges lead
    to registered stations, connected or not, a mapping is returned. *)
Theorem find_optimal_routes_keys {F : PyFloat}
    (network : KochiMetroNetwork) (start_station : string)
    (cost_weight time_weight stops_weight : num) :
  start_station ∈ stations network →
  (closed network →
   ∃ routes net',
     find_optimal_routes network start_station cost_weight time_weight stops_weight
     = (Ok routes, net')) ∧
  (∀ routes net',
     find_optimal_routes network start_station cost_weight time_weight stops_weight
     = (Ok routes, net') →
     ∃ res,
       dijkstra_multi_criteria cost_weight time_weight stops_weight network start_station
       = (Ok res, net') ∧
       (∀ s, is_Some (routes !! s) ↔
             s ∈ stations network ∧ s ≠ start_station ∧
             ∃ d, res_distances res !! s = Some d ∧ f_eqb d f_inf = false) ∧
       (∀ s, is_Some (routes !! s) ↔
             s ≠ start_station ∧ ∃ u, res_previous res !! s = Some (Some u)) ∧
       (∀ s, s ∈ stations network → s ≠ start_station →
             res_previous res !! s = Some None →
             res_distances res !! s = Some f_inf ∧ routes !! s = None)).
Proof.
  intros Hin. split; [intros Hclosed; by apply find_optimal_routes_closed|].
  intros routes net' (_ & st & D & I & _ & Hdom & _)%find_optimal_routes_Ok.
  exists (results_of st). split_and!; [done| | |].
  - intros s. rewrite Hdom. unfold listed. naive_solver.
  - intros s. rewrite Hdom. split.
    + intros (_ & Hne & d & Hd & Hinf). split; [done|].
      by destruct (listed_reached _ _ _ _ _ st s d I Hne Hd Hinf) as [[?|?] _].
    + intros (Hne & u & Hu). split; [|by eapply relaxed_listed].
      rewrite <-(inv_previous _ _ _ _ _ _ I). by eapply elem_of_dom_2.
  - intros s Hs Hne Hp. cbn in Hp.
    destruct (inv_unreached _ _ _ _ _ _ I s Hne Hp) as [Hd _].
    split; [done|]. apply eq_None_not_Some. rewrite Hdom. unfold listed. cbn.
    intros (_ & _ & d & Hd' & Hinf). rewrite Hd in Hd'. injection Hd' as <-.
    by rewrite f_inf_eqb in Hinf.
Qed.

(** C10.  From a registered origin the loop of [dijkstra_multi_criteria]
    ends within the turns [while_fuel] allows, and further turns change
    nothing; every turn of a run drops a stale heap entry or settles a
    station that was not settled and pushes at most one entry per edge
    leaving it, and lowers [pending]; so [dijkstra_multi_criteria] and
    [find_optimal_routes] halt, and on a network whose edges lead to
    registered stations [find_optimal_routes] returns a mapping. *)
Theorem dijkstra_multi_criteria_terminates {F : PyFloat}
    (network : KochiMetroNetwork) (start_station : string)
    (cost_weight time_weight stops_weight : num) :
  start_station ∈ stations network →
  (dijkstra_multi_criteria cost_weight time_weight stops_weight
     network start_station).1 ≠ Diverge ∧
  (find_optimal_routes network start_station
     cost_weight time_weight stops_weight).1 ≠ Diverge ∧
  (∀ extra,
     while_pq cost_weight time_weight stops_weight (while_fuel network + extra)
       (graph network) (initial network start_station)
     = while_pq cost_weight time_weight stops_weight (while_fuel network)
         (graph network) (initial network start_station)) ∧
  (∀ g st g' st',
     later cost_weight time_weight stops_weight
       (graph network) (initial network start_station) g st →
     while_body cost_weight time_weight stops_weight g st = Next g' st' →
     turn_bound network st st' ∧ (pending network st' < pending network st)%nat) ∧
  (closed network →
   ∃ routes net',
     find_optimal_routes network start_station cost_weight time_weight stops_weight
     = (Ok routes, net')).
Proof.
  intros Hin.
  pose proof (invariant_initial cost_weight time_weight stops_weight
                network start_station Hin) as I0.
  pose proof (adjacency_kept_refl network) as A0.
  destruct (while_pq_halts cost_weight time_weight stops_weight network start_station
              (while_fuel network) _ _ I0 A0) as (o & g' & Hrun & _ & Hend).
  { rewrite <-(pending_initial network start_station). lia. }
  assert (o ≠ Diverge) as Ho.
  { destruct Hend as [(st & -> & _)|(u & c & _ & _ & ->)]; done. }
  split_and!.
  - unfold dijkstra_multi_criteria. rewrite bool_decide_eq_false_2 by (by intros ?).
    rewrite Hrun. cbn. by destruct o.
  - destruct (find_optimal_routes_halts cost_weight time_weight stops_weight
                network start_station Hin) as (o' & g1 & -> & _ & Hend').
    cbn. destruct Hend' as [(st & routes & _ & _ & _ & -> & _)|(u & c & _ & _ & _ & ->)]; done.
  - intros extra. apply while_pq_more; [lia|]. by rewrite Hrun.
  - intros g st g1 st1 L E.
    destruct (later_invariant _ _ _ _ _ _ _ _ _ L I0 A0) as [I A].
    destruct (turn_Next _ _ _ _ _ _ _ _ _ I A E) as (_ & _ & ? & ?). done.
  - intros Hclosed. by apply find_optimal_routes_closed.
Qed.

(** C4, as amended.  From an origin that is no station,
    [dijkstra_multi_criteria] and [find_optimal_routes] raise the
    [ValueError] that names it, on every network and whatever the weights,
    with the network as it was.  From a station the one exception they can
    raise is the [KeyError] of an edge of the network that leads to a name
    outside the station set.  So on a network whose edges lead to
    registered stations either function raises if and only if the origin
    is no station, and from a station [find_optimal_routes] returns a
    mapping. *)
Theorem find_optimal_routes_raises {F : PyFloat}
    (network : KochiMetroNetwork) (start_station : string)
    (cost_weight time_weight stops_weight : num) :
  (start_station ∉ stations network →
   let e := ValueError (String.append "Station '"
              (String.append start_station "' not found in the network")) in
   dijkstra_multi_criteria cost_weight time_weight stops_weight network start_station
   = (Raise e, network) ∧
   find_optimal_routes network start_station cost_weight time_weight stops_weight
   = (Raise e, network)) ∧
  (start_station ∈ stations network →
   ∀ e,
     (dijkstra_multi_criteria cost_weight time_weight stops_weight
        network start_station).1 = Raise e ∨
     (find_optimal_routes network start_station
        cost_weight time_weight stops_weight).1 = Raise e →
     ∃ u c, c ∈ outgoing (graph network) u ∧ (destination c ∉ stations network) ∧
            e = KeyError (destination c)) ∧
  (closed network →
   ((∃ e, (find_optimal_routes network start_station
             cost_weight time_weight stops_weight).1 = Raise e)
    ↔ start_station ∉ stations network) ∧
   ((∃ e, (dijkstra_multi_criteria cost_weight time_weight stops_weight
             network start_station).1 = Raise e)
    ↔ start_station ∉ stations network) ∧
   (start_station ∈ stations network →
    ∃ routes net',
      find_optimal_routes network start_station cost_weight time_weight stops_weight
      = (Ok routes, net'))).
Proof.
  assert (start_station ∈ stations network →
          ∀ e,
            (dijkstra_multi_criteria cost_weight time_weight stops_weight
               network start_station).1 = Raise e ∨
            (find_optimal_routes network start_station
               cost_weight time_weight stops_weight).1 = Raise e →
            ∃ u c, c ∈ outgoing (graph network) u ∧
                   (destination c ∉ stations network) ∧
                   e = KeyError (destination c)) as Hkey.
  { intros Hin e He.
    destruct (find_optimal_routes_halts cost_weight time_weight stops_weight
                network start_station Hin) as (o & g' & E & _ & Hend).
    rewrite E in He. cbn [fst] in He.
    destruct Hend as [(st & routes & D & _ & _ & -> & _)|(u & c & Hc & Hout & D & ->)];
      rewrite D in He; cbn [fst] in He.
    - by destruct He.
    - exists u, c. split; [done|]. split; [done|]. by destruct He as [[= <-]|[= <-]]. }
  split; [|split; [exact Hkey|]].
  - intros Hout e. split.
    + by apply dijkstra_unknown.
    + by apply find_optimal_routes_unknown.
  - intros Hclosed.
    assert (∀ e,
              (dijkstra_multi_criteria cost_weight time_weight stops_weight
                 network start_station).1 = Raise e ∨
              (find_optimal_routes network start_station
                 cost_weight time_weight stops_weight).1 = Raise e →
              start_station ∉ stations network) as Hnot.
    { intros e He Hin. destruct (Hkey Hin e He) as (u & c & Hc & Hout & _).
      destruct Hout. by eapply Hclosed. }
    split_and!.
    + split.
      * intros [e He]. apply (Hnot e). by right.
      * intros Hout. rewrite find_optimal_routes_unknown by done. eauto.
    + split.
      * intros [e He]. apply (Hnot e). by left.
      * intros Hout. rewrite dijkstra_unknown by done. eauto.
    + by apply find_optimal_routes_closed.
Qed.

(** C9, as amended.  A call of [find_optimal_routes] leaves the station
    set and the station information as they were; every station reads the
    same list of edges, with the same attributes, before and after; no key
    of the adjacency structure is lost; and when every station is a key of
    the adjacency structure the network after the call is the network
    before it. *)
Theorem find_optimal_routes_keeps_network {F : PyFloat}
    (network : KochiMetroNetwork) (start_station : string)
    (cost_weight time_weight stops_weight : num) :
  let net' := (find_optimal_routes network start_station
                 cost_weight time_weight stops_weight).2 in
  stations net' = stations network ∧
  station_info net' = station_info network ∧
  (∀ s, outgoing (graph net') s = outgoing (graph network) s) ∧
  graph network ⊆ graph net' ∧
  (stations network ⊆ dom (graph network) → net' = network).
Proof.
  destruct (find_optimal_routes network start_station
              cost_weight time_weight stops_weight) as [o net'] eqn:E. cbn.
  destruct (find_optimal_routes_frame _ _ _ _ _ _ _ E) as (Hs & Hi & Hout & Hsub & Hdom).
  split_and!; [done..|].
  intros Hkeys. assert (graph network = graph net') as Hg.
  { apply subseteq_dom_eq; [done|]. set_solver. }
  destruct net', network. cbn in *. congruence.
Qed.

(** C5, as amended.  [add_connection] appends the edge to the list of its
    first station and changes no other list; the station set and the
    station information stay as they were. *)
Theorem add_connection_appends {F : PyFloat}
    (network : KochiMetroNetwork) (station1 station2 : string)
    (travel_time distance cost : num) :
  let net' := add_connection network station1 station2 travel_time distance cost in
  outgoing (graph net') station1
  = outgoing (graph network) station1
    ++ [Connection station2 travel_time distance cost] ∧
  (∀ s, s ≠ station1 → outgoing (graph net') s = outgoing (graph network) s) ∧
  stations net' = stations network ∧
  station_info net' = station_info network.
Proof.
  intros net'. subst net'. unfold add_connection.
  destruct (defaultdict_getitem (graph network) station1) as [l g] eqn:E.
  apply outgoing_getitem in E as (-> & Hout & _). cbn [graph stations station_info].
  split_and!; [|intros s Hs|reflexivity..].
  - unfold outgoing at 1. rewrite lookup_insert_eq. reflexivity.
  - rewrite <-(Hout s). unfold outgoing. by rewrite lookup_insert_ne by congruence.
Qed.

(** ** IEEE binary64 obeys the order laws *)

Module Binary64.
Import Rounding.

(** *** Integers among the rationals *)

Lemma Z2Q_le a b : a ≤ b → (inject_Z a <= inject_Z b)%Q.
Proof. by rewrite Zle_Qle. Qed.

Lemma Z2Q_lt a b : a < b → (inject_Z a < inject_Z b)%Q.
Proof. by rewrite Zlt_Qlt. Qed.

Lemma Q2Z_le a b : (inject_Z a <= inject_Z b)%Q → a ≤ b.
Proof. by rewrite Zle_Qle. Qed.

Lemma Q2Z_lt a b : (inject_Z a < inject_Z b)%Q → a < b.
Proof. by rewrite Zlt_Qlt. Qed.

(** *** Powers of two *)

Lemma pow2_pos e : (0 < pow2 e)%Q.
Proof. apply Qpower_0_lt. reflexivity. Qed.

Lemma pow2_add a b : (pow2 (a + b) == pow2 a * pow2 b)%Q.
Proof. apply Qpower_plus. discriminate. Qed.

Lemma pow2_succ e : (pow2 (e + 1) == 2 * pow2 e)%Q.
Proof. rewrite pow2_add. change (pow2 1) with 2%Q. ring. Qed.

Lemma pow2_pred e : (pow2 e == 2 * pow2 (e - 1))%Q.
Proof. rewrite <-pow2_succ. replace (e - 1 + 1) with e by lia. reflexivity. Qed.

Lemma pow2_le a b : a ≤ b → (pow2 a <= pow2 b)%Q.
Proof. intros Hab. apply Qpower_le_compat_l; [done|]. discriminate. Qed.

Lemma pow2_lt a b : a < b → (pow2 a < pow2 b)%Q.
Proof. intros Hab. apply Qpower_lt_compat_l; [done|]. reflexivity. Qed.

Lemma pow2_lt_inv a b : (pow2 a < pow2 b)%Q → a < b.
Proof.
  intros Hlt. destruct (Z_lt_le_dec a b) as [|Hle]; [done|].
  apply pow2_le in Hle. apply Qlt_not_le in Hlt. done.
Qed.

Lemma pow2_Z e : 0 ≤ e → (pow2 e == inject_Z (2 ^ e))%Q.
Proof. intros He. unfold pow2. by rewrite Zpower_Qpower. Qed.

Lemma pow2_mul x a b : (x * pow2 a * pow2 b == x * pow2 (a + b))%Q.
Proof. rewrite pow2_add. ring. Qed.

Lemma pow2_eq x a b : a = b → (x * pow2 a == x * pow2 b)%Q.
Proof. by intros ->. Qed.

Lemma pow2_opp e : (pow2 e * pow2 (- e) == 1)%Q.
Proof. rewrite <-pow2_add. replace (e + - e) with 0 by lia. reflexivity. Qed.

(** *** Digits *)

Lemma digits2_pos_spec (m : positive) :
  2 ^ (Zpos (digits2_pos m) - 1) ≤ Zpos m < 2 ^ Zpos (digits2_pos m).
Proof.
  induction m as [m IH|m IH|]; cbn [digits2_pos].
  - rewrite Pos2Z.inj_succ. replace (Z.succ (Zpos (digits2_pos m)) - 1)
      with (Z.succ (Zpos (digits2_pos m) - 1)) by lia.
    rewrite !Z.pow_succ_r by lia. lia.
  - rewrite Pos2Z.inj_succ. replace (Z.succ (Zpos (digits2_pos m)) - 1)
      with (Z.succ (Zpos (digits2_pos m) - 1)) by lia.
    rewrite !Z.pow_succ_r by lia. lia.
  - cbn. lia.
Qed.

Lemma Zdigits2_bound (m : Z) : 0 ≤ m → m < 2 ^ Zdigits2 m.
Proof.
  destruct m as [|p|p]; [cbn; lia| |lia]. intros _. apply digits2_pos_spec.
Qed.

Lemma Zdigits2_nonneg (m : Z) : 0 ≤ Zdigits2 m.
Proof. by destruct m. Qed.

(** *** Where a number lies between two integers *)

Lemma inbetween_proper m r s y y' : (y == y')%Q → inbetween m r s y → inbetween m r s y'.
Proof. intros Heq. destruct r, s; cbn; rewrite Heq; done. Qed.

Lemma located_proper mrs y y' : (y == y')%Q → located mrs y → located mrs y'.
Proof. intros Heq [? ?]. split; [done|by eapply inbetween_proper]. Qed.

Lemma located_bounds mrs y :
  located mrs y → (inject_Z (shr_m mrs) <= y ∧ y < inject_Z (shr_m mrs) + 1)%Q.
Proof. intros [_ H]. destruct mrs as [m [] []]; cbn in *; lra. Qed.

Lemma shr_1_spec m r s :
  0 ≤ m → shr_1 (Build_shr_record m r s) = Build_shr_record (Z.div2 m) (Z.odd m) (r || s).
Proof. intros Hm. destruct m as [|[p|p|]|]; try done. Qed.

Lemma shr_1_located mrs y : located mrs y → located (shr_1 mrs) (y * pow2 (-1))%Q.
Proof.
  destruct mrs as [m r s]. intros [Hm H]. cbn in Hm. rewrite shr_1_spec by done.
  split; cbn.
  - rewrite Z.div2_div. by apply Z.div_pos.
  - pose proof (Z.div2_odd m) as Hdiv.
    assert (inject_Z m == 2 * inject_Z (Z.div2 m) + inject_Z (Z.b2z (Z.odd m)))%Q as Hq.
    { rewrite Hdiv at 1. rewrite inject_Z_plus, inject_Z_mult. reflexivity. }
    cbn [shr_m shr_r shr_s] in H. unfold inbetween in *. change (pow2 (-1)) with (1 # 2).
    destruct (Z.odd m), r, s; cbn [orb Z.b2z] in *;
      change (inject_Z 1) with 1%Q in *; change (inject_Z 0) with 0%Q in *; lra.
Qed.

Lemma iter_pos_located (p : positive) : ∀ mrs y,
  located mrs y → located (SpecFloat.iter_pos shr_1 p mrs) (y * pow2 (Zneg p))%Q.
Proof.
  induction p as [p IH|p IH|]; intros mrs y H; cbn [SpecFloat.iter_pos].
  - apply shr_1_located, IH, IH in H. eapply located_proper; [|exact H].
    rewrite !pow2_mul. apply pow2_eq. lia.
  - apply IH, IH in H. eapply located_proper; [|exact H].
    rewrite !pow2_mul. apply pow2_eq. lia.
  - by apply shr_1_located.
Qed.

(** *** Rounding to the nearest integer, ties to even *)

Lemma round_nearest_even_spec mrs y :
  located mrs y →
  nearest_even y (round_nearest_even (shr_m mrs) (loc_of_shr_record mrs)) ∧
  0 ≤ round_nearest_even (shr_m mrs) (loc_of_shr_record mrs).
Proof.
  destruct mrs as [m r s]. intros [Hm H].
  unfold nearest_even, inbetween, round_nearest_even, loc_of_shr_record in *.
  cbn [shr_m shr_r shr_s] in *.
  destruct r, s.
  - rewrite inject_Z_plus. change (inject_Z 1) with 1%Q.
    split; [|lia]. split; [lra|]. split; intros ?; lra.
  - destruct (Z.even m) eqn:E.
    + split; [|done]. split; [lra|]. split; [intros ?; lra|done].
    + rewrite inject_Z_plus. change (inject_Z 1) with 1%Q. split; [|lia].
      split; [lra|]. split; [|intros ?; lra].
      intros _. by rewrite Z.even_add, E.
  - split; [|done]. split; [lra|]. split; intros ?; lra.
  - split; [|done]. split; [lra|]. split; intros ?; lra.
Qed.

Lemma nearest_even_mono y1 y2 n1 n2 :
  nearest_even y1 n1 → nearest_even y2 n2 → (y1 <= y2)%Q → n1 ≤ n2.
Proof.
  intros ([Hl1 Hu1] & He1 & _) ([Hl2 Hu2] & _ & He2) Hle.
  destruct (Z_le_gt_dec n1 n2) as [|Hgt]; [done|exfalso].
  assert (n2 + 1 ≤ n1) as Hz by lia.
  apply Z2Q_le in Hz. rewrite inject_Z_plus in Hz. change (inject_Z 1) with 1%Q in Hz.
  assert (y1 == inject_Z n1 - (1 # 2))%Q as H1 by lra.
  assert (y2 == inject_Z n2 + (1 # 2))%Q as H2 by lra.
  assert (n1 ≤ n2 + 1) as Hn.
  { apply Q2Z_le. rewrite inject_Z_plus. change (inject_Z 1) with 1%Q. lra. }
  specialize (He1 H1). specialize (He2 H2).
  assert (n1 = n2 + 1) as -> by lia.
  rewrite Z.even_add, He2 in He1. done.
Qed.

(** *** What [binary_round_aux] computes *)

Ltac fexp_lia :=
  unfold SpecFloat.fexp, SpecFloat.emin, prec, emax in *; lia.

Lemma unscale x e : (x * pow2 (- e) * pow2 e == x)%Q.
Proof. rewrite pow2_mul. replace (- e + e) with 0 by lia. change (pow2 0) with 1%Q. ring. Qed.

Lemma rescale x e : (x * pow2 e * pow2 (- e) == x)%Q.
Proof. rewrite pow2_mul. replace (e + - e) with 0 by lia. change (pow2 0) with 1%Q. ring. Qed.

Lemma scale_le a x e : (a <= x * pow2 (- e))%Q → (a * pow2 e <= x)%Q.
Proof.
  intros H. rewrite <-(unscale x e). apply Qmult_le_compat_r; [done|].
  apply Qlt_le_weak, pow2_pos.
Qed.

Lemma scale_lt a x e : (x * pow2 (- e) < a)%Q → (x < a * pow2 e)%Q.
Proof.
  intros H. rewrite <-(unscale x e). apply Qmult_lt_compat_r; [apply pow2_pos|done].
Qed.

Lemma scale_le' a x e : (a * pow2 e <= x)%Q → (a <= x * pow2 (- e))%Q.
Proof.
  intros H. apply (Qmult_le_compat_r _ _ (pow2 (- e))) in H;
    [|apply Qlt_le_weak, pow2_pos].
  rewrite pow2_mul in H. replace (e + - e) with 0 in H by lia.
  change (pow2 0) with 1%Q in H. lra.
Qed.

Lemma scale_lt' a x e : (x < a * pow2 e)%Q → (x * pow2 (- e) < a)%Q.
Proof.
  intros H. apply (Qmult_lt_compat_r _ _ (pow2 (- e))) in H; [|apply pow2_pos].
  rewrite pow2_mul in H. replace (e + - e) with 0 in H by lia.
  change (pow2 0) with 1%Q in H. lra.
Qed.

Lemma shr_located mrs e n x :
  0 ≤ n → located mrs (x * pow2 (- e)) →
  ∃ mrs', shr mrs e n = (mrs', e + n) ∧ located mrs' (x * pow2 (- (e + n))).
Proof.
  intros Hn H. destruct n as [|p|p]; [| |lia]; cbn [shr].
  - exists mrs. split; [by rewrite Z.add_0_r|]. by rewrite Z.add_0_r.
  - exists (SpecFloat.iter_pos shr_1 p mrs). split; [done|].
    apply (iter_pos_located p) in H. eapply located_proper; [|exact H].
    rewrite pow2_mul. apply pow2_eq. lia.
Qed.

Lemma located_exact m y :
  0 ≤ m → (y == inject_Z m)%Q → located (shr_record_of_loc m loc_Exact) y.
Proof. by split. Qed.

Lemma located_record m l y :
  located (shr_record_of_loc m l) y →
  0 ≤ m ∧ (inject_Z m <= y ∧ y < inject_Z m + 1)%Q.
Proof.
  intros H. pose proof (located_bounds _ _ H) as Hb. destruct H as [Hm _].
  by destruct l as [|[]]; cbn in *.
Qed.

Lemma located_canonic m l e x :
  located (shr_record_of_loc m l) (x * pow2 (- e)) →
  e ≤ SpecFloat.fexp prec emax (Zdigits2 m + e) →
  canonic x (SpecFloat.fexp prec emax (Zdigits2 m + e)).
Proof.
  intros (Hm & Hlo & Hhi)%located_record Hdig.
  apply scale_le in Hlo. apply scale_lt in Hhi.
  pose proof (Zdigits2_bound m Hm) as Hd. pose proof (Zdigits2_nonneg m) as Hd0.
  assert (inject_Z m + 1 <= pow2 (Zdigits2 m))%Q as Hd'.
  { rewrite pow2_Z by done. change 1%Q with (inject_Z 1). rewrite <-inject_Z_plus.
    apply Z2Q_le. lia. }
  assert (x < pow2 (Zdigits2 m + e))%Q as Hx.
  { rewrite pow2_add. eapply Qlt_le_trans; [exact Hhi|].
    apply Qmult_le_compat_r; [done|apply Qlt_le_weak, pow2_pos]. }
  split; [fexp_lia|]. split.
  - eapply Qlt_le_trans; [exact Hx|]. apply pow2_le. fexp_lia.
  - intros HE. destruct m as [|p|p]; [cbn in *; fexp_lia| |lia].
    pose proof (digits2_pos_spec p) as [Hp _]. cbn [Zdigits2] in *.
    assert (SpecFloat.fexp prec emax (Z.pos (digits2_pos p) + e) + 52
            = (Z.pos (digits2_pos p) - 1) + e) as -> by fexp_lia.
    rewrite pow2_add. eapply Qle_trans; [|exact Hlo].
    apply Qmult_le_compat_r; [|apply Qlt_le_weak, pow2_pos].
    rewrite pow2_Z by lia. by apply Z2Q_le.
Qed.

Lemma Zdigits2_le (N : Z) k : 0 ≤ k → 0 ≤ N < 2 ^ k → Zdigits2 N ≤ k.
Proof.
  intros Hk [H0 Hlt]. destruct N as [|p|p]; [done| |lia]. cbn.
  pose proof (digits2_pos_spec p) as [Hp _].
  assert (2 ^ (Z.pos (digits2_pos p) - 1) < 2 ^ k) as H by lia.
  apply Z.pow_lt_mono_r_iff in H; lia.
Qed.

Lemma finish_spec N E :
  -1074 ≤ E → 0 ≤ N ≤ 2 ^ 53 →
  (let '(mrs, e) := shr_fexp prec emax N E loc_Exact in
   match shr_m mrs with
   | Z0 => S754_zero false
   | Zpos m => if e <=? emax - prec then S754_finite false m e else S754_infinity false
   | Zneg _ => S754_nan
   end) = finish N E.
Proof.
  intros HE [H0 Hle]. unfold finish.
  destruct (Z.eqb_spec N (2 ^ 53)) as [->|Hne].
  - unfold shr_fexp. change (Zdigits2 (2 ^ 53)) with 54.
    replace (SpecFloat.fexp prec emax (54 + E) - E) with 1 by fexp_lia.
    cbn -[Z.add Z.leb]. done.
  - unfold shr_fexp.
    pose proof (Zdigits2_le N 53) as Hd. pose proof (Zdigits2_nonneg N) as Hd0.
    assert (SpecFloat.fexp prec emax (Zdigits2 N + E) - E ≤ 0) as Hn by fexp_lia.
    destruct (SpecFloat.fexp prec emax (Zdigits2 N + E) - E) as [|p|p] eqn:En; [|lia|];
      cbn [shr shr_record_of_loc shr_m]; unfold mk; by destruct N.
Qed.

Lemma binary_round_aux_rounded x m e l :
  located (shr_record_of_loc m l) (x * pow2 (- e)) →
  e ≤ SpecFloat.fexp prec emax (Zdigits2 m + e) →
  rounded x (binary_round_aux prec emax false m e l).
Proof.
  intros Hloc Hdig. pose proof (located_canonic _ _ _ _ Hloc Hdig) as Hcan.
  unfold binary_round_aux, shr_fexp at 1.
  destruct (shr_located (shr_record_of_loc m l) e
              (SpecFloat.fexp prec emax (Zdigits2 m + e) - e) x)
    as (mrs & -> & Hmrs); [lia|done|].
  replace (e + (SpecFloat.fexp prec emax (Zdigits2 m + e) - e))
    with (SpecFloat.fexp prec emax (Zdigits2 m + e)) in * by lia.
  set (E := SpecFloat.fexp prec emax (Zdigits2 m + e)) in *.
  destruct (round_nearest_even_spec _ _ Hmrs) as [Hne HN].
  set (N := round_nearest_even (shr_m mrs) (loc_of_shr_record mrs)) in *.
  destruct Hcan as (HE & Hhi & Hlo).
  assert (N ≤ 2 ^ 53) as HN'.
  { destruct Hne as [[Hl _] _].
    assert (x * pow2 (- E) < pow2 53)%Q as Hy.
    { apply scale_lt'. rewrite <-pow2_add. by replace (53 + E) with (E + 53) by lia. }
    cut (N < 2 ^ 53 + 1); [lia|].
    apply Q2Z_lt. rewrite inject_Z_plus, <-pow2_Z by lia. change (inject_Z 1) with 1%Q.
    lra. }
  rewrite finish_spec by done.
  exists E, N. split; [done|]. done.
Qed.

(** *** Rounding is monotone *)

Lemma mk_le m1 e1 m2 e2 :
  0 ≤ m1 → 0 ≤ m2 →
  m1 = 0 ∨ (0 < m2 ∧ (e1 < e2 ∨ (e1 = e2 ∧ m1 ≤ m2))) →
  SFleb (mk m1 e1) (mk m2 e2) = true.
Proof.
  intros H1 H2 H. unfold mk.
  destruct m1 as [|p1|p1]; [| |lia].
  - destruct m2 as [|p2|p2]; [done| |lia]. by destruct (e2 <=? 971).
  - destruct H as [|[Hpos Hlex]]; [done|]. destruct m2 as [|p2|p2]; [lia| |lia].
    destruct (Z.leb_spec e1 971), (Z.leb_spec e2 971); try done; [|lia].
    unfold SFleb, SFcompare.
    destruct (Z.compare_spec e1 e2) as [->|Hlt|Hgt]; [|done|lia].
    assert (p1 ≤ p2)%positive as Hle by lia.
    change (Pos.compare_cont Eq p1 p2) with (p1 ?= p2)%positive.
    apply Pos.compare_le_iff in Hle. by destruct (p1 ?= p2)%positive.
Qed.

Lemma finish_le N1 E1 N2 E2 :
  0 ≤ N1 ≤ 2 ^ 53 → 0 ≤ N2 ≤ 2 ^ 53 →
  N1 = 0 ∨ (E1 = E2 ∧ N1 ≤ N2) ∨ (E1 < E2 ∧ 2 ^ 52 ≤ N2) →
  SFleb (finish N1 E1) (finish N2 E2) = true.
Proof.
  intros H1 H2 H. unfold finish.
  destruct (Z.eqb_spec N1 (2 ^ 53)) as [->|Hne1], (Z.eqb_spec N2 (2 ^ 53)) as [->|Hne2];
    apply mk_le; lia.
Qed.

Lemma rounded_mono x1 x2 f1 f2 :
  rounded x1 f1 → rounded x2 f2 → (x1 <= x2)%Q → SFleb f1 f2 = true.
Proof.
  intros (E1 & N1 & (HE1 & Hhi1 & Hlo1) & Hn1 & HN1 & ->)
         (E2 & N2 & (HE2 & Hhi2 & Hlo2) & Hn2 & HN2 & ->) Hle.
  apply finish_le; [done..|].
  assert (E1 ≤ E2) as HE.
  { destruct (Z_le_gt_dec E1 E2) as [|Hgt]; [done|exfalso].
    assert (pow2 (E1 + 52) < pow2 (E2 + 53))%Q as Hlt.
    { eapply Qle_lt_trans; [apply Hlo1; lia|]. eapply Qle_lt_trans; [exact Hle|done]. }
    apply pow2_lt_inv in Hlt. lia. }
  destruct (Z.eq_dec E1 E2) as [<-|Hne].
  - right. left. split; [done|]. eapply nearest_even_mono; [done..|].
    apply Qmult_le_compat_r; [done|apply Qlt_le_weak, pow2_pos].
  - right. right. split; [lia|].
    assert (pow2 52 <= x2 * pow2 (- E2))%Q as Hy.
    { apply scale_le'. rewrite <-pow2_add. replace (52 + E2) with (E2 + 52) by lia.
      apply Hlo2. lia. }
    destruct Hn2 as [[_ Hu] _]. rewrite pow2_Z in Hy by lia.
    cut (2 ^ 52 < N2 + 1); [lia|]. apply Q2Z_lt.
    rewrite inject_Z_plus. change (inject_Z 1) with 1%Q. lra.
Qed.

(** *** Numbers that are not negative, with infinity *)

Lemma nearest_even_proper y y' n : (y == y')%Q → nearest_even y n → nearest_even y' n.
Proof. intros Heq. unfold nearest_even. by rewrite Heq. Qed.

Lemma rounded_proper x x' f : (x == x')%Q → rounded x f → rounded x' f.
Proof.
  intros Heq (E & N & (HE & Hhi & Hlo) & Hn & HN & ->). exists E, N.
  split; [|split; [|done]].
  - split; [done|]. rewrite <-Heq. done.
  - eapply nearest_even_proper; [|exact Hn]. by rewrite Heq.
Qed.

Lemma approx_proper x x' f : (x == x')%Q → approx (Some x) f → approx (Some x') f.
Proof.
  intros Heq [[H0 Hf]|[Hpos Hr]]; [left|right].
  - split; [by rewrite <-Heq|done].
  - split; [by rewrite <-Heq|by eapply rounded_proper].
Qed.

Lemma zero_le_mk s m e : 0 ≤ m → SFleb (S754_zero s) (mk m e) = true.
Proof. intros Hm. unfold mk. destruct m; [done| |lia]. by destruct (e <=? 971). Qed.

Lemma mk_le_infinity m e : 0 ≤ m → SFleb (mk m e) (S754_infinity false) = true.
Proof. intros Hm. unfold mk. destruct m; [done| |lia]. by destruct (e <=? 971). Qed.

Lemma zero_le_finish s N E : 0 ≤ N → SFleb (S754_zero s) (finish N E) = true.
Proof. intros HN. unfold finish. destruct (N =? 2 ^ 53); by apply zero_le_mk. Qed.

Lemma finish_le_infinity N E : 0 ≤ N → SFleb (finish N E) (S754_infinity false) = true.
Proof. intros HN. unfold finish. destruct (N =? 2 ^ 53); by apply mk_le_infinity. Qed.

Lemma approx_mono v1 v2 f1 f2 :
  approx v1 f1 → approx v2 f2 → vle v1 v2 → SFleb f1 f2 = true.
Proof.
  destruct v1 as [x1|], v2 as [x2|]; cbn; try done.
  - intros [[H1 [s1 ->]]|[H1 R1]] [[H2 [s2 ->]]|[H2 R2]] Hle.
    + done.
    + destruct R2 as (E & N & _ & _ & HN & ->). apply zero_le_finish. lia.
    + lra.
    + by eapply rounded_mono.
  - intros [[H1 [s1 ->]]|[H1 R1]] -> _; [done|].
    destruct R1 as (E & N & _ & _ & HN & ->). apply finish_le_infinity. lia.
  - by intros -> ->.
Qed.

Lemma approx_nonneg v f : approx v f → SFleb (S754_zero false) f = true.
Proof.
  intros H. apply (approx_mono (Some 0%Q) v); [left; split; [done|by exists false]|done|].
  destruct v as [x|]; cbn; [|done].
  destruct H as [[-> _]|[H _]]; [done|by apply Qlt_le_weak].
Qed.

(** A float of the format is its own rounding. *)
Lemma valid_canonic m e :
  valid_binary (S754_finite false m e) = true →
  canonic (inject_Z (Zpos m) * pow2 e) e ∧ e ≤ 971.
Proof.
  cbn. unfold bounded, canonical_mantissa.
  intros [Hc%Z.eqb_eq He%Z.leb_le]%andb_prop. split; [|exact He].
  rewrite <-Hc at 2. apply (located_canonic (Zpos m) loc_Exact).
  - split; [done|]. cbn. apply rescale.
  - cbn [Zdigits2]. lia.
Qed.

Lemma valid_rounded m e :
  valid_binary (S754_finite false m e) = true →
  rounded (inject_Z (Zpos m) * pow2 e) (S754_finite false m e).
Proof.
  intros Hv. destruct (valid_canonic m e Hv) as [Hcan He].
  assert (Zpos m < 2 ^ 53) as Hm.
  { destruct Hcan as (_ & Hhi & _). apply Q2Z_lt. rewrite <-pow2_Z by lia.
    rewrite (pow2_add e 53), Qmult_comm in Hhi.
    apply Qmult_lt_l in Hhi; [done|apply pow2_pos]. }
  exists e, (Zpos m). split; [done|]. split; [|split; [lia|]].
  - assert (inject_Z (Zpos m) * pow2 e * pow2 (- e) == inject_Z (Zpos m))%Q as Hy.
    { apply rescale. }
    split; [rewrite Hy; lra|]. split; rewrite Hy; intros ?; lra.
  - unfold finish, mk. destruct (Z.eqb_spec (Zpos m) (2 ^ 53)); [lia|].
    by destruct (Z.leb_spec e 971); [|lia].
Qed.

Lemma nonneg_cases f :
  nonneg f →
  (∃ s, f = S754_zero s) ∨ f = S754_infinity false ∨
  ∃ m e, f = S754_finite false m e ∧ valid_binary f = true.
Proof.
  intros [Hv Hle]. destruct f as [s|[]| |[] m e]; try done.
  - left. by exists s.
  - by right; left.
  - right; right. by exists m, e.
Qed.

Lemma approx_value f : nonneg f → approx (value f) f.
Proof.
  intros [[s ->]|[->|(m & e & -> & Hv)]]%nonneg_cases; cbn.
  - left. split; [done|by exists s].
  - done.
  - right. split; [|by apply valid_rounded].
    apply Qmult_lt_0_compat; [done|apply pow2_pos].
Qed.

Lemma value_le a b : nonneg a → nonneg b → SFleb a b = true → vle (value a) (value b).
Proof.
  intros [[sa ->]|[->|(ma & ea & -> & Hva)]]%nonneg_cases
         [[sb ->]|[->|(mb & eb & -> & Hvb)]]%nonneg_cases; cbn; try done.
  - intros _. apply Qlt_le_weak, Qmult_lt_0_compat; [done|apply pow2_pos].
  - unfold SFleb, SFcompare.
    destruct (valid_canonic ma ea Hva) as [(_ & Hhi & _) _].
    destruct (valid_canonic mb eb Hvb) as [(Hmin & _ & Hlo) _].
    destruct (valid_canonic ma ea Hva) as [(Hmin' & _ & _) _].
    destruct (Z.compare_spec ea eb) as [->|Hlt|Hgt]; [| |done].
    + change (Pos.compare_cont Eq ma mb) with (ma ?= mb)%positive.
      destruct (Pos.compare_spec ma mb) as [->|Hlt|Hgt]; [lra| |done].
      intros _. apply Qmult_le_compat_r; [|apply Qlt_le_weak, pow2_pos].
      apply Z2Q_le. lia.
    + intros _. apply Qlt_le_weak. eapply Qlt_le_trans; [exact Hhi|].
      eapply Qle_trans; [|apply Hlo; lia]. apply pow2_le. lia.
Qed.

(** *** Addition *)

Lemma iter_xO m d : Zpos (Pos.iter xO m d) = Zpos m * 2 ^ Zpos d.
Proof.
  induction d as [|d IH] using Pos.peano_ind.
  - cbn. lia.
  - rewrite Pos.iter_succ, Pos2Z.inj_succ, Z.pow_succ_r by lia.
    rewrite Pos2Z.inj_xO, IH. lia.
Qed.

Lemma shl_align_spec mx ex ex' :
  ∃ k, 0 ≤ k ∧ Zpos (shl_align mx ex ex').1 = Zpos mx * 2 ^ k ∧
       (shl_align mx ex ex').2 + k = ex ∧ (shl_align mx ex ex').2 = Z.min ex ex'.
Proof.
  unfold shl_align. destruct (ex' - ex) as [|d|d] eqn:E; cbn [fst snd].
  - exists 0. rewrite Z.pow_0_r. lia.
  - exists 0. rewrite Z.pow_0_r. lia.
  - exists (Zpos d). rewrite iter_xO. lia.
Qed.

Lemma digits2_pos_unique m d :
  2 ^ (d - 1) ≤ Zpos m < 2 ^ d → Zpos (digits2_pos m) = d.
Proof.
  intros [Hlo Hhi]. pose proof (digits2_pos_spec m) as [Hlo' Hhi'].
  assert (0 < d).
  { destruct (Z_lt_le_dec 0 d) as [|Hd]; [done|].
    destruct d as [|d|d]; [cbn in Hhi; lia|lia|]. rewrite Z.pow_neg_r in Hhi; lia. }
  assert (2 ^ (d - 1) < 2 ^ Zpos (digits2_pos m)) as H1 by lia.
  assert (2 ^ (Zpos (digits2_pos m) - 1) < 2 ^ d) as H2 by lia.
  apply Z.pow_lt_mono_r_iff in H1; [|lia..].
  apply Z.pow_lt_mono_r_iff in H2; lia.
Qed.

Lemma digits2_pos_shift m m' k :
  0 ≤ k → Zpos m' = Zpos m * 2 ^ k →
  Zpos (digits2_pos m') = Zpos (digits2_pos m) + k.
Proof.
  intros Hk Hm. pose proof (digits2_pos_spec m) as [Hlo Hhi].
  apply digits2_pos_unique. rewrite Hm.
  replace (Zpos (digits2_pos m) + k - 1) with (Zpos (digits2_pos m) - 1 + k) by lia.
  rewrite !Z.pow_add_r by lia.
  assert (0 < 2 ^ k) by (apply Z.pow_pos_nonneg; lia). nia.
Qed.

Lemma binary_round_rounded m e :
  rounded (inject_Z (Zpos m) * pow2 e) (binary_round prec emax false m e).
Proof.
  unfold binary_round.
  destruct (shl_align_spec m e (SpecFloat.fexp prec emax (Zpos (digits2_pos m) + e)))
    as (k & Hk & Hm & He & Hmin).
  destruct (shl_align m e (SpecFloat.fexp prec emax (Zpos (digits2_pos m) + e)))
    as [mz ez]. cbn [fst snd] in *.
  apply binary_round_aux_rounded.
  - split; [done|]. cbn. rewrite Hm, <-He, inject_Z_mult, <-pow2_Z by done.
    rewrite (pow2_add ez k).
    transitivity (inject_Z (Zpos m) * pow2 k * (pow2 ez * pow2 (- ez)))%Q; [ring|].
    rewrite pow2_opp. ring.
  - cbn [Zdigits2]. rewrite (digits2_pos_shift m mz k Hk Hm).
    replace (Zpos (digits2_pos m) + k + ez) with (Zpos (digits2_pos m) + e) by lia. lia.
Qed.

Lemma SFadd_finite m1 e1 m2 e2 :
  rounded (inject_Z (Zpos m1) * pow2 e1 + inject_Z (Zpos m2) * pow2 e2)
    (SFadd prec emax (S754_finite false m1 e1) (S754_finite false m2 e2)).
Proof.
  unfold SFadd.
  destruct (shl_align_spec m1 e1 (Z.min e1 e2)) as (k1 & Hk1 & Hm1 & He1 & Hmin1).
  destruct (shl_align_spec m2 e2 (Z.min e1 e2)) as (k2 & Hk2 & Hm2 & He2 & Hmin2).
  destruct (shl_align m1 e1 (Z.min e1 e2)) as [m1' e1'].
  destruct (shl_align m2 e2 (Z.min e1 e2)) as [m2' e2']. cbn [fst snd cond_Zopp] in *.
  change (Zpos m1' + Zpos m2') with (Zpos (m1' + m2')). cbn [binary_normalize].
  eapply rounded_proper; [|apply binary_round_rounded].
  rewrite Pos2Z.inj_add, inject_Z_plus, Hm1, Hm2, !inject_Z_mult, <-!pow2_Z by done.
  assert (e1 = Z.min e1 e2 + k1) as Heq1 by lia.
  assert (e2 = Z.min e1 e2 + k2) as Heq2 by lia.
  rewrite Heq1 at 2. rewrite Heq2 at 3. rewrite !pow2_add. ring.
Qed.

Lemma SFadd_approx a b :
  nonneg a → nonneg b → approx (vadd (value a) (value b)) (SFadd prec emax a b).
Proof.
  intros Ha Hb. pose proof (approx_value a Ha) as Ha'. pose proof (approx_value b Hb) as Hb'.
  destruct (nonneg_cases a Ha) as [[sa ->]|[->|(ma & ea & -> & Hva)]],
           (nonneg_cases b Hb) as [[sb ->]|[->|(mb & eb & -> & Hvb)]]; cbn [value vadd].
  - left. split; [done|]. cbn. destruct sa, sb; eauto.
  - done.
  - cbn [SFadd]. eapply approx_proper; [|exact Hb']. cbn. ring.
  - done.
  - done.
  - done.
  - cbn [SFadd]. eapply approx_proper; [|exact Ha']. cbn. ring.
  - done.
  - right. split; [|apply SFadd_finite].
    assert (0 < inject_Z (Zpos ma) * pow2 ea)%Q
      by (apply Qmult_lt_0_compat; [done|apply pow2_pos]).
    assert (0 < inject_Z (Zpos mb) * pow2 eb)%Q
      by (apply Qmult_lt_0_compat; [done|apply pow2_pos]).
    lra.
Qed.

(** *** Multiplication *)

Lemma canonical_digits m e :
  valid_binary (S754_finite false m e) = true →
  SpecFloat.fexp prec emax (Zpos (digits2_pos m) + e) = e.
Proof.
  cbn. unfold bounded, canonical_mantissa. by intros [Hc%Z.eqb_eq _]%andb_prop.
Qed.

Lemma digits2_pos_mul m1 m2 :
  Zpos (digits2_pos m1) + Zpos (digits2_pos m2) - 1 ≤ Zpos (digits2_pos (m1 * m2)).
Proof.
  pose proof (digits2_pos_spec m1) as [H1 _]. pose proof (digits2_pos_spec m2) as [H2 _].
  pose proof (digits2_pos_spec (m1 * m2)) as [_ H].
  assert (2 ^ (Zpos (digits2_pos m1) - 1 + (Zpos (digits2_pos m2) - 1))
          < 2 ^ Zpos (digits2_pos (m1 * m2))) as Hlt.
  { rewrite Z.pow_add_r by lia. rewrite Pos2Z.inj_mul in H.
    assert (0 < 2 ^ (Zpos (digits2_pos m1) - 1)) by (apply Z.pow_pos_nonneg; lia).
    assert (0 < 2 ^ (Zpos (digits2_pos m2) - 1)) by (apply Z.pow_pos_nonneg; lia).
    nia. }
  apply Z.pow_lt_mono_r_iff in Hlt; lia.
Qed.

Lemma SFmul_finite m1 e1 m2 e2 :
  valid_binary (S754_finite false m1 e1) = true →
  valid_binary (S754_finite false m2 e2) = true →
  rounded (inject_Z (Zpos m1) * pow2 e1 * (inject_Z (Zpos m2) * pow2 e2))
    (SFmul prec emax (S754_finite false m1 e1) (S754_finite false m2 e2)).
Proof.
  intros H1%canonical_digits H2%canonical_digits. cbn [SFmul xorb].
  apply binary_round_aux_rounded.
  - apply located_exact; [done|]. rewrite Pos2Z.inj_mul, inject_Z_mult.
    transitivity (inject_Z (Zpos m1) * inject_Z (Zpos m2)
                  * (pow2 (e1 + e2) * pow2 (- (e1 + e2))))%Q;
      [rewrite (pow2_add e1 e2); ring|].
    rewrite pow2_opp. ring.
  - cbn [Zdigits2]. pose proof (digits2_pos_mul m1 m2).
    pose proof (Pos2Z.is_pos (digits2_pos m1)). pose proof (Pos2Z.is_pos (digits2_pos m2)).
    fexp_lia.
Qed.

Lemma SFmul_approx m e a :
  valid_binary (S754_finite false m e) = true → nonneg a →
  approx (vscale (inject_Z (Zpos m) * pow2 e) (value a))
    (SFmul prec emax (S754_finite false m e) a).
Proof.
  intros Hv Ha.
  destruct (nonneg_cases a Ha) as [[sa ->]|[->|(ma & ea & -> & Hva)]]; cbn [value vscale].
  - left. split; [ring|]. cbn. eauto.
  - done.
  - right. split; [|by apply SFmul_finite].
    repeat apply Qmult_lt_0_compat; try done; apply pow2_pos.
Qed.

(** *** Division *)

Lemma Qmult_cancel_lt a b c : (0 < c)%Q → (a * c < b * c)%Q → (a < b)%Q.
Proof. intros Hc. by apply Qmult_lt_r. Qed.

Lemma Qmult_cancel_eq a b c : (0 < c)%Q → (a * c == b * c)%Q → (a == b)%Q.
Proof. intros Hc H. apply Qmult_inj_r in H; [done|]. lra. Qed.

Lemma new_location_located (d q r : Z) (y : Q) :
  0 < d → 0 ≤ q → 0 ≤ r < d →
  (y * inject_Z d == inject_Z (d * q + r))%Q →
  located (shr_record_of_loc q (new_location d r)) y.
Proof.
  intros Hd Hq Hr Hy.
  rewrite inject_Z_plus, inject_Z_mult in Hy.
  assert (0 < inject_Z d)%Q as Hd' by (by apply (Z2Q_lt 0)).
  assert (0 <= inject_Z r)%Q as Hr0 by (apply (Z2Q_le 0); lia).
  assert (loc_cases :
    (r = 0 ∧ new_location d r = loc_Exact) ∨
    (0 < r ∧ 2 * r < d ∧ new_location d r = loc_Inexact Lt) ∨
    (2 * r = d ∧ new_location d r = loc_Inexact Eq) ∨
    (d < 2 * r ∧ new_location d r = loc_Inexact Gt)).
  { unfold new_location, new_location_even, new_location_odd.
    destruct (Z.even d) eqn:Heven; cbv beta;
      (destruct (Z.eqb_spec r 0) as [->|Hne]; [by left|right]).
    - destruct (Z.compare_spec (2 * r) d); [right; left|left|right; right];
        repeat split; lia || done.
    - assert (2 * r ≠ d).
      { intros <-. rewrite Z.even_mul in Heven. done. }
      destruct (Z.compare_spec (2 * r + 1) d); [left|left|right; right];
        repeat split; lia || done. }
  split; [by destruct (new_location d r) as [|[]]|].
  destruct loc_cases as [[-> ->]|[(H0 & Hlt & ->)|[[Heq ->]|[Hgt ->]]]];
    unfold inbetween; cbn [shr_record_of_loc shr_m shr_r shr_s].
  - apply (Qmult_cancel_eq _ _ (inject_Z d) Hd'). change (inject_Z 0) with 0%Q in Hy. lra.
  - apply Z2Q_lt in H0, Hlt. rewrite inject_Z_mult in Hlt.
    change (inject_Z 0) with 0%Q in H0. change (inject_Z 2) with 2%Q in Hlt.
    split; apply (Qmult_cancel_lt _ _ (inject_Z d) Hd'); lra.
  - assert (inject_Z 2 * inject_Z r == inject_Z d)%Q as Hh
      by (by rewrite <-inject_Z_mult, Heq).
    change (inject_Z 2) with 2%Q in Hh.
    apply (Qmult_cancel_eq _ _ (inject_Z d) Hd'). lra.
  - destruct Hr as [_ Hr]. apply Z2Q_lt in Hgt, Hr. rewrite inject_Z_mult in Hgt.
    change (inject_Z 2) with 2%Q in Hgt.
    split; apply (Qmult_cancel_lt _ _ (inject_Z d) Hd'); lra.
Qed.

Lemma fexp_mono a b :
  a ≤ b → SpecFloat.fexp prec emax a ≤ SpecFloat.fexp prec emax b.
Proof. fexp_lia. Qed.

Lemma SFdiv_core_located p1 e1 p2 e2 x :
  (x * (inject_Z (Zpos p2) * pow2 e2) == inject_Z (Zpos p1) * pow2 e1)%Q →
  located (shr_record_of_loc (SFdiv_core_binary prec emax (Zpos p1) e1 (Zpos p2) e2).1.1
             (SFdiv_core_binary prec emax (Zpos p1) e1 (Zpos p2) e2).2)
    (x * pow2 (- (SFdiv_core_binary prec emax (Zpos p1) e1 (Zpos p2) e2).1.2)) ∧
  (SFdiv_core_binary prec emax (Zpos p1) e1 (Zpos p2) e2).1.2
  ≤ SpecFloat.fexp prec emax
      (Zdigits2 (SFdiv_core_binary prec emax (Zpos p1) e1 (Zpos p2) e2).1.1
       + (SFdiv_core_binary prec emax (Zpos p1) e1 (Zpos p2) e2).1.2).
Proof.
  intros Hx. unfold SFdiv_core_binary. cbn [Zdigits2].
  set (d1 := Zpos (digits2_pos p1)). set (d2 := Zpos (digits2_pos p2)).
  set (e' := Z.min (SpecFloat.fexp prec emax (d1 + e1 - (d2 + e2))) (e1 - e2)).
  set (s := e1 - e2 - e').
  assert (0 ≤ s) as Hs by (unfold s, e'; lia).
  set (m' := match s with Zpos _ => Z.shiftl (Zpos p1) s | Z0 => Zpos p1 | Zneg _ => 0 end).
  assert (m' = Zpos p1 * 2 ^ s) as Hm'.
  { unfold m'. destruct s as [|s|s]; [lia| |lia]. by rewrite Z.shiftl_mul_pow2. }
  clearbody m'.
  pose proof (Z_div_mod m' (Zpos p2) eq_refl) as Hdiv.
  destruct (Z.div_eucl m' (Zpos p2)) as [q r]. destruct Hdiv as [Hqr Hr].
  cbn [fst snd].
  pose proof (digits2_pos_spec p1) as [Hlo1 Hhi1].
  pose proof (digits2_pos_spec p2) as [Hlo2 Hhi2]. fold d1 in Hlo1, Hhi1. fold d2 in Hlo2, Hhi2.
  assert (0 < 2 ^ s) as Hpow by (apply Z.pow_pos_nonneg; lia).
  assert (0 ≤ q) as Hq by nia.
  split.
  - apply new_location_located; [done..|].
    rewrite <-Hqr, Hm', inject_Z_mult, <-pow2_Z by done.
    assert (e1 = s + e' + e2) as He1 by (unfold s; lia).
    rewrite He1, !pow2_add in Hx.
    apply (Qmult_cancel_eq _ _ (pow2 e2 * pow2 e')); [|].
    { apply Qmult_lt_0_compat; apply pow2_pos. }
    transitivity (x * (inject_Z (Zpos p2) * pow2 e2) * (pow2 (- e') * pow2 e'))%Q; [ring|].
    rewrite Hx, (Qmult_comm (pow2 (- e'))), pow2_opp. ring.
  - destruct (Z_le_gt_dec (d1 + e1 - (d2 + e2)) (Zdigits2 q + e')) as [Hle|Hgt].
    { apply fexp_mono in Hle. unfold e' at 1. lia. }
    exfalso. pose proof (Zdigits2_bound q Hq) as Hqd.
    pose proof (Zdigits2_nonneg q) as Hqd0.
    assert (Zdigits2 q ≤ d1 - d2 + s - 1) as Hk by (unfold s; lia).
    assert (2 ^ Zdigits2 q ≤ 2 ^ (d1 - d2 + s - 1)) as Hp by (apply Z.pow_le_mono_r; lia).
    assert (2 ^ (d1 - 1 + s) = 2 ^ (d1 - d2 + s - 1) * 2 ^ d2) as Hsplit.
    { rewrite <-Z.pow_add_r by lia. f_equal. lia. }
    assert (2 ^ (d1 - 1 + s) ≤ m') as Hm.
    { rewrite Hm', Z.pow_add_r by lia. nia. }
    assert (0 < 2 ^ (d1 - d2 + s - 1)) by (apply Z.pow_pos_nonneg; lia).
    nia.
Qed.

Lemma SFdiv_rounded p1 e1 p2 e2 x :
  (x * (inject_Z (Zpos p2) * pow2 e2) == inject_Z (Zpos p1) * pow2 e1)%Q →
  rounded x
    (let '(mz, ez, lz) := SFdiv_core_binary prec emax (Zpos p1) e1 (Zpos p2) e2 in
     binary_round_aux prec emax false mz ez lz).
Proof.
  intros Hx. destruct (SFdiv_core_located p1 e1 p2 e2 x Hx) as [Hloc Hdig].
  destruct (SFdiv_core_binary prec emax (Zpos p1) e1 (Zpos p2) e2) as [[mz ez] lz].
  cbn [fst snd] in *. by apply binary_round_aux_rounded.
Qed.

(** *** The order of the floats *)

Lemma SFleb_key f g :
  SFleb f g = true ↔ ∃ k k', key f = Some k ∧ key g = Some k' ∧ lexle k k'.
Proof.
  assert (∀ k k' : Z * Z * Z, (∃ a b, Some k = Some a ∧ Some k' = Some b ∧ lexle a b)
                              ↔ lexle k k') as Hsome.
  { intros k k'. split; [by intros (a & b & [= <-] & [= <-] & ?)|by exists k, k']. }
  assert (∀ o : option (Z * Z * Z), (∃ a b, None = Some a ∧ o = Some b ∧ lexle a b)
                                    ↔ False) as Hnone.
  { intros o. split; [by intros (a & b & [=] & _)|done]. }
  assert (∀ k : Z * Z * Z, (∃ a b, Some k = Some a ∧ None = Some b ∧ lexle a b)
                           ↔ False) as Hnone'.
  { intros o. split; [by intros (a & b & _ & [=] & _)|done]. }
  destruct f as [sf|[]| |[] mf ef], g as [sg|[]| |[] mg eg];
    cbn [key]; rewrite ?Hsome, ?Hnone, ?Hnone';
    unfold SFleb, SFcompare, lexle; cbn [fst snd];
    try (split; [done|lia]); try (split; [lia|done]); try (by destruct sf);
    try (by destruct sg); try (split; [intros _; lia|done]).
  - destruct (Z.compare_spec ef eg) as [->|Hlt|Hgt].
    + change (Pos.compare_cont Eq mf mg) with (mf ?= mg)%positive.
      destruct (Pos.compare_spec mf mg); cbn; split; (done || lia).
    + split; [done|lia].
    + split; [intros _; lia|done].
  - destruct (Z.compare_spec ef eg) as [->|Hlt|Hgt].
    + change (Pos.compare_cont Eq mf mg) with (mf ?= mg)%positive.
      destruct (Pos.compare_spec mf mg); cbn; split; (done || lia).
    + split; [intros _; lia|done].
    + split; [done|lia].
Qed.

Lemma lexle_trans a b c : lexle a b → lexle b c → lexle a c.
Proof. unfold lexle. lia. Qed.

Lemma lexle_refl a : lexle a a.
Proof. unfold lexle. lia. Qed.

Lemma SFleb_trans f g h : SFleb f g = true → SFleb g h = true → SFleb f h = true.
Proof.
  rewrite !SFleb_key. intros (a & b & Ha & Hb & Hab) (b' & c & Hb' & Hc & Hbc).
  rewrite Hb in Hb'. injection Hb' as <-. exists a, c. split; [done|]. split; [done|].
  by eapply lexle_trans.
Qed.

Lemma SFleb_refl f : f ≠ S754_nan → SFleb f f = true.
Proof.
  intros Hf. apply SFleb_key. destruct (key f) as [k|] eqn:E; [|by destruct f as [|[]| |[]]].
  exists k, k. split; [done|]. split; [done|]. apply lexle_refl.
Qed.

Lemma SFleb_not_nan f g : SFleb f g = true → f ≠ S754_nan ∧ g ≠ S754_nan.
Proof. intros H. split; intros ->; [done|]. by destruct f as [|[]| |[]]. Qed.

Lemma SFltb_not_nan f g : SFltb f g = true → f ≠ S754_nan.
Proof. by intros H ->. Qed.

(** *** The results of rounding are floats of the format *)

Lemma rounded_valid x f : rounded x f → valid_binary f = true.
Proof.
  intros (E & N & (HE & Hhi & Hlo) & [[_ Hu] _] & HN & ->). unfold finish, mk.
  destruct (Z.eqb_spec N (2 ^ 53)) as [->|Hne].
  - change (2 ^ 52) with (Zpos (2 ^ 52)). destruct (Z.leb_spec (E + 1) 971); [|done].
    cbn. unfold bounded, canonical_mantissa. apply andb_true_intro. split.
    + apply Z.eqb_eq. change (Zpos (digits2_pos (2 ^ 52))) with 53. fexp_lia.
    + apply Z.leb_le. unfold emax, prec. lia.
  - destruct N as [|p|p]; [done| |lia]. destruct (Z.leb_spec E 971); [|done].
    cbn. unfold bounded, canonical_mantissa. apply andb_true_intro. split.
    + apply Z.eqb_eq.
      assert (Zpos (digits2_pos p) ≤ 53) as Hd by (apply (Zdigits2_le (Zpos p)); lia).
      destruct (Z.eq_dec E (-1074)) as [->|HE']; [fexp_lia|].
      assert (53 ≤ Zpos (digits2_pos p)); [|fexp_lia].
      assert (pow2 52 <= x * pow2 (- E))%Q as Hy.
      { apply scale_le'. rewrite <-pow2_add. replace (52 + E) with (E + 52) by lia.
        apply Hlo. lia. }
      rewrite pow2_Z in Hy by lia.
      assert (2 ^ 52 < Zpos p + 1) as Hp.
      { apply Q2Z_lt. rewrite inject_Z_plus. change (inject_Z 1) with 1%Q. lra. }
      pose proof (digits2_pos_spec p) as [_ Hp'].
      assert (2 ^ 52 < 2 ^ Zpos (digits2_pos p)) as Hlt by lia.
      apply Z.pow_lt_mono_r_iff in Hlt; lia.
    + apply Z.leb_le. unfold emax, prec. lia.
Qed.

(** *** Division by a float and the ratio of two integers *)

Lemma SFdiv_approx a m e :
  nonneg a →
  approx (vscale (/ (inject_Z (Zpos m) * pow2 e)) (value a))
    (SFdiv prec emax a (S754_finite false m e)).
Proof.
  intros Ha.
  assert (0 < inject_Z (Zpos m) * pow2 e)%Q as Hpos
    by (apply Qmult_lt_0_compat; [done|apply pow2_pos]).
  destruct (nonneg_cases a Ha) as [[sa ->]|[->|(ma & ea & -> & Hva)]]; cbn [value vscale].
  - left. split; [ring|]. cbn. eauto.
  - done.
  - right. split.
    + apply Qmult_lt_0_compat; [by apply Qinv_lt_0_compat|].
      apply Qmult_lt_0_compat; [done|apply pow2_pos].
    + cbn [SFdiv xorb]. apply SFdiv_rounded.
      set (K := (inject_Z (Zpos m) * pow2 e)%Q) in *.
      transitivity (inject_Z (Zpos ma) * pow2 ea * (K * / K))%Q; [ring|].
      rewrite Qmult_inv_r by lra. ring.
Qed.

Lemma nearest_rounded n d :
  rounded (inject_Z (Zpos n) * / inject_Z (Zpos d)) (Float64.nearest false n d).
Proof.
  unfold Float64.nearest. apply SFdiv_rounded. change (pow2 0) with 1%Q.
  transitivity (inject_Z (Zpos n) * (inject_Z (Zpos d) * / inject_Z (Zpos d)))%Q; [ring|].
  rewrite Qmult_inv_r by done. ring.
Qed.

Lemma ratio_approx n d :
  0 ≤ n →
  approx (Some (inject_Z n * / inject_Z (Zpos d))%Q) (Prim2SF (Float64.ratio n (Zpos d))).
Proof.
  intros Hn. destruct n as [|n|n]; [| |lia]; cbn [Float64.ratio].
  - left. split; [ring|]. by exists false.
  - right. pose proof (nearest_rounded n d) as Hr.
    rewrite Prim2SF_SF2Prim by (by eapply rounded_valid). split; [|done].
    apply Qmult_lt_0_compat; [done|]. by apply Qinv_lt_0_compat.
Qed.

(** *** The laws *)

Lemma prim_nonneg a : PrimFloat.leb PrimFloat.zero a = true → nonneg (Prim2SF a).
Proof. rewrite leb_spec. intros H. split; [apply Prim2SF_valid|exact H]. Qed.

Lemma value_nonneg f : nonneg f → vle (Some 0%Q) (value f).
Proof.
  intros [[s ->]|[->|(m & e & -> & Hv)]]%nonneg_cases; cbn; [done..|].
  apply Qlt_le_weak, Qmult_lt_0_compat; [done|apply pow2_pos].
Qed.

Lemma vadd_mono a b c d : vle a b → vle c d → vle (vadd a c) (vadd b d).
Proof. destruct a, b, c, d; cbn; try done. intros. lra. Qed.

Lemma vscale_mono x a b : (0 < x)%Q → vle a b → vle (vscale x a) (vscale x b).
Proof.
  intros Hx. destruct a, b; cbn; try done. intros. by apply Qmult_le_l.
Qed.

Lemma nonneg_le f g : nonneg f → valid_binary g = true → SFleb f g = true → nonneg g.
Proof. intros [_ Hf] Hg Hle. split; [done|by eapply SFleb_trans]. Qed.

Lemma leb_trans a b c :
  PrimFloat.leb a b = true → PrimFloat.leb b c = true → PrimFloat.leb a c = true.
Proof. rewrite !leb_spec. apply SFleb_trans. Qed.

Lemma leb_refl_ltb a b : PrimFloat.ltb a b = true → PrimFloat.leb a a = true.
Proof. rewrite ltb_spec, leb_spec. intros H%SFltb_not_nan. by apply SFleb_refl. Qed.

Lemma add_defined a b :
  PrimFloat.leb (a + b) (a + b) = true →
  PrimFloat.leb a a = true ∧ PrimFloat.leb b b = true.
Proof.
  rewrite !leb_spec, add_spec. intros [H _]%SFleb_not_nan.
  split; apply SFleb_refl; intros E; rewrite E in H;
    [done|by destruct (Prim2SF a) as [|[]| |]].
Qed.

Lemma add_mono a b c d :
  PrimFloat.leb PrimFloat.zero a = true → PrimFloat.leb a b = true →
  PrimFloat.leb PrimFloat.zero c = true → PrimFloat.leb c d = true →
  PrimFloat.leb (a + c) (b + d) = true.
Proof.
  intros Ha Hab Hc Hcd.
  pose proof (prim_nonneg b (leb_trans _ _ _ Ha Hab)) as Hb.
  pose proof (prim_nonneg d (leb_trans _ _ _ Hc Hcd)) as Hd.
  apply prim_nonneg in Ha, Hc. rewrite leb_spec in Hab, Hcd.
  rewrite leb_spec, !add_spec.
  eapply approx_mono; [by apply SFadd_approx..|].
  apply vadd_mono; by apply value_le.
Qed.

Lemma add_nonneg a b :
  PrimFloat.leb PrimFloat.zero a = true → PrimFloat.leb PrimFloat.zero b = true →
  PrimFloat.leb PrimFloat.zero (a + b) = true.
Proof.
  intros Ha%prim_nonneg Hb%prim_nonneg. rewrite leb_spec, add_spec.
  eapply approx_nonneg. by apply SFadd_approx.
Qed.

Lemma add_increases a e :
  PrimFloat.leb PrimFloat.zero a = true → PrimFloat.leb PrimFloat.zero e = true →
  PrimFloat.leb a (a + e) = true.
Proof.
  intros Ha%prim_nonneg He%prim_nonneg. rewrite leb_spec, add_spec.
  eapply approx_mono; [by apply approx_value|by apply SFadd_approx|].
  pose proof (value_nonneg _ He) as H0.
  destruct (value (Prim2SF a)) as [x|], (value (Prim2SF e)) as [y|]; cbn in *; try done.
  lra.
Qed.

Lemma mul_mono w a b :
  PrimFloat.leb PrimFloat.zero w = true → PrimFloat.leb PrimFloat.zero a = true →
  PrimFloat.leb a b = true →
  PrimFloat.leb (w * a) (w * a) = true → PrimFloat.leb (w * b) (w * b) = true →
  PrimFloat.leb (w * a) (w * b) = true.
Proof.
  intros Hw Ha Hab.
  pose proof (prim_nonneg b (leb_trans _ _ _ Ha Hab)) as Hb.
  apply prim_nonneg in Hw, Ha. rewrite leb_spec in Hab.
  rewrite !leb_spec, !mul_spec. unfold SF64mul.
  intros [Hwa _]%SFleb_not_nan [Hwb _]%SFleb_not_nan.
  pose proof (value_le _ _ Ha Hb Hab) as Hle.
  destruct (nonneg_cases _ Hw) as [[sw Ew]|[Ew|(mw & ew & Ew & Hvw)]]; rewrite Ew in *.
  - destruct (nonneg_cases _ Ha) as [[sa Ea]|[Ea|(ma & ea & Ea & _)]]; rewrite Ea in *;
      destruct (nonneg_cases _ Hb) as [[sb Eb]|[Eb|(mb & eb & Eb & _)]]; rewrite Eb in *;
      done.
  - destruct (nonneg_cases _ Ha) as [[sa Ea]|[Ea|(ma & ea & Ea & _)]]; rewrite Ea in *;
      destruct (nonneg_cases _ Hb) as [[sb Eb]|[Eb|(mb & eb & Eb & _)]]; rewrite Eb in *;
      done.
  - eapply approx_mono; [by apply SFmul_approx..|].
    apply vscale_mono; [|done]. apply Qmult_lt_0_compat; [done|apply pow2_pos].
Qed.

Lemma mul_nonneg w a :
  PrimFloat.leb PrimFloat.zero w = true → PrimFloat.leb PrimFloat.zero a = true →
  PrimFloat.leb (w * a) (w * a) = true →
  PrimFloat.leb PrimFloat.zero (w * a) = true.
Proof.
  intros Hw%prim_nonneg Ha%prim_nonneg.
  rewrite !leb_spec, !mul_spec. unfold SF64mul. intros [Hwa _]%SFleb_not_nan.
  destruct (nonneg_cases _ Hw) as [[sw Ew]|[Ew|(mw & ew & Ew & Hvw)]]; rewrite Ew in *.
  - by destruct (nonneg_cases _ Ha) as [[sa Ea]|[Ea|(ma & ea & Ea & _)]]; rewrite Ea in *.
  - by destruct (nonneg_cases _ Ha) as [[sa Ea]|[Ea|(ma & ea & Ea & _)]]; rewrite Ea in *.
  - eapply approx_nonneg. by apply SFmul_approx.
Qed.

Lemma divisor k :
  k = 100 ∨ k = 60 → ∃ m e, Prim2SF (Float64.ratio k 1) = S754_finite false m e.
Proof. intros [->| ->]; vm_compute; eauto. Qed.

Lemma div_mono k a b :
  k = 100 ∨ k = 60 → PrimFloat.leb PrimFloat.zero a = true → PrimFloat.leb a b = true →
  PrimFloat.leb (a / Float64.ratio k 1) (b / Float64.ratio k 1) = true.
Proof.
  intros (m & e & Hk)%divisor Ha Hab.
  pose proof (prim_nonneg b (leb_trans _ _ _ Ha Hab)) as Hb.
  apply prim_nonneg in Ha. rewrite leb_spec in Hab.
  rewrite leb_spec, !div_spec, Hk. unfold SF64div.
  eapply approx_mono; [by apply SFdiv_approx..|].
  apply vscale_mono; [|by apply value_le].
  apply Qinv_lt_0_compat, Qmult_lt_0_compat; [done|apply pow2_pos].
Qed.

Lemma div_nonneg k a :
  k = 100 ∨ k = 60 → PrimFloat.leb PrimFloat.zero a = true →
  PrimFloat.leb PrimFloat.zero (a / Float64.ratio k 1) = true.
Proof.
  intros (m & e & Hk)%divisor Ha%prim_nonneg.
  rewrite leb_spec, !div_spec, Hk. unfold SF64div.
  eapply approx_nonneg. by apply SFdiv_approx.
Qed.

Lemma ratio_mono n m :
  0 ≤ n ≤ m → PrimFloat.leb (Float64.ratio n 25) (Float64.ratio m 25) = true.
Proof.
  intros [Hn Hm]. rewrite leb_spec.
  eapply approx_mono; [apply ratio_approx; lia..|]. cbn.
  apply Qmult_le_compat_r; [by apply Z2Q_le|done].
Qed.

Lemma ratio_nonneg n : 0 ≤ n → PrimFloat.leb PrimFloat.zero (Float64.ratio n 25) = true.
Proof. intros Hn. rewrite leb_spec. eapply approx_nonneg. by apply ratio_approx. Qed.

End Binary64.


(** IEEE binary64, with rounding to nearest, obeys the order laws. *)
Lemma float64_monotone : MonotoneFloat float64.
Proof.
  constructor.
  - exact Binary64.leb_trans.
  - reflexivity.
  - exact Binary64.leb_refl_ltb.
  - exact Binary64.add_defined.
  - exact Binary64.add_mono.
  - exact Binary64.add_nonneg.
  - exact Binary64.add_increases.
  - exact Binary64.mul_mono.
  - exact Binary64.mul_nonneg.
  - exact Binary64.div_mono.
  - exact Binary64.div_nonneg.
  - exact Binary64.ratio_mono.
  - exact Binary64.ratio_nonneg.
Qed.

(** ** The score along a path *)

Section Monotone.
Context {F : PyFloat} {M : MonotoneFloat F}.
Variables cost_weight time_weight stops_weight : num.
Variable network : KochiMetroNetwork.
Variable start_station : string.

Hypothesis cost_weight_nonneg : f_le f_zero cost_weight.
Hypothesis time_weight_nonneg : f_le f_zero time_weight.
Hypothesis stops_weight_nonneg : f_le f_zero stops_weight.
Hypothesis attributes_nonneg :
  ∀ u c, c ∈ outgoing (graph network) u →
         f_le f_zero (cost c) ∧ f_le f_zero (travel_time c).

Abbreviation Inv := (invariant cost_weight time_weight stops_weight network start_station).
Abbreviation Composite := (composite cost_weight time_weight stops_weight).

(** The three weighted terms of a score that is a number are numbers. *)
Lemma composite_defined c t s :
  f_le (Composite c t s) (Composite c t s) →
  f_le (f_mul cost_weight (f_div c (f_ratio 100 1)))
       (f_mul cost_weight (f_div c (f_ratio 100 1))) ∧
  f_le (f_mul time_weight (f_div t (f_ratio 60 1)))
       (f_mul time_weight (f_div t (f_ratio 60 1))) ∧
  f_le (f_mul stops_weight (stop_div25 s)) (f_mul stops_weight (stop_div25 s)).
Proof.
  unfold composite. intros [[? ?]%mono_add_defined ?]%mono_add_defined. done.
Qed.

Lemma composite_nonneg c t n :
  f_le f_zero c → f_le f_zero t → 0 ≤ n →
  f_le (Composite c t (Count n)) (Composite c t (Count n)) →
  f_le f_zero (Composite c t (Count n)).
Proof.
  intros Hc Ht Hn (Dc & Dt & Ds)%composite_defined. unfold composite.
  cbn [stop_div25] in *.
  apply mono_add_nonneg; [apply mono_add_nonneg|]; apply mono_mul_nonneg; try done.
  - apply mono_div_nonneg; auto.
  - apply mono_div_nonneg; auto.
  - by apply mono_ratio_nonneg.
Qed.

Lemma composite_mono c t n c' t' n' :
  f_le f_zero c → f_le c c' → f_le f_zero t → f_le t t' → 0 ≤ n ≤ n' →
  f_le (Composite c t (Count n)) (Composite c t (Count n)) →
  f_le (Composite c' t' (Count n')) (Composite c' t' (Count n')) →
  f_le (Composite c t (Count n)) (Composite c' t' (Count n')).
Proof.
  intros Hc Hcc Ht Htt Hn (Dc & Dt & Ds)%composite_defined
    (Dc' & Dt' & Ds')%composite_defined.
  unfold composite. cbn [stop_div25] in *.
  assert (f_le f_zero (f_div c (f_ratio 100 1))) by (apply mono_div_nonneg; auto).
  assert (f_le f_zero (f_div t (f_ratio 60 1))) by (apply mono_div_nonneg; auto).
  assert (f_le f_zero (f_ratio n 25)) by (apply mono_ratio_nonneg; lia).
  apply mono_add; [apply mono_add_nonneg|apply mono_add| |].
  - by apply mono_mul_nonneg.
  - by apply mono_mul_nonneg.
  - by apply mono_mul_nonneg.
  - apply mono_mul; try done. apply mono_div; auto.
  - by apply mono_mul_nonneg.
  - apply mono_mul; try done. apply mono_div; auto.
  - by apply mono_mul_nonneg.
  - apply mono_mul; try done. by apply mono_ratio.
Qed.

(** The totals of a reached station are not negative. *)
Lemma totals_nonneg st (n : nat) : ∀ v,
  Inv st → reached start_station st v →
  stops st !! v = Some (Count (Z.of_nat n)) →
  ∃ c t, costs st !! v = Some c ∧ times st !! v = Some t ∧
         f_le f_zero c ∧ f_le f_zero t.
Proof.
  induction n as [|n IH]; intros v I Hre Hs.
  - assert (v = start_station) as ->.
    { destruct Hre as [?|[u Hu]]; [done|].
      destruct (inv_tree _ _ _ _ _ _ I _ _ Hu) as (_ & _ & R).
      destruct R as (conn & cu & tu & m & _ & _ & _ & _ & Hm & _ & _ & Hv & _).
      destruct (inv_count _ _ _ _ _ _ I _ _ Hm). rewrite Hs in Hv. injection Hv. lia. }
    destruct (inv_origin _ _ _ _ _ _ I) as (_ & _ & Hc & Ht & _).
    exists f_zero, f_zero. split_and!; [done..|apply mono_zero|apply mono_zero].
  - destruct Hre as [->|[u Hu]].
    { destruct (inv_origin _ _ _ _ _ _ I) as (_ & _ & _ & _ & H0).
      rewrite Hs in H0. injection H0. lia. }
    destruct (inv_tree _ _ _ _ _ _ I _ _ Hu) as (_ & Hvis & R).
    destruct R as (conn & cu & tu & m & Hconn & _ & Hcu & Htu & Hm & Hcv & Htv & Hv & _).
    rewrite Hs in Hv. injection Hv as Hv.
    destruct (IH u I) as (cu' & tu' & Hcu' & Htu' & ? & ?).
    + by apply (inv_settled _ _ _ _ _ _ I).
    + rewrite Hm. do 2 f_equal. lia.
    + rewrite Hcu in Hcu'. rewrite Htu in Htu'. injection Hcu' as <-. injection Htu' as <-.
      destruct (attributes_nonneg _ _ Hconn).
      eexists _, _. split_and!; [done..| |]; by apply mono_add_nonneg.
Qed.

(** The score of a station is at least the score of its predecessor. *)
Lemma parent_score st u v :
  Inv st → parent (previous st) u v →
  ∃ du dv, distances st !! u = Some du ∧ distances st !! v = Some dv ∧ f_le du dv.
Proof.
  intros I Hp. destruct (inv_tree _ _ _ _ _ _ I _ _ Hp) as (_ & Hvis & R).
  destruct R as (conn & cu & tu & n & Hconn & _ & Hcu & Htu & Hn & _ & _ & _ & Hdv & old & Hlt).
  apply mono_lt in Hlt. destruct (attributes_nonneg _ _ Hconn) as [Hc Ht].
  destruct (inv_count _ _ _ _ _ _ I _ _ Hn) as [[Hn0 _] _].
  destruct (totals_nonneg st (Z.to_nat n) u I) as (cu' & tu' & Hcu' & Htu' & Hcu0 & Htu0).
  { by apply (inv_settled _ _ _ _ _ _ I). }
  { by rewrite Z2Nat.id. }
  rewrite Hcu in Hcu'. rewrite Htu in Htu'. injection Hcu' as <-. injection Htu' as <-.
  assert (is_Some (distances st !! u)) as [du Hdu0].
  { apply elem_of_dom. rewrite (inv_distances _ _ _ _ _ _ I).
    by apply (inv_visited _ _ _ _ _ _ I). }
  exists du. eexists. split_and!; [done|exact Hdv|].
  destruct (inv_settled _ _ _ _ _ _ I u Hvis) as [->|[w Hw]].
  - destruct (inv_origin _ _ _ _ _ _ I) as (_ & Hd0 & _).
    rewrite Hd0 in Hdu0. injection Hdu0 as <-.
    apply composite_nonneg; try done.
    + by apply mono_add_nonneg.
    + by apply mono_add_nonneg.
    + lia.
  - destruct (inv_tree _ _ _ _ _ _ I _ _ Hw) as (_ & _ & R).
    destruct R as (conn' & cw' & tw' & m & _ & _ & _ & _ & _ & Hcu' & Htu' & Hn' & Hdu
                   & old' & Hlt').
    apply mono_lt in Hlt'. rewrite Hdu in Hdu0. injection Hdu0 as <-.
    rewrite Hcu in Hcu'. rewrite Htu in Htu'. rewrite Hn in Hn'.
    injection Hcu' as ->. injection Htu' as ->. injection Hn' as ->.
    apply composite_mono; try done.
    + by apply mono_add_r.
    + by apply mono_add_r.
    + lia.
Qed.

End Monotone.

Lemma outgoing_Forall `{PyFloat} (P : connection → Prop)
    (g : gmap string (list connection)) :
  map_Forall (λ _ l, Forall P l) g → ∀ u c, c ∈ outgoing g u → P c.
Proof.
  intros Hall u c. unfold outgoing.
  destruct (g !! u) as [l|] eqn:E; cbn; [|by intros ?%elem_of_nil].
  intros Hc. specialize (Hall u l E). cbn in Hall.
  by eapply Forall_forall in Hall.
Qed.

(** With operations that obey the order laws, weights and edge costs and
    times that are not negative, and a registered origin: along every path
    of the returned mapping the final score of a station is at most the
    final score of the next; and from any state of the run on, a settled
    station stays settled and its recorded score stays as it is. *)
Lemma score_monotone {F : PyFloat} {M : MonotoneFloat F}
    (network : KochiMetroNetwork) (start_station : string)
    (cost_weight time_weight stops_weight : num) :
  f_le f_zero cost_weight → f_le f_zero time_weight → f_le f_zero stops_weight →
  (∀ u c, c ∈ outgoing (graph network) u →
          f_le f_zero (cost c) ∧ f_le f_zero (travel_time c)) →
  start_station ∈ stations network →
  (∀ routes net' s r i u v,
     find_optimal_routes network start_station cost_weight time_weight stops_weight
     = (Ok routes, net') →
     routes !! s = Some r →
     path r !! i = Some u → path r !! S i = Some v →
     ∃ res du dv,
       dijkstra_multi_criteria cost_weight time_weight stops_weight network start_station
       = (Ok res, net') ∧
       res_distances res !! u = Some du ∧ res_distances res !! v = Some dv ∧
       f_leb du dv = true) ∧
  (∀ g st g' st' x,
     later cost_weight time_weight stops_weight
       (graph network) (initial network start_station) g st →
     later cost_weight time_weight stops_weight g st g' st' →
     x ∈ visited st →
     x ∈ visited st' ∧ distances st' !! x = distances st !! x).
Proof.
  intros Hcw Htw Hsw Hattr Hin. split.
  - intros routes net' s r i u v (_ & st & D & I & _ & _ & Hval)%find_optimal_routes_Ok
      Hr Hu Hv.
    destruct (Hval s r Hr) as (T & _).
    pose proof (trail_consecutive _ _ _ _ T i u v Hu Hv) as Hp.
    destruct (parent_score cost_weight time_weight stops_weight network start_station
                Hcw Htw Hsw Hattr st u v I Hp) as (du & dv & ? & ? & ?).
    by exists (results_of st), du, dv.
  - intros g st g' st' x _ [Hsub Hsame]%later_settled Hx.
    split; [by apply Hsub|]. by destruct (Hsame x Hx).
Qed.

(** C3.  In IEEE binary64, the arithmetic of the Python floats, with
    weights and edge costs and times that are not negative ([0.0 <= x],
    which leaves nan out) and a registered origin: along every path of the
    returned mapping the final score of a station is at most the final
    score of the next; and from any state of the run on, a settled station
    stays settled and its recorded score stays as it is. *)
Theorem composite_score_monotone
    (network : @KochiMetroNetwork float64) (start_station : string)
    (cost_weight time_weight stops_weight : float) :
  PrimFloat.leb 0 cost_weight = true → PrimFloat.leb 0 time_weight = true →
  PrimFloat.leb 0 stops_weight = true →
  (∀ u c, c ∈ outgoing (graph network) u →
          PrimFloat.leb 0 (cost c) = true ∧ PrimFloat.leb 0 (travel_time c) = true) →
  start_station ∈ stations network →
  (∀ routes net' s r i u v,
     find_optimal_routes network start_station cost_weight time_weight stops_weight
     = (Ok routes, net') →
     routes !! s = Some r →
     path r !! i = Some u → path r !! S i = Some v →
     ∃ res du dv,
       dijkstra_multi_criteria cost_weight time_weight stops_weight network start_station
       = (Ok res, net') ∧
       res_distances res !! u = Some du ∧ res_distances res !! v = Some dv ∧
       PrimFloat.leb du dv = true) ∧
  (∀ g st g' st' x,
     later cost_weight time_weight stops_weight
       (graph network) (initial network start_station) g st →
     later cost_weight time_weight stops_weight g st g' st' →
     x ∈ visited st →
     x ∈ visited st' ∧ distances st' !! x = distances st !! x).
Proof.
  exact (score_monotone (M := float64_monotone) network start_station
           cost_weight time_weight stops_weight).
Qed.

(** ** The reference network, run from Aluva with the default weights *)

(** An outcome that is a value is the value [returned] gives. *)
Lemma returned_Ok {A B} (d : A) (x : outcome A * B) :
  is_Ok x.1 = true → x = (Ok (returned d x.1), x.2).
Proof. by destruct x as [[] ?]. Qed.

Lemma lookup_default {A} (d : A) (m : gmap string A) (k : string) :
  bool_decide (is_Some (m !! k)) = true → m !! k = Some (default d (m !! k)).
Proof. intros [x ->]%bool_decide_eq_true_1. done. Qed.

(** Close [l = r] by evaluating [l]: [vm_compute] on the whole goal would
    also normalise the operations inside the [PyFloat] instance. *)
Ltac by_vm := lazymatch goal with |- ?l = ?r => exact (@eq_refl _ r <: l = r) end.

(** The reference run returns. *)
Lemma reference_run_Ok :
  find_optimal_routes reference "Aluva" (f_ratio 3 10) (f_ratio 4 10) (f_ratio 3 10)
  = (Ok reference_routes, reference_after).
Proof. unfold reference_routes, reference_after. apply returned_Ok. by_vm. Qed.

(** Close a decidable goal by evaluating its decision. *)
Ltac decide_vm :=
  lazymatch goal with
  | |- ?P => apply (bool_decide_eq_true_1 P); by_vm
  end.

Lemma reference_route_lookup s :
  bool_decide (is_Some (reference_routes !! s)) = true →
  reference_routes !! s = Some (reference_route s).
Proof. unfold reference_route. apply lookup_default. Qed.

Lemma reference_aluva : "Aluva" ∈ stations reference.
Proof. decide_vm. Qed.

Lemma reference_closed : closed reference.
Proof. apply closed_check. by_vm. Qed.

(** C2.  On the reference network, [find_optimal_routes("Aluva", 0.3, 0.4, 0.3)]
    returns a mapping whose entry for Pulinchodu has the path Aluva,
    Pulinchodu, total cost 5.0, total time 3.0 and one stop. *)
Theorem reference_aluva_pulinchodu :
  ∃ routes net' r,
    find_optimal_routes reference "Aluva" (f_ratio 3 10) (f_ratio 4 10) (f_ratio 3 10)
    = (Ok routes, net') ∧
    routes !! "Pulinchodu" = Some r ∧
    path r = ["Aluva"; "Pulinchodu"] ∧
    total_cost r = 5%float ∧ total_time r = 3%float ∧ total_stops r = 1.
Proof.
  exists reference_routes, reference_after,
    (@Route float64 ["Aluva"; "Pulinchodu"] 5%float 3%float 1 (f_ratio 47 1000)).
  split; [exact reference_run_Ok|]. split; [by_vm|].
  repeat split.
Qed.

(** C1 on the reference run: the path to the far end of the line. *)
Lemma find_optimal_routes_path_connected_reference :
  head (path (reference_route "Thripunithura")) = Some "Aluva" ∧
  last (path (reference_route "Thripunithura")) = Some "Thripunithura" ∧
  ∀ i u v, path (reference_route "Thripunithura") !! i = Some u →
           path (reference_route "Thripunithura") !! S i = Some v →
           linked (graph reference) u v.
Proof.
  apply (find_optimal_routes_path_connected reference "Aluva"
           (f_ratio 3 10) (f_ratio 4 10) (f_ratio 3 10)
           reference_routes reference_after "Thripunithura").
  - apply reference_aluva.
  - exact reference_run_Ok.
  - apply reference_route_lookup. by_vm.
Defined.

(** C8 on the reference run. *)
Lemma find_optimal_routes_total_stops_reference :
  total_stops (reference_route "Thripunithura")
  = Z.of_nat (length (path (reference_route "Thripunithura"))) - 1.
Proof.
  apply (find_optimal_routes_total_stops reference "Aluva"
           (f_ratio 3 10) (f_ratio 4 10) (f_ratio 3 10)
           reference_routes reference_after "Thripunithura").
  - apply reference_aluva.
  - exact reference_run_Ok.
  - apply reference_route_lookup. by_vm.
Defined.

(** C6 on a disconnected network: the depot is a station, no edge leads
    to it, and the mapping returned leaves it out. *)
Lemma find_optimal_routes_keys_depot :
  "Aluva" ∈ stations with_depot ∧ "Depot" ∈ stations with_depot ∧
  closed with_depot ∧
  find_optimal_routes with_depot "Aluva" (f_ratio 3 10) (f_ratio 4 10) (f_ratio 3 10)
  = (Ok depot_routes, depot_after) ∧
  depot_routes !! "Depot" = None ∧
  ∃ res,
    dijkstra_multi_criteria (f_ratio 3 10) (f_ratio 4 10) (f_ratio 3 10) with_depot "Aluva"
    = (Ok res, depot_after) ∧
    (∀ s, is_Some (depot_routes !! s) ↔
          s ∈ stations with_depot ∧ s ≠ "Aluva" ∧
          ∃ d, res_distances res !! s = Some d ∧ f_eqb d f_inf = false) ∧
    (∀ s, is_Some (depot_routes !! s) ↔
          s ≠ "Aluva" ∧ ∃ u, res_previous res !! s = Some (Some u)).
Proof.
  assert ("Aluva" ∈ stations with_depot) as Haluva by decide_vm.
  assert (find_optimal_routes with_depot "Aluva"
            (f_ratio 3 10) (f_ratio 4 10) (f_ratio 3 10)
          = (Ok depot_routes, depot_after)) as Hrun.
  { unfold depot_routes, depot_after. apply returned_Ok. by_vm. }
  split; [exact Haluva|]. split; [decide_vm|].
  split; [apply closed_check; by_vm|]. split; [exact Hrun|]. split; [by_vm|].
  destruct (proj2 (find_optimal_routes_keys with_depot "Aluva"
                     (f_ratio 3 10) (f_ratio 4 10) (f_ratio 3 10) Haluva)
              depot_routes depot_after Hrun)
    as (res & Hres & Hlisted & Hrelaxed & _).
  exists res. split; [exact Hres|]. split; [exact Hlisted|exact Hrelaxed].
Defined.

(** C10 on the reference run. *)
Lemma dijkstra_multi_criteria_terminates_reference :
  "Aluva" ∈ stations reference ∧
  (dijkstra_multi_criteria (f_ratio 3 10) (f_ratio 4 10) (f_ratio 3 10)
     reference "Aluva").1 ≠ Diverge ∧
  (find_optimal_routes reference "Aluva"
     (f_ratio 3 10) (f_ratio 4 10) (f_ratio 3 10)).1 ≠ Diverge ∧
  ∃ routes net',
    find_optimal_routes reference "Aluva" (f_ratio 3 10) (f_ratio 4 10) (f_ratio 3 10)
    = (Ok routes, net').
Proof.
  split; [exact reference_aluva|].
  destruct (dijkstra_multi_criteria_terminates reference "Aluva"
              (f_ratio 3 10) (f_ratio 4 10) (f_ratio 3 10) reference_aluva)
    as (Hdijkstra & Hroutes & _ & _ & Hreturns).
  split; [exact Hdijkstra|]. split; [exact Hroutes|exact (Hreturns reference_closed)].
Defined.

(** C4, as amended, on the reference network: Kakkanad is no station of
    it, Aluva is. *)
Lemma find_optimal_routes_raises_reference :
  closed reference ∧ ("Kakkanad" ∉ stations reference) ∧
  find_optimal_routes reference "Kakkanad" (f_ratio 3 10) (f_ratio 4 10) (f_ratio 3 10)
  = (Raise (ValueError "Station 'Kakkanad' not found in the network"), reference) ∧
  ((∃ e, (find_optimal_routes reference "Aluva"
            (f_ratio 3 10) (f_ratio 4 10) (f_ratio 3 10)).1 = Raise e)
   ↔ "Aluva" ∉ stations reference) ∧
  ∃ routes net',
    find_optimal_routes reference "Aluva" (f_ratio 3 10) (f_ratio 4 10) (f_ratio 3 10)
    = (Ok routes, net').
Proof.
  assert ("Kakkanad" ∉ stations reference) as Hout by decide_vm.
  split; [exact reference_closed|]. split; [exact Hout|]. split.
  - exact (proj2 (proj1 (find_optimal_routes_raises reference "Kakkanad"
                           (f_ratio 3 10) (f_ratio 4 10) (f_ratio 3 10)) Hout)).
  - pose proof (proj2 (proj2 (find_optimal_routes_raises reference "Aluva"
                                (f_ratio 3 10) (f_ratio 4 10) (f_ratio 3 10)))
                  reference_closed)
      as (Hiff & _ & Hret).
    split; [exact Hiff|exact (Hret reference_aluva)].
Defined.

Lemma reference_keys : stations reference ⊆ dom (graph reference).
Proof. decide_vm. Qed.

(** C9, as amended, on the reference run: every station has its key, and
    the network after the call is the network before it. *)
Lemma find_optimal_routes_keeps_network_reference :
  stations reference ⊆ dom (graph reference) ∧ reference_after = reference.
Proof.
  split; [exact reference_keys|].
  exact (proj2 (proj2 (proj2 (proj2
           (find_optimal_routes_keeps_network reference "Aluva"
              (f_ratio 3 10) (f_ratio 4 10) (f_ratio 3 10))))) reference_keys).
Defined.

(** X2.  In binary64 too the scores of the reference run do not decrease along
    any of its paths. *)
Example reference_scores_nondecreasing :
  ∃ res net',
    dijkstra_multi_criteria (f_ratio 3 10) (f_ratio 4 10) (f_ratio 3 10) reference "Aluva"
    = (Ok res, net') ∧
    map_Forall (λ _ r, nondecreasing (res_distances res) (path r) = true) reference_routes.
Proof.
  exists (returned (Results ∅ ∅ ∅ ∅ ∅)
            (dijkstra_multi_criteria (f_ratio 3 10) (f_ratio 4 10) (f_ratio 3 10)
               reference "Aluva").1),
    (dijkstra_multi_criteria (f_ratio 3 10) (f_ratio 4 10) (f_ratio 3 10)
       reference "Aluva").2.
  split; [apply returned_Ok; by_vm|decide_vm].
Qed.

(** X3.  The symmetry scenario: between the adjacent stations Aluva and
    Pulinchodu the totals are the same in both directions, and the paths
    are each other's reverse. *)
Example reference_symmetry :
  ∃ routes net' routes_back net_back there back,
    find_optimal_routes reference "Aluva" (f_ratio 3 10) (f_ratio 4 10) (f_ratio 3 10)
    = (Ok routes, net') ∧
    find_optimal_routes reference "Pulinchodu" (f_ratio 3 10) (f_ratio 4 10) (f_ratio 3 10)
    = (Ok routes_back, net_back) ∧
    routes !! "Pulinchodu" = Some there ∧ routes_back !! "Aluva" = Some back ∧
    total_cost there = total_cost back ∧ total_time there = total_time back ∧
    total_stops there = total_stops back ∧ path back = reverse (path there).
Proof.
  exists reference_routes, reference_after,
    (returned ∅ (find_optimal_routes reference "Pulinchodu"
                   (f_ratio 3 10) (f_ratio 4 10) (f_ratio 3 10)).1),
    (find_optimal_routes reference "Pulinchodu"
       (f_ratio 3 10) (f_ratio 4 10) (f_ratio 3 10)).2,
    (@Route float64 ["Aluva"; "Pulinchodu"] 5%float 3%float 1 (f_ratio 47 1000)),
    (@Route float64 ["Pulinchodu"; "Aluva"] 5%float 3%float 1 (f_ratio 47 1000)).
  split; [exact reference_run_Ok|]. split; [apply returned_Ok; by_vm|].
  split; [by_vm|]. split; [by_vm|]. repeat split.
Qed.

(** ** Counterexamples *)

(** Against C4 as stated: the origin is a station and the call raises all
    the same, a [KeyError] for the neighbour that is no station. *)
Lemma dangling_edge_KeyError :
  "Aluva" ∈ stations dangling ∧
  (find_optimal_routes dangling "Aluva" (f_ratio 3 10) (f_ratio 4 10) (f_ratio 3 10)).1
  = Raise (KeyError "Nowhere").
Proof. split; [decide_vm|by_vm]. Qed.

(** Against C6 as stated: a disconnected network (no edge leaves the depot
    and none leads to it) on which the call from a station raises, where
    the claim has a partial mapping. *)
Lemma disconnected_network_KeyError :
  "Aluva" ∈ stations dangling_depot ∧ "Depot" ∈ stations dangling_depot ∧
  outgoing (graph dangling_depot) "Depot" = [] ∧
  (∀ u c, c ∈ outgoing (graph dangling_depot) u → destination c ≠ "Depot") ∧
  (find_optimal_routes dangling_depot "Aluva"
     (f_ratio 3 10) (f_ratio 4 10) (f_ratio 3 10)).1
  = Raise (KeyError "Nowhere").
Proof.
  split; [decide_vm|]. split; [decide_vm|]. split; [by_vm|]. split; [|by_vm].
  apply (outgoing_Forall (λ c, destination c ≠ "Depot")).
  apply (bool_decide_eq_true_1
           (map_Forall (λ _ l, Forall (λ c : connection, destination c ≠ "Depot") l)
              (graph dangling_depot))).
  by_vm.
Qed.

(** Against C5 as stated: [add_connection] registers no station. *)
Lemma add_connection_registers_nothing :
  ("Nowhere" ∉ stations reference) ∧ ("Nowhere" ∉ stations dangling) ∧
  stations dangling = stations reference.
Proof. split; [decide_vm|]. split; [decide_vm|by_vm]. Qed.

(** Against C9 as stated: the call returns, and the adjacency structure
    has a key more than before. *)
Lemma terminal_station_gets_a_key :
  is_Ok (find_optimal_routes one_way "Aluva"
           (f_ratio 3 10) (f_ratio 4 10) (f_ratio 3 10)).1 = true ∧
  graph one_way !! "Terminal" = None ∧
  graph (find_optimal_routes one_way "Aluva"
           (f_ratio 3 10) (f_ratio 4 10) (f_ratio 3 10)).2 !! "Terminal" = Some [].
Proof. split; [by_vm|]. split; by_vm. Qed.

(** ** The laws on the reference network *)

(** The boolean test that no cost and no travel time is negative. *)
Lemma attributes_check (network : @KochiMetroNetwork float64) :
  bool_decide
    (map_Forall (λ _ l, Forall (λ c, PrimFloat.leb 0 (cost c) = true ∧
                                     PrimFloat.leb 0 (travel_time c) = true) l)
       (graph network)) = true →
  ∀ u c, c ∈ outgoing (graph network) u →
         PrimFloat.leb 0 (cost c) = true ∧ PrimFloat.leb 0 (travel_time c) = true.
Proof.
  intros Hall%bool_decide_eq_true_1.
  exact (outgoing_Forall (λ c, PrimFloat.leb 0 (cost c) = true ∧
                               PrimFloat.leb 0 (travel_time c) = true)
           (graph network) Hall).
Qed.

(** C3 on the reference network, run in binary64 from Aluva with the
    default weights. *)
Lemma composite_score_monotone_reference :
  find_optimal_routes reference "Aluva" (f_ratio 3 10) (f_ratio 4 10) (f_ratio 3 10)
  = (Ok reference_routes, reference_after) ∧
  (∀ routes net' s r i u v,
     find_optimal_routes reference "Aluva"
       (f_ratio 3 10) (f_ratio 4 10) (f_ratio 3 10) = (Ok routes, net') →
     routes !! s = Some r →
     path r !! i = Some u → path r !! S i = Some v →
     ∃ res du dv,
       dijkstra_multi_criteria (f_ratio 3 10) (f_ratio 4 10) (f_ratio 3 10)
         reference "Aluva" = (Ok res, net') ∧
       res_distances res !! u = Some du ∧ res_distances res !! v = Some dv ∧
       PrimFloat.leb du dv = true).
Proof.
  split; [exact reference_run_Ok|].
  refine (proj1 (composite_score_monotone reference "Aluva"
                   (f_ratio 3 10) (f_ratio 4 10) (f_ratio 3 10) _ _ _ _ _)).
  - by_vm.
  - by_vm.
  - by_vm.
  - apply attributes_check. by_vm.
  - exact reference_aluva.
Defined.


(** ** Trails over links that point one way *)

Section Rooted.
Context (R : string → string → Prop) (o : string).
Hypothesis R_functional : ∀ u u' v, R u v → R u' v → u = u'.
Hypothesis R_root : ∀ u, ¬ R u o.

(** The station at any place of a trail is reached by the trail up to it. *)
Lemma trail_take v l : 
  trail R o v l → ∀ i x, l !! i = Some x → trail R o x (take (S i) l).
Proof.
  induction 1 as [|u v l T IH L]; intros i x Hx.
  - destruct i; [|done]. injection Hx as <-. apply trail_origin.
  - destruct (decide (i < length l)%nat) as [Hlt|Hge].
    + rewrite lookup_app_l in Hx by done.
      rewrite take_app_le by lia. by apply IH.
    + pose proof (lookup_lt_Some _ _ _ Hx) as Hlen. rewrite length_app in Hlen. cbn in Hlen.
      assert (i = length l) as -> by lia.
      rewrite lookup_app_r, Nat.sub_diag in Hx by lia. injection Hx as <-.
      rewrite take_ge by (rewrite length_app; cbn; lia).
      by eapply trail_step.
Qed.

(** There is one trail to a station at most. *)
Lemma trail_unique v l : trail R o v l → ∀ l', trail R o v l' → l' = l.
Proof.
  induction 1 as [|u v l T IH L]; intros l' T'.
  - inversion T' as [|u' v' l0 T0 L0]; [done|]. by destruct (R_root u').
  - inversion T' as [Ho|u' v' l0 T0 L0]; subst.
    + by destruct (R_root u).
    + rewrite (R_functional _ _ _ L0 L) in T0. by rewrite (IH _ T0).
Qed.

(** A trail goes through no station twice. *)
Lemma trail_NoDup v l : trail R o v l → NoDup l.
Proof.
  intros T. apply NoDup_alt. intros i j x Hi Hj.
  pose proof (trail_take _ _ T _ _ Hi) as Ti.
  pose proof (trail_take _ _ T _ _ Hj) as Tj.
  pose proof (trail_unique _ _ Ti _ Tj) as Heq.
  apply (f_equal length) in Heq. rewrite !length_take in Heq.
  apply lookup_lt_Some in Hi, Hj. lia.
Qed.

End Rooted.

(** ** The routes as a tree *)

Section Routes.
Context {F : PyFloat}.
Variables cost_weight time_weight stops_weight : num.
Variable network : KochiMetroNetwork.
Variable start_station : string.

Abbreviation Inv := (invariant cost_weight time_weight stops_weight network start_station).
Abbreviation Composite := (composite cost_weight time_weight stops_weight).

Lemma parent_functional (previous : gmap string (option string)) u u' v :
  parent previous u v → parent previous u' v → u = u'.
Proof. unfold parent. congruence. Qed.

Lemma parent_root st u : Inv st → ¬ parent (previous st) u start_station.
Proof. intros I Hp. by destruct (inv_tree _ _ _ _ _ _ I _ _ Hp) as (? & _). Qed.

Lemma origin_station st : Inv st → start_station ∈ stations network.
Proof.
  intros I. rewrite <-(inv_previous _ _ _ _ _ _ I).
  destruct (inv_origin _ _ _ _ _ _ I) as (Hp & _). by eapply elem_of_dom_2.
Qed.

(** A trail of predecessor links stays within the stations, and the station
    at place [i] has stop count [i]. *)
Lemma trail_stations st v l :
  Inv st → trail (parent (previous st)) start_station v l →
  ∀ x, x ∈ l → x ∈ stations network.
Proof.
  intros I. induction 1 as [|u v l T IH L]; intros x.
  - intros ->%list_elem_of_singleton. by eapply origin_station.
  - intros [Hx| ->%list_elem_of_singleton]%elem_of_app; [by apply IH|].
    rewrite <-(inv_previous _ _ _ _ _ _ I). by eapply elem_of_dom_2.
Qed.

Lemma trail_simple st v l :
  Inv st → trail (parent (previous st)) start_station v l →
  NoDup l ∧ (length l ≤ size (stations network))%nat.
Proof.
  intros I T.
  assert (NoDup l) as Hnodup.
  { apply (trail_NoDup (parent (previous st)) start_station) with v.
    - intros ???. apply parent_functional.
    - intros u. by apply parent_root.
    - exact T. }
  split; [done|].
  change (size (stations network)) with (length (elements (stations network))).
  apply submseteq_length, NoDup_submseteq; [done|].
  intros x Hx. apply elem_of_elements. by eapply trail_stations.
Qed.

Lemma edges_along_snoc g l es u e :
  edges_along g l es → last l = Some u → e ∈ outgoing g u →
  edges_along g (l ++ [destination e]) (es ++ [e]).
Proof.
  intros [Hlen Hes] Hlast He. split; [rewrite !length_app; cbn; lia|].
  intros i e' Hi. destruct (decide (i < length es)%nat) as [Hlt|Hge].
  - rewrite lookup_app_l in Hi by done.
    destruct (Hes _ _ Hi) as (u' & ? & ? & ?). exists u'.
    rewrite !lookup_app_l by lia. done.
  - pose proof (lookup_lt_Some _ _ _ Hi) as Hl. rewrite length_app in Hl. cbn in Hl.
    assert (i = length es) as -> by lia.
    rewrite lookup_app_r, Nat.sub_diag in Hi by lia. injection Hi as <-.
    exists u. rewrite lookup_app_l by lia. rewrite last_lookup, Hlen in Hlast. cbn in Hlast.
    split_and!; [done..|].
    rewrite lookup_app_r by lia. by replace (S (length es) - length l)%nat with 0%nat by lia.
Qed.

(** The totals of a reached station are the sums, from the origin on, of
    the costs and times of the edges under its trail; its score is the
    blend of these totals. *)
Lemma trail_totals st v l :
  Inv st → trail (parent (previous st)) start_station v l →
  ∃ es, edges_along (graph network) l es ∧
    costs st !! v = Some (foldl (λ a e, f_add a (cost e)) f_zero es) ∧
    times st !! v = Some (foldl (λ a e, f_add a (travel_time e)) f_zero es) ∧
    stops st !! v = Some (Count (Z.of_nat (length es))) ∧
    (v ≠ start_station →
     distances st !! v
     = Some (Composite (foldl (λ a e, f_add a (cost e)) f_zero es)
                       (foldl (λ a e, f_add a (travel_time e)) f_zero es)
                       (Count (Z.of_nat (length es))))).
Proof.
  intros I. induction 1 as [|u v l T IH L].
  - exists []. destruct (inv_origin _ _ _ _ _ _ I) as (_ & _ & Hc & Ht & Hs).
    split_and!; [split; [done|by intros ? ? ?]|done..].
  - destruct IH as (es & Hes & Hc & Ht & Hs & _).
    destruct (inv_tree _ _ _ _ _ _ I _ _ L) as (Hne & _ & R).
    destruct R as (conn & cu & tu & n & Hconn & <- & Hcu & Htu & Hn & Hcv & Htv & Hsv & Hdv & _).
    rewrite Hc in Hcu. rewrite Ht in Htu. rewrite Hs in Hn.
    injection Hcu as <-. injection Htu as <-. injection Hn as <-.
    exists (es ++ [conn]). rewrite !foldl_snoc, length_app. cbn [length].
    replace (Z.of_nat (length es + 1)) with (Z.of_nat (length es) + 1) by lia.
    split_and!; [|done..].
    apply edges_along_snoc with u; [done| |done]. by eapply trail_last.
Qed.

(** What a returned dict tells of the run. *)
Lemma dijkstra_Ok res net' :
  dijkstra_multi_criteria cost_weight time_weight stops_weight network start_station
  = (Ok res, net') →
  start_station ∈ stations network ∧
  ∃ st, res = results_of st ∧ Inv st ∧ pq st = [] ∧
        later cost_weight time_weight stops_weight
          (graph network) (initial network start_station) (graph net') st.
Proof.
  intros E. destruct (decide (start_station ∈ stations network)) as [Hin|Hout]; cycle 1.
  { by rewrite dijkstra_unknown in E. }
  split; [done|].
  destruct (dijkstra_halts cost_weight time_weight stops_weight network start_station Hin)
    as (o & g' & E' & _ & Hend).
  rewrite E in E'. injection E' as <- ->.
  destruct Hend as [(st & [= ->] & I & Hpq & L)|(u & c & _ & _ & ?)]; [|done].
  by exists st.
Qed.

End Routes.

(** X4.  No path of the returned mapping goes through a station twice, all
    its stations are registered, and its stop count is at least one and
    below the number of stations. *)
Theorem find_optimal_routes_simple_paths {F : PyFloat}
    (network : KochiMetroNetwork) (start_station : string)
    (cost_weight time_weight stops_weight : num)
    (routes : gmap string route) (net' : KochiMetroNetwork) (s : string) (r : route) :
  find_optimal_routes network start_station cost_weight time_weight stops_weight
  = (Ok routes, net') →
  routes !! s = Some r →
  NoDup (path r) ∧
  (∀ x, x ∈ path r → x ∈ stations network) ∧
  1 ≤ total_stops r < Z.of_nat (size (stations network)).
Proof.
  intros (_ & st & _ & I & _ & Hdom & Hval)%find_optimal_routes_Ok Hr.
  destruct (Hval s r Hr) as (T & Hlen & _).
  destruct (trail_simple _ _ _ _ _ st s (path r) I T) as [Hnodup Hsize].
  split; [done|]. split; [by eapply trail_stations|].
  assert (s ≠ start_station) as Hne.
  { assert (is_Some (routes !! s)) as Hs by (by rewrite Hr).
    apply Hdom in Hs as (_ & ? & _). done. }
  split; [|lia].
  inversion T as [Ho|u v l T' L Hv Hl]; [congruence|].
  apply trail_nonempty in T'. rewrite <-Hl, length_app in Hlen.
  destruct l; [done|]. cbn in Hlen. lia.
Qed.

(** X5.  The mapping is closed under going back along a path: a station that
    a path goes through, the origin apart, has an entry of its own, whose
    path is the path up to that station. *)
Theorem find_optimal_routes_prefix_closed {F : PyFloat}
    (network : KochiMetroNetwork) (start_station : string)
    (cost_weight time_weight stops_weight : num)
    (routes : gmap string route) (net' : KochiMetroNetwork) (s : string) (r : route)
    (i : nat) (u : string) :
  find_optimal_routes network start_station cost_weight time_weight stops_weight
  = (Ok routes, net') →
  routes !! s = Some r →
  (0 < i)%nat → path r !! i = Some u →
  ∃ ru, routes !! u = Some ru ∧ path ru = take (S i) (path r) ∧
        total_stops ru = Z.of_nat i.
Proof.
  intros (_ & st & _ & I & _ & Hdom & Hval)%find_optimal_routes_Ok Hr Hi Hu.
  destruct (Hval s r Hr) as (T & _).
  assert (∀ a a' b, parent (previous st) a b → parent (previous st) a' b → a = a') as Hfun.
  { intros ???. apply parent_functional. }
  assert (∀ a, ¬ parent (previous st) a start_station) as Hroot.
  { intros a. by eapply parent_root. }
  pose proof (trail_take _ _ _ _ T i u Hu) as Tu.
  pose proof (lookup_lt_Some _ _ _ Hu) as Hlt.
  assert (∃ w, parent (previous st) w u) as [w Hw].
  { inversion Tu as [Ho Hl|w v l T' L Hv Hl]; [|by exists w].
    apply (f_equal length) in Hl. rewrite length_take in Hl. cbn [length] in Hl. lia. }
  assert (is_Some (routes !! u)) as [ru Hru].
  { apply Hdom. split; [|by eapply relaxed_listed].
    apply (trail_stations _ _ _ _ _ st s (path r) I T).
    by eapply list_elem_of_lookup_2. }
  exists ru. destruct (Hval u ru Hru) as (Tru & Hlen & _).
  pose proof (trail_unique _ _ Hfun Hroot _ _ Tu _ Tru) as Heq.
  split_and!; [done..|].
  rewrite Heq, length_take in Hlen. lia.
Qed.

(** X6.  The totals of an entry are those of its path: taking an edge of the
    network from each station of the path to the next, the total cost and
    the total time are the costs and times of these edges added up from
    the origin on, and rounded; the stop count is their number; and the
    composite score is the rounded blend of the three. *)
Theorem find_optimal_routes_totals {F : PyFloat}
    (network : KochiMetroNetwork) (start_station : string)
    (cost_weight time_weight stops_weight : num)
    (routes : gmap string route) (net' : KochiMetroNetwork) (s : string) (r : route) :
  find_optimal_routes network start_station cost_weight time_weight stops_weight
  = (Ok routes, net') →
  routes !! s = Some r →
  ∃ es,
    edges_along (graph network) (path r) es ∧
    total_stops r = Z.of_nat (length es) ∧
    total_cost r = f_round (foldl (λ a e, f_add a (cost e)) f_zero es) 2 ∧
    total_time r = f_round (foldl (λ a e, f_add a (travel_time e)) f_zero es) 2 ∧
    composite_score r
    = f_round (composite cost_weight time_weight stops_weight
                 (foldl (λ a e, f_add a (cost e)) f_zero es)
                 (foldl (λ a e, f_add a (travel_time e)) f_zero es)
                 (Count (Z.of_nat (length es)))) 4.
Proof.
  intros (_ & st & _ & I & _ & Hdom & Hval)%find_optimal_routes_Ok Hr.
  destruct (Hval s r Hr) as (T & Hlen & Hs & (c & Hc & ->) & (t & Ht & ->) & (d & Hd & ->)).
  assert (s ≠ start_station) as Hne.
  { assert (is_Some (routes !! s)) as Hin by (by rewrite Hr).
    apply Hdom in Hin as (_ & ? & _). done. }
  destruct (trail_totals _ _ _ _ _ st s (path r) I T) as (es & Hes & Hc' & Ht' & Hs' & Hd').
  specialize (Hd' Hne). cbn in Hc, Ht, Hs, Hd.
  rewrite Hc in Hc'. rewrite Ht in Ht'. rewrite Hs in Hs'. rewrite Hd in Hd'.
  injection Hc' as ->. injection Ht' as ->. injection Hs' as Hs'. injection Hd' as ->.
  exists es. by split_and!.
Qed.

(** ** Properties of the dicts alone *)

Section Records.
Context {F : PyFloat}.
Variables cost_weight time_weight stops_weight : num.

(** A property of the five dicts that every relaxation keeps holds all
    along the loop. *)
Lemma later_records (P : locals → Prop) g st g' st' :
  (∀ st heap settled,
     P st → P {| distances := distances st; previous := previous st;
                 costs := costs st; times := times st; stops := stops st;
                 pq := heap; visited := settled |}) →
  (∀ cur st conn st',
     P st → relax cost_weight time_weight stops_weight cur st conn = Ok st' → P st') →
  later cost_weight time_weight stops_weight g st g' st' →
  P st → P st'.
Proof.
  intros Hframe Hrelax.
  assert (∀ cur conns st st',
            P st → relax_all cost_weight time_weight stops_weight cur st conns = Ok st' →
            P st') as Hall.
  { unfold relax_all. intros cur conns.
    induction conns as [|conn conns IH]; intros st0 st1 HP; cbn.
    - by intros [= <-].
    - destruct (relax _ _ _ cur st0 conn) as [st2| |] eqn:E; cbn; [|done..].
      apply IH. by eapply Hrelax. }
  induction 1 as [|g st g1 st1 g' st' E L IH]; [done|].
  intros HP. apply IH. revert E. unfold while_body.
  destruct (heappop (pq st)) as [[[d cur] heap]|]; [|done]. cbn.
  case_bool_decide.
  - intros [= <- <-]. by apply Hframe.
  - destruct (defaultdict_getitem g cur) as [conns g2].
    destruct (relax_all _ _ _ _ _ _) as [st2| |] eqn:Hr; [|done..].
    intros [= <- <-]. eapply Hall; [|exact Hr]. by apply Hframe.
Qed.

(** A station that was never relaxed keeps the sentinel as its cost and
    as its time. *)
Lemma later_unrelaxed (network : KochiMetroNetwork) (start_station : string) g' st' :
  later cost_weight time_weight stops_weight
    (graph network) (initial network start_station) g' st' →
  ∀ v, v ≠ start_station → previous st' !! v = Some None →
       costs st' !! v = Some f_inf ∧ times st' !! v = Some f_inf.
Proof.
  intros L.
  refine (later_records
            (λ st, ∀ v, v ≠ start_station → previous st !! v = Some None →
                        costs st !! v = Some f_inf ∧ times st !! v = Some f_inf)
            _ _ _ _ _ _ L _).
  - intros st heap settled HP. exact HP.
  - intros cur st conn st1 HP
      [->|(_ & c & t & s & d & _ & _ & _ & _ & _ & ->)]%relax_Ok; [done|].
    fields. intros v Hv. destruct (decide (destination conn = v)) as [<-|Hne].
    + by rewrite lookup_insert_eq.
    + rewrite !lookup_insert_ne by done. by apply HP.
  - unfold initial; fields. intros v Hv [Hs _]%lookup_gset_to_gmap_Some.
    rewrite !lookup_insert_ne by done. split; by apply lookup_gset_to_gmap_Some.
Qed.

End Records.

(** X7.  The five dicts [dijkstra_multi_criteria] returns have the stations,
    and nothing else, as keys; the origin has score, cost, time and stop
    count zero and no predecessor; a station other than the origin that
    has no predecessor has the sentinel as score, cost, time and stop
    count; and a station that has a predecessor is linked from it by an
    edge of the network, has a score that is not the sentinel and a stop
    count that is a positive [int]. *)
Theorem dijkstra_multi_criteria_tables {F : PyFloat}
    (network : KochiMetroNetwork) (start_station : string)
    (cost_weight time_weight stops_weight : num)
    (res : results) (net' : KochiMetroNetwork) :
  dijkstra_multi_criteria cost_weight time_weight stops_weight network start_station
  = (Ok res, net') →
  (dom (res_distances res) = stations network ∧
   dom (res_costs res) = stations network ∧
   dom (res_times res) = stations network ∧
   dom (res_stops res) = stations network ∧
   dom (res_previous res) = stations network) ∧
  (res_distances res !! start_station = Some f_zero ∧
   res_costs res !! start_station = Some f_zero ∧
   res_times res !! start_station = Some f_zero ∧
   res_stops res !! start_station = Some (Count 0) ∧
   res_previous res !! start_station = Some None) ∧
  (∀ s, s ∈ stations network → s ≠ start_station →
        res_previous res !! s = Some None →
        res_distances res !! s = Some f_inf ∧
        res_costs res !! s = Some f_inf ∧
        res_times res !! s = Some f_inf ∧
        res_stops res !! s = Some Unreached) ∧
  (∀ s u, res_previous res !! s = Some (Some u) →
          s ≠ start_station ∧ linked (graph network) u s ∧
          ∃ d n, res_distances res !! s = Some d ∧ f_eqb d f_inf = false ∧
                 res_stops res !! s = Some (Count n) ∧ 0 < n).
Proof.
  intros (Hin & st & -> & I & _ & L)%dijkstra_Ok. cbn.
  split_and!; try apply I.
  - intros s Hs Hne Hp.
    destruct (inv_unreached _ _ _ _ _ _ I s Hne Hp) as [Hd Hn].
    destruct (later_unrelaxed _ _ _ _ _ _ _ L s Hne Hp) as [Hc Ht]. done.
  - intros s u Hp. change (parent (previous st) u s) in Hp.
    destruct (inv_tree _ _ _ _ _ _ I _ _ Hp) as (Hne & _ & R).
    split; [done|]. split; [by eapply parent_linked|].
    destruct R as (conn & cu & tu & n & _ & _ & _ & _ & Hn & _ & _ & Hs & Hd & old & Hlt).
    destruct (inv_count _ _ _ _ _ _ I _ _ Hn) as [[H0 _] _].
    eexists _, (n + 1). split_and!; [done|by eapply f_ltb_inf|done|lia].
Qed.

(** ** get_path on any dict of predecessor links *)

Section GetPath.
Variable previous : gmap string (option string).

(** Walking back along a trail that starts at a station without
    predecessor. *)
Lemma walk_back o v l :
  previous !! o = Some None → trail (parent previous) o v l →
  ∀ acc, walk (length l) previous (Some v) acc = Ok (acc ++ reverse l).
Proof.
  intros Ho. induction 1 as [|u v l T IH L]; intros acc.
  - cbn. unfold getitem. by rewrite Ho.
  - rewrite length_app, Nat.add_comm. cbn. unfold getitem. rewrite L. cbn.
    by rewrite IH, reverse_snoc, <-app_assoc.
Qed.

(** Walking along links to a station that is no key. *)
Lemma walk_missing v k :
  rtc (λ a b, parent previous b a) v k → previous !! k = None →
  ∃ fuel, ∀ acc, walk fuel previous (Some v) acc = Raise (KeyError k).
Proof.
  intros Hrtc Hk. induction Hrtc as [x|x y z Hxy Hyz IH].
  - exists 1%nat. intros acc. cbn. unfold getitem. by rewrite Hk.
  - destruct (IH Hk) as [fuel Hfuel]. exists (S fuel). intros acc.
    cbn. unfold getitem. rewrite Hxy. cbn. apply Hfuel.
Qed.

Lemma walk_Raise fuel : ∀ v acc e,
  walk fuel previous (Some v) acc = Raise e →
  ∃ k, e = KeyError k ∧ previous !! k = None ∧ rtc (λ a b, parent previous b a) v k.
Proof.
  induction fuel as [|fuel IH]; intros v acc e; cbn; [done|].
  unfold getitem. destruct (previous !! v) as [[u|]|] eqn:E; cbn.
  - intros (k & -> & Hk & Hrtc)%IH. exists k. split_and!; [done..|].
    by eapply rtc_l.
  - by rewrite walk_None.
  - intros [= <-]. by exists v.
Qed.

(** A walk that returns lists the station it began with. *)
Lemma walk_Ok fuel : ∀ v acc p,
  walk fuel previous (Some v) acc = Ok p → p ≠ [].
Proof.
  assert (∀ fuel current acc p,
            acc ≠ [] → walk fuel previous current acc = Ok p → p ≠ []) as Hacc.
  { clear fuel. induction fuel as [|fuel IH]; intros [v|] acc p Hne; cbn.
    - done.
    - by intros [= <-].
    - unfold getitem. destruct (previous !! v) as [next|]; cbn; [|done].
      apply IH. by destruct acc.
    - by intros [= <-]. }
  destruct fuel as [|fuel]; intros v acc p; cbn; [done|].
  unfold getitem. destruct (previous !! v) as [next|]; cbn; [|done].
  apply Hacc. by destruct acc.
Qed.

End GetPath.

(** X8.  When the predecessor links lead from [end_station] back to a station
    that has none, [get_path] returns the stations on the way, that
    station first, if it is [start_station], and the empty list if not. *)
Theorem get_path_follows_links (start_station end_station : string)
    (previous : gmap string (option string)) (o : string) (l : list string) :
  previous !! o = Some None →
  trail (parent previous) o end_station l →
  get_path start_station end_station previous
  = Ok (if bool_decide (o = start_station) then l else []).
Proof.
  intros Ho T. unfold get_path.
  rewrite (walk_within_keys previous (length l)) by (by rewrite (walk_back _ o)).
  rewrite (walk_back _ o) by done. run. cbn [app]. cbv zeta.
  rewrite reverse_involutive.
  pose proof (trail_head _ _ _ _ T) as Hhd.
  destruct l as [|first rest]; [done|]. injection Hhd as ->.
  case_bool_decide; by case_bool_decide.
Qed.

(** X9.  [get_path] raises when, and only when, the predecessor links lead
    from [end_station] to a station that is no key of [previous]; what it
    raises is the [KeyError] of that station. *)
Theorem get_path_KeyError (start_station end_station : string)
    (previous : gmap string (option string)) :
  (∀ k, rtc (λ a b, parent previous b a) end_station k → previous !! k = None →
        get_path start_station end_station previous = Raise (KeyError k)) ∧
  (∀ e, get_path start_station end_station previous = Raise e →
        ∃ k, e = KeyError k ∧ previous !! k = None ∧
             rtc (λ a b, parent previous b a) end_station k).
Proof.
  split.
  - intros k Hrtc Hk. destruct (walk_missing previous _ _ Hrtc Hk) as [fuel Hfuel].
    unfold get_path.
    rewrite (walk_within_keys previous fuel) by (by rewrite Hfuel).
    by rewrite Hfuel.
  - intros e. unfold get_path.
    destruct (walk _ _ _ _) as [p| |] eqn:E; run; [|intros [= <-]; by eapply walk_Raise|done].
    cbv zeta. apply walk_Ok in E.
    destruct (reverse p) as [|first rest] eqn:Hrev.
    + apply (f_equal reverse) in Hrev. by rewrite reverse_involutive in Hrev.
    + by case_bool_decide.
Qed.

(** ** Lists that go along a line *)

Section Line.
Variable line : list string.
Hypothesis line_NoDup : NoDup line.

Lemma line_place i j x : line !! i = Some x → line !! j = Some x → i = j.
Proof. by apply NoDup_lookup. Qed.

Lemma forwards l : ∀ k a b rest,
  l = a :: b :: rest → NoDup l →
  (∀ t u v, l !! t = Some u → l !! S t = Some v → neighbours line u v) →
  line !! k = Some a → line !! S k = Some b →
  ∀ t x, l !! t = Some x → line !! (k + t)%nat = Some x.
Proof.
  induction l as [|a0 l IH]; intros k a b rest Hl Hnodup Hadj Ha Hb t x; [done|].
  injection Hl as -> ->.
  destruct t as [|t]; cbn.
  { intros [= <-]. by rewrite Nat.add_0_r. }
  intros Hx. replace (k + S t)%nat with (S k + t)%nat by lia.
  destruct rest as [|c rest].
  { destruct t; [|done]. injection Hx as <-. by rewrite Nat.add_0_r. }
  apply (IH (S k) b c rest); try done.
  - by apply NoDup_cons in Hnodup as [_ ?].
  - intros t' u v Hu Hv. by apply (Hadj (S t')).
  - destruct (Hadj 1%nat b c) as [j [[Hj Hj']|[Hj Hj']]]; try done.
    + by rewrite <-(line_place _ _ _ Hj Hb).
    + assert (j = k) as -> by (apply eq_add_S; by eapply line_place).
      rewrite Ha in Hj. injection Hj as <-.
      apply NoDup_cons in Hnodup as [Hnot _]. destruct Hnot. set_solver.
Qed.

Lemma backwards l : ∀ k a b rest,
  l = a :: b :: rest → NoDup l →
  (∀ t u v, l !! t = Some u → l !! S t = Some v → neighbours line u v) →
  line !! S k = Some a → line !! k = Some b →
  ∀ t x, l !! t = Some x → (t ≤ S k)%nat ∧ line !! (S k - t)%nat = Some x.
Proof.
  induction l as [|a0 l IH]; intros k a b rest Hl Hnodup Hadj Ha Hb t x; [done|].
  injection Hl as -> ->.
  destruct t as [|t]; cbn [lookup list_lookup].
  { intros [= <-]. split; [lia|]. by rewrite Nat.sub_0_r. }
  intros Hx. replace (S k - S t)%nat with (k - t)%nat by lia.
  destruct rest as [|c rest].
  { destruct t; [|done]. injection Hx as <-. split; [lia|]. by rewrite Nat.sub_0_r. }
  destruct (Hadj 1%nat b c) as [j [[Hj Hj']|[Hj Hj']]]; try done.
  - assert (j = k) as -> by (by eapply line_place).
    rewrite Ha in Hj'. injection Hj' as <-.
    apply NoDup_cons in Hnodup as [Hnot _]. destruct Hnot. set_solver.
  - assert (S j = k) as <- by (by eapply line_place).
    destruct (IH j b c rest) with (t := t) (x := x) as [Hle Hline]; try done.
    + by apply NoDup_cons in Hnodup as [_ ?].
    + intros t' u v Hu Hv. by apply (Hadj (S t')).
    + split; [lia|done].
Qed.

(** A list without repetition whose consecutive stations are neighbours on
    the line goes along the line. *)
Lemma NoDup_along l i o :
  NoDup l → head l = Some o → line !! i = Some o →
  (∀ t u v, l !! t = Some u → l !! S t = Some v → neighbours line u v) →
  along line i l.
Proof.
  intros Hnodup Hhd Hi Hadj.
  destruct l as [|a [|b rest]]; [done| |]; injection Hhd as ->.
  - left. intros [|t] x; [|done]. intros [= <-]. by rewrite Nat.add_0_r.
  - destruct (Hadj 0%nat o b) as [j [[Hj Hj']|[Hj Hj']]]; try done.
    + assert (j = i) as -> by (by eapply line_place).
      left. by eapply forwards.
    + destruct i as [|k]; [by pose proof (line_place _ _ _ Hi Hj')|].
      assert (j = k) as -> by (apply eq_add_S; by eapply line_place).
      right. by eapply backwards.
Qed.

End Line.

(** The test of [neighbours], place by place. *)
Lemma neighbours_check line u v :
  Exists (λ i, (line !! i = Some u ∧ line !! S i = Some v) ∨
               (line !! i = Some v ∧ line !! S i = Some u)) (seq 0 (length line)) →
  neighbours line u v.
Proof. intros [i [_ Hi]]%Exists_exists. by exists i. Qed.

Lemma outgoing_map_Forall `{PyFloat} (P : string → connection → Prop)
    (g : gmap string (list connection)) :
  map_Forall (λ u l, Forall (P u) l) g → ∀ u c, c ∈ outgoing g u → P u c.
Proof.
  intros Hall u c. unfold outgoing.
  destruct (g !! u) as [l|] eqn:E; cbn; [|by intros ?%elem_of_nil].
  intros Hc. specialize (Hall u l E). cbn in Hall.
  by eapply Forall_forall in Hall.
Qed.

(** The test that the stations next to each other on [line] are linked
    both ways in [g]. *)
Lemma linked_check `{PyFloat} (g : gmap string (list connection)) (line : list string) :
  forallb (λ i,
    match line !! i, line !! S i with
    | Some a, Some b =>
        bool_decide (Exists (λ c, destination c = b) (outgoing g a)) &&
        bool_decide (Exists (λ c, destination c = a) (outgoing g b))
    | _, _ => true
    end) (seq 0 (length line)) = true →
  ∀ u v, neighbours line u v → linked g u v.
Proof.
  intros Hall.
  assert (∀ i a b, line !! i = Some a → line !! S i = Some b →
            linked g a b ∧ linked g b a) as Hboth.
  { intros i a b Ha Hb.
    assert (i ∈ seq 0 (length line)) as Hi.
    { apply elem_of_seq. apply lookup_lt_Some in Ha. lia. }
    apply list_elem_of_In in Hi.
    apply (proj1 (forallb_forall _ _) Hall) in Hi. cbv beta in Hi. rewrite Ha, Hb in Hi.
    destruct (andb_prop _ _ Hi) as [[c [? ?]]%bool_decide_eq_true_1%Exists_exists
                                    [c' [? ?]]%bool_decide_eq_true_1%Exists_exists].
    split; [by exists c|by exists c']. }
  intros u v [i [[Ha Hb]|[Ha Hb]]]; by destruct (Hboth i _ _ Ha Hb).
Qed.

(** The test that every edge of [g] joins neighbours on [line]. *)
Lemma neighbours_all_check `{PyFloat} (g : gmap string (list connection))
    (line : list string) :
  bool_decide
    (map_Forall (λ u l,
       Forall (λ c, Exists (λ i, (line !! i = Some u ∧ line !! S i = Some (destination c)) ∨
                                 (line !! i = Some (destination c) ∧ line !! S i = Some u))
                      (seq 0 (length line))) l) g) = true →
  ∀ u c, c ∈ outgoing g u → neighbours line u (destination c).
Proof.
  intros Hall%bool_decide_eq_true_1 u c Hc. apply neighbours_check.
  revert u c Hc. by apply outgoing_map_Forall.
Qed.

Section Shipped.
Context {F : PyFloat}.

Lemma shipped_stations : stations KochiMetroNetwork_init = list_to_set line1_stations.
Proof. by_vm. Qed.

Lemma shipped_closed : closed KochiMetroNetwork_init.
Proof. apply closed_check. by_vm. Qed.

Lemma shipped_keys : dom (graph KochiMetroNetwork_init) = stations KochiMetroNetwork_init.
Proof. by_vm. Qed.

Lemma shipped_keyed : stations KochiMetroNetwork_init ⊆ dom (graph KochiMetroNetwork_init).
Proof. decide_vm. Qed.

Lemma shipped_info :
  station_info KochiMetroNetwork_init
  = list_to_map ((λ s, (s, ("Blue Line", _get_zone s))) <$> line1_stations).
Proof. by_vm. Qed.

Lemma shipped_neighbours u c :
  c ∈ outgoing (graph KochiMetroNetwork_init) u →
  neighbours line1_stations u (destination c).
Proof. apply neighbours_all_check. by_vm. Qed.

Lemma line1_NoDup : NoDup line1_stations.
Proof. decide_vm. Qed.

Lemma shipped_linked u v :
  neighbours line1_stations u v → linked (graph KochiMetroNetwork_init) u v.
Proof. apply linked_check. by_vm. Qed.

(** Every edge carries what the three functions compute for its ends. *)
Lemma shipped_attributes u c :
  c ∈ outgoing (graph KochiMetroNetwork_init) u →
  travel_time c = _calculate_travel_time u (destination c) ∧
  distance c = _calculate_distance u (destination c) ∧
  cost c = _calculate_cost u (destination c).
Proof.
  revert u c.
  apply (outgoing_map_Forall (λ u c,
    travel_time c = _calculate_travel_time u (destination c) ∧
    distance c = _calculate_distance u (destination c) ∧
    cost c = _calculate_cost u (destination c))).
  apply map_Forall_to_list.
  let l := eval vm_compute in (map_to_list (graph KochiMetroNetwork_init)) in
  assert (map_to_list (graph KochiMetroNetwork_init) = l) as -> by by_vm.
  repeat (apply Forall_cons_2;
          [cbn [uncurry]; repeat (apply Forall_cons_2; [split; [by_vm|split; by_vm]|]);
           apply Forall_nil_2|]).
  apply Forall_nil_2.
Qed.

End Shipped.


(** ** Calls on any network whose stations all are keys *)

Section Identity.
Context {F : PyFloat}.
Variables cost_weight time_weight stops_weight : num.
Variable network : KochiMetroNetwork.
Variable start_station : string.

(** When every station is a key of the adjacency structure, a call leaves
    the network as it was. *)
Lemma find_optimal_routes_identity o net' :
  stations network ⊆ dom (graph network) →
  find_optimal_routes network start_station cost_weight time_weight stops_weight
  = (o, net') →
  net' = network.
Proof.
  intros Hkeys E.
  destruct (find_optimal_routes_frame _ _ _ _ _ _ _ E) as (Hs & Hi & Hout & Hsub & Hdom).
  assert (graph network = graph net') as Hg.
  { apply subseteq_dom_eq; [done|]. set_solver. }
  destruct net', network. cbn in *. congruence.
Qed.

(** On a closed network whose stations all are keys, a call from a station
    returns a mapping and the network itself. *)
Lemma find_optimal_routes_returns :
  closed network → stations network ⊆ dom (graph network) →
  start_station ∈ stations network →
  ∃ routes,
    find_optimal_routes network start_station cost_weight time_weight stops_weight
    = (Ok routes, network).
Proof.
  intros Hclosed Hkeys Hin.
  destruct (find_optimal_routes_closed cost_weight time_weight stops_weight
              network start_station Hclosed Hin) as (routes & net' & E).
  exists routes. rewrite E. f_equal. by eapply find_optimal_routes_identity.
Qed.

(** The paths of the mapping, on a network whose edges join neighbours on
    a line of distinct stations. *)
Lemma find_optimal_routes_along (line : list string) routes net' s r :
  NoDup line → (∀ x, x ∈ stations network → x ∈ line) →
  (∀ u c, c ∈ outgoing (graph network) u → neighbours line u (destination c)) →
  find_optimal_routes network start_station cost_weight time_weight stops_weight
  = (Ok routes, net') →
  routes !! s = Some r →
  ∃ i, line !! i = Some start_station ∧ along line i (path r) ∧
       last (path r) = Some s ∧ Z.of_nat (length (path r)) = total_stops r + 1 ∧
       1 ≤ total_stops r.
Proof.
  intros Hline Hsub Hnb (Hin & st & _ & I & _ & Hdom & Hval)%find_optimal_routes_Ok Hr.
  destruct (Hval s r Hr) as (T & Hlen & _).
  destruct (trail_simple _ _ _ _ _ st s (path r) I T) as [Hnodup _].
  destruct (proj1 (list_elem_of_lookup _ _) (Hsub _ Hin)) as [i Hi].
  exists i. split; [done|]. split_and!.
  - eapply NoDup_along; [done..|by eapply trail_head|done|].
    intros t u v Hu Hv.
    pose proof (trail_consecutive _ _ _ _ T t u v Hu Hv) as Hp.
    destruct (parent_linked _ _ _ _ _ st u v I Hp) as (c & Hc & <-).
    by apply Hnb.
  - by eapply trail_last.
  - done.
  - assert (s ≠ start_station) as Hne.
    { assert (is_Some (routes !! s)) as Hs by (by rewrite Hr).
      apply Hdom in Hs as (_ & ? & _). done. }
    inversion T as [Ho|u v l T' L Hv Hl]; [congruence|].
    apply trail_nonempty in T'. rewrite <-Hl, length_app in Hlen.
    destruct l; [done|]. cbn in Hlen. lia.
Qed.

End Identity.

(** A list that goes along a line is a stretch of the line, or one turned
    round. *)
Lemma along_stretch (line l : list string) (i : nat) (s : string) (n : nat) :
  along line i l → length l = S n → last l = Some s →
  ∃ j, line !! j = Some s ∧
    ((j = i + n)%nat ∧ l = take (S n) (drop i line) ∨
     (i = j + n)%nat ∧ l = reverse (take (S n) (drop j line))).
Proof.
  intros Hal Hlen Hlast. rewrite last_lookup, Hlen in Hlast. cbn in Hlast.
  destruct Hal as [Hf|Hb].
  - exists (i + n)%nat. split; [by apply Hf|]. left. split; [done|].
    apply list_eq. intros t. destruct (decide (t < S n)%nat) as [Hlt|Hge].
    + rewrite lookup_take_lt, lookup_drop by done.
      destruct (lookup_lt_is_Some_2 l t) as [x Hx]; [lia|]. rewrite Hx. symmetry. by apply Hf.
    + rewrite lookup_take_ge by lia. apply lookup_ge_None. lia.
  - destruct (Hb _ _ Hlast) as [Hle Hs]. exists (i - n)%nat. split; [done|]. right.
    split; [lia|].
    assert (i < length line)%nat as Hi.
    { destruct (lookup_lt_is_Some_2 l 0) as [x Hx]; [lia|].
      destruct (Hb _ _ Hx) as [_ H0]. rewrite Nat.sub_0_r in H0. by eapply lookup_lt_Some. }
    assert (length (take (S n) (drop (i - n) line)) = S n) as Htake.
    { rewrite length_take, length_drop. lia. }
    apply list_eq. intros t. destruct (decide (t < S n)%nat) as [Hlt|Hge].
    + rewrite reverse_lookup by (rewrite Htake; lia). rewrite Htake.
      rewrite lookup_take_lt, lookup_drop by lia.
      destruct (lookup_lt_is_Some_2 l t) as [x Hx]; [lia|]. rewrite Hx. symmetry.
      destruct (Hb _ _ Hx) as [_ Hline].
      by replace (i - n + (S n - S t))%nat with (i - t)%nat by lia.
    + rewrite (lookup_ge_None_2 l) by lia. symmetry. apply lookup_ge_None.
      rewrite length_reverse, Htake. lia.
Qed.

(** The tests of the registry of a network. *)
Lemma info_check (info : gmap string (string * string)) (line : list string) :
  bool_decide (Forall (λ s, info !! s = Some ("Blue Line", _get_zone s)) line) = true →
  ∀ s, s ∈ line → info !! s = Some ("Blue Line", _get_zone s).
Proof. intros Hall%bool_decide_eq_true_1 s Hs. by eapply Forall_forall in Hall. Qed.

Lemma parallel_check `{PyFloat} (g : gmap string (list connection)) :
  bool_decide (map_Forall (λ _ l, NoDup (destination <$> l)) g) = true →
  ∀ u, NoDup (destination <$> outgoing g u).
Proof.
  intros Hall%bool_decide_eq_true_1 u. unfold outgoing.
  destruct (g !! u) as [l|] eqn:E; cbn; [|apply NoDup_nil_2].
  exact (Hall u l E).
Qed.

(** X10.  The network the constructor builds: its stations are the 23 of the
    line; each has its line and zone on record; each is a key of the
    adjacency structure; two stations are linked, either way, exactly when
    they are next to each other on the line, by one edge, which carries
    the time, distance and cost the three functions compute for them. *)
Theorem KochiMetroNetwork_init_network {F : PyFloat} :
  stations KochiMetroNetwork_init = list_to_set line1_stations ∧
  size (stations KochiMetroNetwork_init) = 23%nat ∧
  dom (station_info KochiMetroNetwork_init) = stations KochiMetroNetwork_init ∧
  (∀ s, s ∈ line1_stations →
        station_info KochiMetroNetwork_init !! s = Some ("Blue Line", _get_zone s)) ∧
  dom (graph KochiMetroNetwork_init) = stations KochiMetroNetwork_init ∧
  (∀ u v, linked (graph KochiMetroNetwork_init) u v ↔ neighbours line1_stations u v) ∧
  (∀ u, NoDup (destination <$> outgoing (graph KochiMetroNetwork_init) u)) ∧
  (∀ u c, c ∈ outgoing (graph KochiMetroNetwork_init) u →
          travel_time c = _calculate_travel_time u (destination c) ∧
          distance c = _calculate_distance u (destination c) ∧
          cost c = _calculate_cost u (destination c)).
Proof.
  split; [exact shipped_stations|]. split; [by_vm|]. split; [by_vm|].
  split; [apply info_check; by_vm|]. split; [exact shipped_keys|].
  split; [|split; [apply parallel_check; by_vm|exact shipped_attributes]].
  intros u v. split; [|exact (shipped_linked u v)].
  intros (c & Hc & <-). exact (shipped_neighbours u c Hc).
Qed.

(** X11.  A call of [find_optimal_routes] on the network of the constructor,
    whatever the weights: from one of the 23 stations it returns a mapping,
    from any other name it raises the [ValueError] that names it; either
    way the network is left exactly as it was. *)
Theorem KochiMetroNetwork_init_queries {F : PyFloat}
    (start_station : string) (cost_weight time_weight stops_weight : num) :
  (start_station ∈ line1_stations →
   ∃ routes,
     find_optimal_routes KochiMetroNetwork_init start_station
       cost_weight time_weight stops_weight
     = (Ok routes, KochiMetroNetwork_init)) ∧
  (start_station ∉ line1_stations →
   find_optimal_routes KochiMetroNetwork_init start_station
     cost_weight time_weight stops_weight
   = (Raise (ValueError (String.append "Station '"
               (String.append start_station "' not found in the network"))),
      KochiMetroNetwork_init)).
Proof.
  split; intros Hin.
  - apply find_optimal_routes_returns.
    + exact shipped_closed.
    + exact shipped_keyed.
    + rewrite shipped_stations. apply elem_of_list_to_set. exact Hin.
  - apply find_optimal_routes_unknown.
    rewrite shipped_stations. intros Hs%elem_of_list_to_set. exact (Hin Hs).
Qed.

(** X12.  On the network of the constructor every path of a returned mapping
    is the stretch of the line from the origin to the destination, in the
    order of the line or turned round, and the stop count is the number of
    places between the two. *)
Theorem KochiMetroNetwork_init_paths {F : PyFloat}
    (start_station : string) (cost_weight time_weight stops_weight : num)
    (routes : gmap string route) (net' : KochiMetroNetwork) (s : string) (r : route) :
  find_optimal_routes KochiMetroNetwork_init start_station
    cost_weight time_weight stops_weight = (Ok routes, net') →
  routes !! s = Some r →
  ∃ i j : nat,
    line1_stations !! i = Some start_station ∧ line1_stations !! j = Some s ∧
    ((i < j)%nat ∧ total_stops r = Z.of_nat (j - i) ∧
     path r = take (S (j - i)) (drop i line1_stations) ∨
     (j < i)%nat ∧ total_stops r = Z.of_nat (i - j) ∧
     path r = reverse (take (S (i - j)) (drop j line1_stations))).
Proof.
  intros E Hr.
  destruct (find_optimal_routes_along cost_weight time_weight stops_weight
              KochiMetroNetwork_init start_station line1_stations routes net' s r
              line1_NoDup) as (i & Hi & Hal & Hlast & Hlen & Hpos); [| |exact E|exact Hr|].
  { intros x. rewrite shipped_stations. apply elem_of_list_to_set. }
  { exact shipped_neighbours. }
  destruct (along_stretch line1_stations (path r) i s (Z.to_nat (total_stops r - 1) + 1)
              Hal) as (j & Hj & Hcase); [lia|exact Hlast|].
  exists i, j. split; [exact Hi|]. split; [exact Hj|].
  destruct Hcase as [[-> ->]|[-> ->]]; [left|right].
  - split; [lia|]. split; [lia|]. do 2 f_equal. lia.
  - split; [lia|]. split; [lia|]. do 3 f_equal. lia.
Qed.


(** A table of segments that has no segment both ways round answers the
    same for a pair of stations and for the pair turned round. *)
Lemma segment_get_symmetric `{PyFloat} (table : gmap (string * string) num) (base : num)
    (station1 station2 : string) :
  (∀ a b, is_Some (table !! (a, b)) → table !! (b, a) = None) →
  segment_get table base station1 station2 = segment_get table base station2 station1.
Proof.
  intros Hone. unfold segment_get.
  destruct (table !! (station1, station2)) as [x|] eqn:E1.
  - rewrite (Hone station1 station2) by (by rewrite E1). done.
  - destruct (table !! (station2, station1)) as [y|] eqn:E2; done.
Qed.

Lemma one_way_check `{PyFloat} (l : list ((string * string) * num)) :
  Forall (λ k, (k.2, k.1) ∉ l.*1) l.*1 →
  ∀ a b, is_Some ((list_to_map l : gmap (string * string) num) !! (a, b)) →
         (list_to_map l : gmap (string * string) num) !! (b, a) = None.
Proof.
  intros Hall a b [x Hx]. apply not_elem_of_list_to_map_1.
  apply elem_of_list_to_map_2 in Hx.
  assert ((a, b) ∈ l.*1) as Hin.
  { apply list_elem_of_fmap. by exists ((a, b), x). }
  rewrite Forall_forall in Hall. exact (Hall _ Hin).
Qed.

(** X13.  The travel time and the distance between two stations do not depend
    on the order in which the two are given. *)
Theorem calculate_symmetric {F : PyFloat} (station1 station2 : string) :
  _calculate_travel_time station1 station2 = _calculate_travel_time station2 station1 ∧
  _calculate_distance station1 station2 = _calculate_distance station2 station1.
Proof.
  split.
  - apply segment_get_symmetric, one_way_check; decide_vm.
  - apply segment_get_symmetric, one_way_check; decide_vm.
Qed.


(** ** nan among the weights *)

Module Nan.

Lemma isnan_spec x : isnan x = true → Prim2SF x = S754_nan.
Proof. unfold isnan. intros Hx. unfold Prim2SF, is_nan. by rewrite Hx. Qed.

Lemma mul_l x y : Prim2SF x = S754_nan → Prim2SF (x * y) = S754_nan.
Proof. intros Hx. rewrite mul_spec, Hx. reflexivity. Qed.

Lemma add_l x y : Prim2SF x = S754_nan → Prim2SF (x + y) = S754_nan.
Proof. intros Hx. rewrite add_spec, Hx. reflexivity. Qed.

Lemma add_r x y : Prim2SF y = S754_nan → Prim2SF (x + y) = S754_nan.
Proof. intros Hy. rewrite add_spec, Hy. by destruct (Prim2SF x). Qed.

Lemma sub_l x y : Prim2SF x = S754_nan → Prim2SF (x - y) = S754_nan.
Proof. intros Hx. rewrite sub_spec, Hx. reflexivity. Qed.

Lemma abs_nan x : Prim2SF x = S754_nan → Prim2SF (abs x) = S754_nan.
Proof. intros Hx. rewrite abs_spec, Hx. reflexivity. Qed.

Lemma ltb_l x y : Prim2SF x = S754_nan → PrimFloat.ltb x y = false.
Proof. intros Hx. rewrite FloatAxioms.ltb_spec, Hx. reflexivity. Qed.

Lemma ltb_r x y : Prim2SF y = S754_nan → PrimFloat.ltb x y = false.
Proof. intros Hy. rewrite FloatAxioms.ltb_spec, Hy. unfold SFltb. by destruct (Prim2SF x). Qed.

(** A score blended with a weight that is nan is nan. *)
Lemma composite_nan (cost_weight time_weight stops_weight : float) c t s :
  isnan cost_weight = true ∨ isnan time_weight = true ∨ isnan stops_weight = true →
  Prim2SF (composite (H := float64) cost_weight time_weight stops_weight c t s) = S754_nan.
Proof.
  unfold composite. cbn [f_add f_mul float64].
  intros [Hw%isnan_spec|[Hw%isnan_spec|Hw%isnan_spec]].
  - by apply add_l, add_l, mul_l.
  - by apply add_l, add_r, mul_l.
  - by apply add_r, mul_l.
Qed.

End Nan.

(** X14.  In binary64, when one of the three weights is nan, no score ever
    compares below another: from a registered origin on a network whose
    edges lead to registered stations, [find_optimal_routes] returns the
    empty mapping. *)
Theorem find_optimal_routes_nan_weight
    (network : @KochiMetroNetwork float64) (start_station : string)
    (cost_weight time_weight stops_weight : float) :
  isnan cost_weight = true ∨ isnan time_weight = true ∨
    isnan stops_weight = true →
  closed network → start_station ∈ stations network →
  ∃ net',
    find_optimal_routes network start_station cost_weight time_weight stops_weight
    = (Ok ∅, net').
Proof.
  intros Hnan Hclosed Hin.
  destruct (find_optimal_routes_closed (F := float64) cost_weight time_weight stops_weight
              network start_station Hclosed Hin) as (routes & net' & E).
  exists net'. rewrite E. do 2 f_equal.
  apply find_optimal_routes_Ok in E as (_ & st & _ & I & _ & Hdom & _).
  apply map_empty. intros s. apply eq_None_not_Some. intros [_ (Hne & d & Hd & Hinf)]%Hdom.
  destruct (listed_reached _ _ _ _ _ st s d I Hne Hd Hinf) as [[?|[u Hu]] _]; [done|].
  destruct (inv_tree _ _ _ _ _ _ I _ _ Hu) as (_ & _ & R).
  destruct R as (conn & cu & tu & n & _ & _ & _ & _ & _ & _ & _ & _ & _ & old & Hlt).
  cbn [f_ltb float64] in Hlt. rewrite Nan.ltb_l in Hlt; [done|].
  by apply Nan.composite_nan.
Qed.


(** ** The weight checks of the callers *)

Lemma SFcompare_Lt_Gt x y : SFcompare x y = Some Lt → SFcompare y x = Some Gt.
Proof.
  destruct x as [[]|[]| |[] m e], y as [[]|[]| |[] m' e']; cbn; try done.
  - rewrite (Z.compare_antisym e e').
    destruct (e ?= e'); cbn; try done.
    change (Pos.compare_cont Eq m' m) with (Pos.compare_cont (CompOpp Eq) m' m).
    rewrite <-Pos.compare_cont_antisym.
    destruct (Pos.compare_cont Eq m m'); cbn; done.
  - rewrite (Z.compare_antisym e e').
    destruct (e ?= e'); cbn; try done.
    change (Pos.compare_cont Eq m' m) with (Pos.compare_cont (CompOpp Eq) m' m).
    rewrite <-Pos.compare_cont_antisym.
    destruct (Pos.compare_cont Eq m m'); cbn; done.
Qed.

Lemma ltb_asym x y : PrimFloat.ltb x y = true → PrimFloat.ltb y x = false.
Proof.
  rewrite !FloatAxioms.ltb_spec. unfold SFltb.
  destruct (SFcompare (Prim2SF x) (Prim2SF y)) as [[]|] eqn:E; try done.
  by rewrite (SFcompare_Lt_Gt _ _ E).
Qed.

(** X15.  Weights that [get_user_input] takes are not turned down by [index]
    nor by [validate_inputs]. *)
Theorem weights_accepted_not_rejected (cost_weight time_weight stops_weight : float) :
  weights_accepted cost_weight time_weight stops_weight = true →
  weights_rejected cost_weight time_weight stops_weight = false.
Proof. apply ltb_asym. Qed.

(** X16.  A weight that is nan is not turned down by [index] nor by
    [validate_inputs]; [get_user_input] does not take it. *)
Theorem weights_nan (cost_weight time_weight stops_weight : float) :
  isnan cost_weight = true ∨ isnan time_weight = true ∨
    isnan stops_weight = true →
  weights_rejected cost_weight time_weight stops_weight = false ∧
  weights_accepted cost_weight time_weight stops_weight = false.
Proof.
  intros Hnan.
  assert (Prim2SF (weights_sum_error cost_weight time_weight stops_weight) = S754_nan) as He.
  { unfold weights_sum_error. apply Nan.abs_nan, Nan.sub_l.
    destruct Hnan as [Hw%Nan.isnan_spec|[Hw%Nan.isnan_spec|Hw%Nan.isnan_spec]].
    - by apply Nan.add_l, Nan.add_l.
    - by apply Nan.add_l, Nan.add_r.
    - by apply Nan.add_r. }
  split; [by apply Nan.ltb_r|by apply Nan.ltb_l].
Qed.

Lemma hundredths_agree :
  (let t := hundredths in
   let k := Float64.ratio 1 1000 in
   forallb (λ x, forallb (λ y, forallb (weights_agree k x y) t) t) t) = true.
Proof. by_vm. Qed.

Lemma hundredths_elem a : 0 ≤ a ≤ 100 → In (a, Float64.ratio a 100) hundredths.
Proof.
  intros Ha. apply list_elem_of_In, list_elem_of_fmap. exists a. split; [done|].
  apply elem_of_seqZ. lia.
Qed.

(** X17.  On weights given in hundredths from 0.00 to 1.00, the two tests
    agree with each other and with the sum of the hundredths: the weights
    are turned down exactly when the hundredths do not add up to 100, and
    taken exactly when they do. *)
Theorem weights_hundredths (a b c : Z) :
  0 ≤ a ≤ 100 → 0 ≤ b ≤ 100 → 0 ≤ c ≤ 100 →
  weights_rejected (Float64.ratio a 100) (Float64.ratio b 100) (Float64.ratio c 100)
  = negb (a + b + c =? 100) ∧
  weights_accepted (Float64.ratio a 100) (Float64.ratio b 100) (Float64.ratio c 100)
  = (a + b + c =? 100).
Proof.
  intros Ha%hundredths_elem Hb%hundredths_elem Hc%hundredths_elem.
  pose proof hundredths_agree as Hall. cbv zeta in Hall.
  rewrite forallb_forall in Hall. specialize (Hall _ Ha). cbv beta in Hall.
  rewrite forallb_forall in Hall. specialize (Hall _ Hb). cbv beta in Hall.
  rewrite forallb_forall in Hall. specialize (Hall _ Hc).
  unfold weights_agree in Hall. cbn [fst snd] in Hall. cbv zeta in Hall.
  apply andb_prop in Hall as [H1 H2].
  apply Bool.eqb_prop in H1, H2. split; [exact H1|exact H2].
Qed.

(** ** The further properties on the reference run *)

Lemma find_optimal_routes_simple_paths_reference :
  NoDup (path (reference_route "Thripunithura")) ∧
  (∀ x, x ∈ path (reference_route "Thripunithura") → x ∈ stations reference) ∧
  1 ≤ total_stops (reference_route "Thripunithura") < Z.of_nat (size (stations reference)).
Proof.
  apply (find_optimal_routes_simple_paths reference "Aluva"
           (f_ratio 3 10) (f_ratio 4 10) (f_ratio 3 10)
           reference_routes reference_after "Thripunithura").
  - exact reference_run_Ok.
  - apply reference_route_lookup. by_vm.
Defined.

Lemma find_optimal_routes_prefix_closed_reference :
  path (reference_route "Companypady") !! 1%nat = Some "Pulinchodu" ∧
  ∃ ru, reference_routes !! "Pulinchodu" = Some ru ∧
        path ru = take 2 (path (reference_route "Companypady")) ∧
        total_stops ru = 1.
Proof.
  split; [by_vm|].
  apply (find_optimal_routes_prefix_closed reference "Aluva"
           (f_ratio 3 10) (f_ratio 4 10) (f_ratio 3 10)
           reference_routes reference_after "Companypady" _ 1%nat "Pulinchodu").
  - exact reference_run_Ok.
  - apply reference_route_lookup. by_vm.
  - lia.
  - by_vm.
Defined.

Lemma find_optimal_routes_totals_reference :
  ∃ es,
    edges_along (graph reference) (path (reference_route "Thripunithura")) es ∧
    total_stops (reference_route "Thripunithura") = Z.of_nat (length es) ∧
    total_cost (reference_route "Thripunithura")
    = f_round (foldl (λ a e, f_add a (cost e)) f_zero es) 2 ∧
    total_time (reference_route "Thripunithura")
    = f_round (foldl (λ a e, f_add a (travel_time e)) f_zero es) 2 ∧
    composite_score (reference_route "Thripunithura")
    = f_round (composite (f_ratio 3 10) (f_ratio 4 10) (f_ratio 3 10)
                 (foldl (λ a e, f_add a (cost e)) f_zero es)
                 (foldl (λ a e, f_add a (travel_time e)) f_zero es)
                 (Count (Z.of_nat (length es)))) 4.
Proof.
  apply (find_optimal_routes_totals reference "Aluva"
           (f_ratio 3 10) (f_ratio 4 10) (f_ratio 3 10)
           reference_routes reference_after "Thripunithura").
  - exact reference_run_Ok.
  - apply reference_route_lookup. by_vm.
Defined.

Lemma dijkstra_multi_criteria_tables_reference :
  dom (res_previous reference_results) = stations reference ∧
  res_stops reference_results !! "Aluva" = Some (Count 0) ∧
  ∀ s u, res_previous reference_results !! s = Some (Some u) →
         s ≠ "Aluva" ∧ linked (graph reference) u s.
Proof.
  destruct (dijkstra_multi_criteria_tables reference "Aluva"
              (f_ratio 3 10) (f_ratio 4 10) (f_ratio 3 10) reference_results
              (dijkstra_multi_criteria (f_ratio 3 10) (f_ratio 4 10) (f_ratio 3 10)
                 reference "Aluva").2)
    as ((_ & _ & _ & _ & Hdom) & (_ & _ & _ & Hstops & _) & _ & Hlinks).
  - unfold reference_results. apply returned_Ok. by_vm.
  - split; [exact Hdom|]. split; [exact Hstops|].
    intros s u Hp. destruct (Hlinks s u Hp) as (Hne & Hl & _). split; [exact Hne|exact Hl].
Defined.

(** Three links, looked at from the station they lead back to and from
    another one. *)
Lemma get_path_follows_links_three :
  let previous : gmap string (option string) :=
    <["C" := Some "B"]> (<["B" := Some "A"]> (<["A" := None]> ∅)) in
  get_path "A" "C" previous = Ok ["A"; "B"; "C"] ∧
  get_path "B" "C" previous = Ok [].
Proof.
  intros previous.
  assert (trail (parent previous) "A" "C" ["A"; "B"; "C"]) as T.
  { apply (trail_step _ _ "B" "C" ["A"; "B"]); [|reflexivity].
    apply (trail_step _ _ "A" "B" ["A"]); [|reflexivity].
    apply trail_origin. }
  split.
  - exact (get_path_follows_links "A" "C" previous "A" _ eq_refl T).
  - exact (get_path_follows_links "B" "C" previous "A" _ eq_refl T).
Defined.

Lemma KochiMetroNetwork_init_paths_reference :
  ∃ i j : nat,
    line1_stations !! i = Some "Aluva" ∧ line1_stations !! j = Some "Thripunithura" ∧
    ((i < j)%nat ∧ total_stops (reference_route "Thripunithura") = Z.of_nat (j - i) ∧
     path (reference_route "Thripunithura") = take (S (j - i)) (drop i line1_stations) ∨
     (j < i)%nat ∧ total_stops (reference_route "Thripunithura") = Z.of_nat (i - j) ∧
     path (reference_route "Thripunithura")
     = reverse (take (S (i - j)) (drop j line1_stations))).
Proof.
  apply (KochiMetroNetwork_init_paths (F := float64) "Aluva"
           (f_ratio 3 10) (f_ratio 4 10) (f_ratio 3 10)
           reference_routes reference_after "Thripunithura").
  - by_vm.
  - apply reference_route_lookup. by_vm.
Defined.

Lemma find_optimal_routes_nan_weight_reference :
  ∃ net', find_optimal_routes reference "Aluva" PrimFloat.nan (f_ratio 4 10) (f_ratio 3 10)
          = (Ok ∅, net').
Proof.
  apply (find_optimal_routes_nan_weight reference "Aluva" PrimFloat.nan).
  - left. reflexivity.
  - exact reference_closed.
  - exact reference_aluva.
Defined.

Lemma weights_accepted_not_rejected_default :
  weights_accepted (f_ratio 3 10) (f_ratio 4 10) (f_ratio 3 10) = true ∧
  weights_rejected (f_ratio 3 10) (f_ratio 4 10) (f_ratio 3 10) = false.
Proof.
  assert (weights_accepted (f_ratio 3 10) (f_ratio 4 10) (f_ratio 3 10) = true) as H by by_vm.
  split; [exact H|]. exact (weights_accepted_not_rejected _ _ _ H).
Defined.

Lemma weights_nan_cost :
  weights_rejected PrimFloat.nan (f_ratio 4 10) (f_ratio 3 10) = false ∧
  weights_accepted PrimFloat.nan (f_ratio 4 10) (f_ratio 3 10) = false.
Proof. apply weights_nan. left. reflexivity. Defined.

Lemma weights_hundredths_default :
  weights_rejected (Float64.ratio 30 100) (Float64.ratio 40 100) (Float64.ratio 30 100)
  = false ∧
  weights_accepted (Float64.ratio 30 100) (Float64.ratio 40 100) (Float64.ratio 30 100)
  = true.
Proof. apply (weights_hundredths 30 40 30); lia. Defined.
